(** * Bit-indexing kernels of qibo's TensorFlow custom operators

    A shallow embedding of
      - [apply_gate_kernels.cc]: [ApplyGateFunctor<CPUDevice,T>] and
        [ApplyGateOp::Compute];
      - [transpose_state.cc]: [TransposeStateFunctor<CPUDevice,T>],
        [SwapPiecesFunctor<CPUDevice,T>] and the two [Compute] wrappers.

    Conventions.
      - [int], [int32] and [int64] values are elements of [Z].  Every index
        the kernels compute is shown to lie in [0, 2^nqubits), so for
        buffers that fit in memory the 64-bit operations of the source
        never wrap.  C++ [/] and [%] truncate: they are [Z.quot], [Z.rem].
      - A buffer ([T*]) is a [list]; a kernel returns [option]: [None]
        stands for undefined behaviour of the source (access outside the
        buffer, division by zero, shift by a negative amount).
      - The amplitude type [T] is the template parameter of the source.
        The kernels only add and multiply amplitudes; the algebraic
        statements are over any commutative ring with a conjugation
        (exact arithmetic: rounding of [complex64]/[complex128] is not
        modelled). *)

From Stdlib Require Import ZArith Lia Ring Ring_theory Sorting.Sorted.
From Stdlib Require Import Reals Lra.
From Stdlib Require Import Strings.String.
From stdpp Require Import base tactics option list numbers sorting.

Local Open Scope Z_scope.

(** ** Amplitudes *)

Declare Scope amp_scope.
Delimit Scope amp_scope with A.

Class Amplitude (T : Type) := {
  czero : T;
  cone : T;
  cadd : T → T → T;
  cmul : T → T → T;
  copp : T → T;
  cconj : T → T;
  amp_ring :
    ring_theory czero cone cadd cmul (λ x y, cadd x (copp y)) copp eq;
  cconj_add : ∀ x y, cconj (cadd x y) = cadd (cconj x) (cconj y);
  cconj_mul : ∀ x y, cconj (cmul x y) = cmul (cconj x) (cconj y);
}.

Notation "0" := czero : amp_scope.
Notation "1" := cone : amp_scope.
Infix "+" := cadd : amp_scope.
Infix "*" := cmul : amp_scope.

(** Squared magnitude |x|^2 = x * conj x. *)
Definition abs2 `{Amplitude T} (x : T) : T := (x * cconj x)%A.

(** Sum over the buffer of the squared magnitudes. *)
Definition norm2 `{Amplitude T} (state : list T) : T :=
  foldr (λ x acc, (abs2 x + acc)%A) 0%A state.

(** [const T* gate]: four amplitudes, row-major. *)
Record Gate (T : Type) := mkGate { g0 : T; g1 : T; g2 : T; g3 : T }.
Arguments mkGate {T} _ _ _ _.
Arguments g0 {T} _.
Arguments g1 {T} _.
Arguments g2 {T} _.
Arguments g3 {T} _.

(** Conjugate transpose of a gate. *)
Definition dagger `{Amplitude T} (G : Gate T) : Gate T :=
  mkGate (cconj (g0 G)) (cconj (g2 G)) (cconj (g1 G)) (cconj (g3 G)).

(** Row-major product of two 2x2 matrices. *)
Definition gmul `{Amplitude T} (G H : Gate T) : Gate T :=
  mkGate (g0 G * g0 H + g1 G * g2 H)%A (g0 G * g1 H + g1 G * g3 H)%A
         (g2 G * g0 H + g3 G * g2 H)%A (g2 G * g1 H + g3 G * g3 H)%A.

Definition gid `{Amplitude T} : Gate T := mkGate 1%A 0%A 0%A 1%A.

(** G times its conjugate transpose is the identity. *)
Definition unitary `{Amplitude T} (G : Gate T) : Prop :=
  gmul G (dagger G) = gid.

(** ** Buffers and integer primitives *)

(** [buf[i]] as an rvalue. *)
Definition read {A} (buf : list A) (i : Z) : option A :=
  if 0 <=? i then buf !! Z.to_nat i else None.

(** [buf[i] = v]. *)
Definition write {A} (buf : list A) (i : Z) (v : A) : option (list A) :=
  if (0 <=? i) && (i <? Z.of_nat (length buf))
  then Some (<[Z.to_nat i := v]> buf) else None.

(** [(int64) std::pow(2, e)]; a negative [e] gives a fraction, which the
    cast truncates to 0, and so does [Z.pow].  [Z] has no [int64] range:
    for [e >= 63] the conversion of the source is undefined, and a
    statement that concludes a defined result keeps the values of the
    call within [int64_range] by hypothesis. *)
Definition pow2 (e : Z) : Z := 2 ^ e.

(** The values of [int] (and [int32]) and of [int64]. *)
Definition int_range (x : Z) : Prop := - 2 ^ 31 ≤ x < 2 ^ 31.
Definition int64_range (x : Z) : Prop := - 2 ^ 63 ≤ x < 2 ^ 63.

(** [a / b] and [a % b] on [int64]. *)
Definition idiv (a b : Z) : option Z :=
  if b =? 0 then None else Some (a `quot` b).
Definition imod (a b : Z) : option Z :=
  if b =? 0 then None else Some (a `rem` b).

(** [a << b] and [a >> b] on [int64]. *)
Definition shl (a b : Z) : option Z :=
  if 0 <=? b then Some (a ≪ b) else None.
Definition shr (a b : Z) : option Z :=
  if 0 <=? b then Some (a ≫ b) else None.

(** A [for] loop over the indices of [range], threading the state. *)
Fixpoint for_each {S I} (body : I → S → option S) (range : list I) (s : S)
  : option S :=
  match range with
  | [] => Some s
  | i :: rest => s' ← body i s; for_each body rest s'
  end.

(** ** std::set<int64> *)

(** [cks.insert(x)]: the set is kept in ascending order without
    repetition, which is the order [cks.begin() .. cks.end()] visits. *)
Fixpoint set_insert (x : Z) (s : list Z) : list Z :=
  match s with
  | [] => [x]
  | y :: s' =>
      if x <? y then x :: s
      else if x =? y then s
      else y :: set_insert x s'
  end.

(** ** ThreadPool::ParallelFor *)

(** Modelled from the spec: [ThreadPool::ParallelFor] with
    [kFixedBlockSize] belongs to TensorFlow and is not part of the
    sources.  Sections 5 and 9 of the specification describe a
    parallel-for construct that hands disjoint chunks of the index space
    [0, total) to the callback, with the block size as a tuning hint and
    the size of the pool as an external concern.  [ParallelFor_chunks]
    runs [fn first last] on each chunk of a given list, [chunks_cover]
    says that the chunks are not empty and cover [first, total) in
    ascending order. *)
Definition ParallelFor_chunks {S} (chunks : list (Z * Z))
    (fn : Z → Z → S → option S) : S → option S :=
  for_each (λ chunk, fn chunk.1 chunk.2) chunks.

Fixpoint chunks_cover (first total : Z) (chunks : list (Z * Z)) : bool :=
  match chunks with
  | [] => first =? total
  | chunk :: rest =>
      (chunk.1 =? first) && (chunk.1 <? chunk.2)
      && chunks_cover chunk.2 total rest
  end.

(** Modelled from the spec: the dispatch by blocks, which is the one
    section 4.1 of the specification enumerates.  The index space
    [0, total) is cut into consecutive windows of [block_size] indices
    and [fn first last] runs once on each window; a block size that is
    not positive, or not smaller than [total], gives the single window
    [0, total).  [shards] lists the first index of each window.  This is
    what a pool of several threads does; a pool of one thread runs the
    whole range as the single chunk [(0, total)], whatever the block
    size is. *)
Definition num_shards (total block_size : Z) : Z :=
  if (block_size <=? 0) || (total <=? block_size) then 1
  else (total + block_size - 1) `quot` block_size.

Definition shards (total block_size : Z) : list Z :=
  (λ k, k * block_size) <$> seqZ 0 (num_shards total block_size).

Definition shard_limit (total block_size first : Z) : Z :=
  if (block_size <=? 0) || (total <=? block_size) then total
  else Z.min (first + block_size) total.

(** The windows are independent units of work that the pool may run in
    any order; [ParallelFor_in order] runs them in the given order and
    [ParallelFor] in ascending order. *)
Definition ParallelFor_in {S} (order : list Z) (total block_size : Z)
    (fn : Z → Z → S → option S) : S → option S :=
  for_each (λ first, fn first (shard_limit total block_size first)) order.

Definition ParallelFor {S} (total block_size : Z)
    (fn : Z → Z → S → option S) : S → option S :=
  ParallelFor_in (shards total block_size) total block_size fn.

(** ** apply_gate_kernels.cc *)

Section ApplyGate.
Context {T : Type} `{Amplitude T}.

(** Lines 23-29: the set of control weights and their sum. *)
Definition control_weights (nqubits : Z) (controls : list Z) : list Z * Z :=
  foldl (λ '(cks, cktot) c,
           let ck := pow2 (nqubits - c - 1) in
           (set_insert ck cks, cktot + ck))
        ([], 0) controls.

(** Lines 33-39: the flag [apply] after the loop over [cks]. *)
Fixpoint apply_flag (i : Z) (cks : list Z) : option bool :=
  match cks with
  | [] => Some true
  | q :: rest =>
      d ← idiv i q;
      if d `rem` 2 =? 0 then apply_flag i rest else Some false
  end.

(** Lines 41-47: the update of one amplitude pair. *)
Definition update_pair (gate : Gate T) (tk cktot i : Z) (state : list T)
  : option (list T) :=
  let i1 := i + cktot in
  let i2 := i1 + tk in
  buffer ← read state i1;
  s2 ← read state i2;
  state ← write state i1 (g0 gate * buffer + g1 gate * s2)%A;
  s2 ← read state i2;
  write state i2 (g2 gate * buffer + g3 gate * s2)%A.

(** Lines 32-48: the body of the loop of [DoWork]. *)
Definition DoWork_body (gate : Gate T) (tk : Z) (cks : list Z) (cktot : Z)
    (i : Z) (state : list T) : option (list T) :=
  apply ← apply_flag i cks;
  if apply : bool then update_pair gate tk cktot i state else Some state.

(** Lines 31-49: [DoWork(g, w)].  The limit [w] is not used: the loop
    covers the lower half [g, g + tk) of the window that starts at [g],
    so the kernel relies on [ParallelFor] handing it every window of
    [2 * tk] indices in a call of its own. *)
Definition DoWork (gate : Gate T) (tk : Z) (cks : list Z) (cktot : Z)
    (g w : Z) : list T → option (list T) :=
  for_each (DoWork_body gate tk cks cktot) (seqZ g tk).

(** Lines 17-56: [ApplyGateFunctor<CPUDevice, T>::operator()];
    [ncontrols] is the length of [controls]. *)
Definition ApplyGateFunctor (state : list T) (gate : Gate T)
    (nqubits target : Z) (controls : list Z) : option (list T) :=
  let nstates := pow2 nqubits in
  let tk := pow2 (nqubits - target - 1) in
  let '(cks, cktot) := control_weights nqubits controls in
  ParallelFor nstates (2 * tk) (DoWork gate tk cks cktot) state.

(** The same call with the windows dispatched in the order [order]. *)
Definition ApplyGateFunctor_in (order : list Z) (state : list T)
    (gate : Gate T) (nqubits target : Z) (controls : list Z)
  : option (list T) :=
  let nstates := pow2 nqubits in
  let tk := pow2 (nqubits - target - 1) in
  let '(cks, cktot) := control_weights nqubits controls in
  ParallelFor_in order nstates (2 * tk) (DoWork gate tk cks cktot) state.

(** The same call with [DoWork] run on the chunks [chunks]. *)
Definition ApplyGateFunctor_chunks (chunks : list (Z * Z)) (state : list T)
    (gate : Gate T) (nqubits target : Z) (controls : list Z)
  : option (list T) :=
  let tk := pow2 (nqubits - target - 1) in
  let '(cks, cktot) := control_weights nqubits controls in
  ParallelFor_chunks chunks (DoWork gate tk cks cktot) state.
End ApplyGate.

(** ** Gaussian integers: an amplitude type that computes *)

Module GaussZ.
Definition t : Type := Z * Z.
Definition add (x y : t) : t := (x.1 + y.1, x.2 + y.2).
Definition mul (x y : t) : t := (x.1 * y.1 - x.2 * y.2, x.1 * y.2 + x.2 * y.1).
Definition opp (x : t) : t := (- x.1, - x.2).
Definition conj (x : t) : t := (x.1, - x.2).

Lemma gauss_ring :
  ring_theory (0, 0) (1, 0) add mul (λ x y, add x (opp y)) opp eq.
Proof.
  constructor; repeat intros [? ?]; unfold add, mul, opp; simpl;
    try reflexivity; f_equal; ring.
Qed.

#[global] Instance amplitude : Amplitude t.
Proof.
  refine {| czero := (0, 0); cone := (1, 0); cadd := add; cmul := mul;
            copp := opp; cconj := conj; amp_ring := gauss_ring |};
    repeat intros [? ?]; unfold add, mul, conj; simpl; f_equal; ring.
Defined.
End GaussZ.

(** ** Exact complex numbers: pairs of reals *)

Module ComplexR.
Definition t : Type := R * R.
Definition add (x y : t) : t := (x.1 + y.1, x.2 + y.2)%R.
Definition mul (x y : t) : t :=
  (x.1 * y.1 - x.2 * y.2, x.1 * y.2 + x.2 * y.1)%R.
Definition opp (x : t) : t := (- x.1, - x.2)%R.
Definition conj (x : t) : t := (x.1, - x.2)%R.

Lemma complex_ring :
  ring_theory (0, 0)%R (1, 0)%R add mul (λ x y, add x (opp y)) opp eq.
Proof.
  constructor; repeat intros [? ?]; unfold add, mul, opp; simpl;
    try reflexivity; f_equal; ring.
Qed.

#[global] Instance amplitude : Amplitude t.
Proof.
  refine {| czero := (0, 0)%R; cone := (1, 0)%R; cadd := add; cmul := mul;
            copp := opp; cconj := conj; amp_ring := complex_ring |};
    repeat intros [? ?]; unfold add, mul, conj; simpl; f_equal; ring.
Defined.

(** The Hadamard gate. *)
Definition hadamard : Gate t :=
  mkGate (/ sqrt 2, 0)%R (/ sqrt 2, 0)%R (/ sqrt 2, 0)%R (- / sqrt 2, 0)%R.
End ComplexR.

(** The Pauli X gate [[0, 1], [1, 0]]. *)
Definition pauli_x : Gate GaussZ.t := mkGate (0, 0) (1, 0) (1, 0) (0, 0).

(** The Pauli Y gate [[0, -i], [i, 0]]. *)
Definition pauli_y : Gate GaussZ.t := mkGate (0, 0) (0, -1) (0, 1) (0, 0).

(** The Pauli Z gate [[1, 0], [0, -1]]. *)
Definition pauli_z : Gate GaussZ.t := mkGate (1, 0) (0, 0) (0, 0) (-1, 0).

(** The Gaussian integers 2 and i. *)
Definition gauss_2 : GaussZ.t := (2, 0).
Definition gauss_i : GaussZ.t := (0, 1).

(** The basis state |110> of three qubits. *)
Definition state_110 : list GaussZ.t :=
  [(0, 0); (0, 0); (0, 0); (0, 0); (0, 0); (0, 0); (1, 0); (0, 0)].

(** A state of three qubits with eight different amplitudes. *)
Definition state_ramp : list GaussZ.t :=
  [(1, 0); (2, 1); (3, 0); (4, -1); (5, 2); (6, 0); (7, 3); (8, 0)].

(** ** transpose_state.cc *)

Section TransposeState.
Context {A : Type}.

(** Lines 18-21: [std::vector<int64> qubit_exponents(nqubits)] and the
    loop that fills it. *)
Definition qubit_exponents (nqubits : Z) (qubit_order : list Z)
  : option (list Z) :=
  for_each (λ q exps,
              qo ← read qubit_order (nqubits - q - 1);
              e ← shl 1 (nqubits - qo - 1);
              write exps q e)
           (seqZ 0 nqubits) (replicate (Z.to_nat nqubits) 0).

(** Lines 25-28: the index [k] accumulated from the bits of [g]. *)
Definition source_index (nqubits : Z) (exps : list Z) (g : Z) : option Z :=
  for_each (λ q k,
              b ← shr g q;
              if b `rem` 2 =? 0 then Some k
              else e ← read exps q; Some (k + e))
           (seqZ 0 nqubits) 0.

(** Lines 13-31: [TransposeStateFunctor<CPUDevice, T>::operator()]. *)
Definition TransposeStateFunctor (state : list (list A))
    (transposed_state : list A) (nqubits ndevices : Z)
    (qubit_order : list Z) : option (list A) :=
  nstates ← shl 1 nqubits;
  npiece ← idiv nstates ndevices;
  exps ← qubit_exponents nqubits qubit_order;
  for_each (λ g transposed_state,
              k ← source_index nqubits exps g;
              d ← idiv k npiece;
              r ← imod k npiece;
              piece ← read state d;
              v ← read piece r;
              write transposed_state g v)
           (seqZ 0 nstates) transposed_state.

(** Line 45: the local index with a zero inserted at bit [m] of [g]. *)
Definition swap_index (m tk g : Z) : option Z :=
  h ← shr g m;
  hi ← shl h (m + 1);
  Some (hi + Z.land g (tk - 1)).

(** Line 46: [std::swap(piece0[i + tk], piece1[i])]. *)
Definition swap_cells (tk i : Z) (pieces : list A * list A)
  : option (list A * list A) :=
  let '(piece0, piece1) := pieces in
  a ← read piece0 (i + tk);
  b ← read piece1 i;
  piece0 ← write piece0 (i + tk) b;
  piece1 ← write piece1 i a;
  Some (piece0, piece1).

(** Lines 37-48: [SwapPiecesFunctor<CPUDevice, T>::operator()]. *)
Definition SwapPiecesFunctor (piece0 piece1 : list A)
    (new_global nqubits : Z) : option (list A * list A) :=
  let m := nqubits - new_global - 1 in
  tk ← shl 1 m;
  nstates ← shl 1 (nqubits - 1);
  for_each (λ g pieces, i ← swap_index m tk g; swap_cells tk i pieces)
           (seqZ 0 nstates) (piece0, piece1).

(** The index pairs [(i + tk, i)] that the loop of [SwapPiecesFunctor]
    passes to [std::swap], in the order of [g]. *)
Definition swap_accesses (new_global nqubits : Z) : option (list (Z * Z)) :=
  let m := nqubits - new_global - 1 in
  tk ← shl 1 m;
  nstates ← shl 1 (nqubits - 1);
  mapM (λ g, i ← swap_index m tk g; Some (i + tk, i)) (seqZ 0 nstates).
End TransposeState.

(** ** The operator wrappers *)

(** The template parameter [Device]. *)
Inductive Device := CPUDevice | GPUDevice.

Inductive Status := OK | Unimplemented (msg : string).

(** What [Compute] sees of an [OpKernelContext]: the input buffers, the
    outputs set so far and the status. *)
Record OpKernelContext (I O : Type) := mkContext {
  inputs : I;
  outputs : option O;
  status : Status;
}.
Arguments mkContext {I O} _ _ _.
Arguments inputs {I O} _.
Arguments outputs {I O} _.
Arguments status {I O} _.

(** [context->CtxFailure(err)]. *)
Definition CtxFailure {I O} (err : Status) (ctx : OpKernelContext I O)
  : OpKernelContext I O :=
  mkContext (inputs ctx) (outputs ctx) err.

(** [OP_REQUIRES(context, cond, err)]: when [cond] fails, record the error
    and return from [Compute]; [rest] is the remainder of [Compute]. *)
Definition OP_REQUIRES {I O} (ctx : OpKernelContext I O) (cond : bool)
    (err : Status) (rest : OpKernelContext I O → option (OpKernelContext I O))
  : option (OpKernelContext I O) :=
  if cond then rest ctx else Some (CtxFailure err ctx).

(** [std::is_same<Device, CPUDevice>::value]. *)
Definition is_same_CPUDevice (d : Device) : bool :=
  match d with CPUDevice => true | GPUDevice => false end.

Section Compute.
Context {T : Type} `{Amplitude T}.

(** Inputs of [ApplyGate]: state, gate, nqubits, target, controls.  The
    tensor [state] shares its buffer with input 0, which the functor
    updates in place. *)
Definition ApplyGateInputs : Type := list T * Gate T * Z * Z * list Z.

(** Lines 64-87 of apply_gate_kernels.cc. *)
Definition ApplyGateOp_Compute (device : Device)
    (context : OpKernelContext ApplyGateInputs (list T))
  : option (OpKernelContext ApplyGateInputs (list T)) :=
  let '(state, gate, nqubits, target, controls) := inputs context in
  OP_REQUIRES context (is_same_CPUDevice device)
    (Unimplemented "ApplyGate operator not implemented for GPU.")
    (λ context,
       state ← ApplyGateFunctor state gate nqubits target controls;
       Some (mkContext (state, gate, nqubits, target, controls)
                       (Some state) (status context))).

(** Inputs of [TransposeState]: the pieces and the destination buffer;
    the attributes [nqubits_], [ndevices_], [qubit_order_] are fields of
    the kernel object. *)
Definition TransposeStateInputs : Type := list (list T) * list T.

(** Lines 63-81 of transpose_state.cc. *)
Definition TransposeStateOp_Compute (device : Device)
    (nqubits_ ndevices_ : Z) (qubit_order_ : list Z)
    (context : OpKernelContext TransposeStateInputs (list T))
  : option (OpKernelContext TransposeStateInputs (list T)) :=
  let '(state, transposed_state) := inputs context in
  OP_REQUIRES context (is_same_CPUDevice device)
    (Unimplemented "TransposeStateOp operator not implemented for GPU.")
    (λ context,
       transposed_state ←
         TransposeStateFunctor state transposed_state nqubits_ ndevices_
                               qubit_order_;
       Some (mkContext (state, transposed_state) (Some transposed_state)
                       (status context))).

(** Inputs of [SwapPieces]: the two pieces; [nqubits_] and [target_] are
    attributes. *)
Definition SwapPiecesInputs : Type := list T * list T.

(** Lines 100-118 of transpose_state.cc. *)
Definition SwapPiecesOp_Compute (device : Device) (nqubits_ target_ : Z)
    (context : OpKernelContext SwapPiecesInputs (list T * list T))
  : option (OpKernelContext SwapPiecesInputs (list T * list T)) :=
  let '(piece0, piece1) := inputs context in
  OP_REQUIRES context (is_same_CPUDevice device)
    (Unimplemented "SwapPiecesOp operator not implemented for GPU.")
    (λ context,
       pieces ← SwapPiecesFunctor piece0 piece1 target_ nqubits_;
       Some (mkContext pieces (Some pieces) (status context))).
End Compute.

(** * The vocabulary of the specification *)

(** ** Qubits, control sets and preconditions *)

(** Bit of qubit [q] in the index [i]: qubits count from the most
    significant of the [nqubits] bits. *)
Definition qubit_bit (nqubits q i : Z) : bool := Z.testbit i (nqubits - q - 1).

(** All control bits of [i] are 1, respectively 0. *)
Definition controls_set (nqubits : Z) (controls : list Z) (i : Z) : bool :=
  forallb (λ c, qubit_bit nqubits c i) controls.
Definition controls_clear (nqubits : Z) (controls : list Z) (i : Z) : bool :=
  forallb (λ c, negb (qubit_bit nqubits c i)) controls.

(** Preconditions of section 4.1: the target is a qubit, the controls are
    qubits, distinct from each other and from the target. *)
Definition gate_call_ok (nqubits target : Z) (controls : list Z) : Prop :=
  0 ≤ target < nqubits ∧ Forall (λ c, 0 ≤ c < nqubits) controls
  ∧ NoDup controls ∧ target ∉ controls.

(** The sum of the weights 2^(nqubits - c - 1) of a list of qubits. *)
Definition weights_sum (nqubits : Z) (controls : list Z) : Z :=
  foldr (λ c acc, pow2 (nqubits - c - 1) + acc) 0 controls.

(** ** Amplitude pairs *)

(** A skeleton base: an index of the state whose target bit is 0.
    These are the indices that the windows' lower halves enumerate. *)
Definition is_base (nqubits target i : Z) : Prop :=
  0 ≤ i < pow2 nqubits ∧ qubit_bit nqubits target i = false.

(** The indices visited by the loops of the windows that start at the
    indices of [order]. *)
Definition all_bases (nqubits target : Z) (order : list Z) : list Z :=
  order ≫= (λ g, seqZ g (pow2 (nqubits - target - 1))).

(** [i1] and [i2] are indices of the state that differ in the bit of
    qubit [target] and in no other bit. *)
Definition differ_only_in (nqubits target i1 i2 : Z) : Prop :=
  0 ≤ i1 < pow2 nqubits ∧ 0 ≤ i2 < pow2 nqubits
  ∧ ∀ q, 0 ≤ q < nqubits →
         (qubit_bit nqubits q i1 = qubit_bit nqubits q i2 ↔ q ≠ target).

(** A pair as in section 4.1: the target bit of [i1] is 0. *)
Definition basis_pair (nqubits target i1 i2 : Z) : Prop :=
  differ_only_in nqubits target i1 i2 ∧ qubit_bit nqubits target i1 = false.

(** The two new amplitudes of a pair with old amplitudes [a], [b]. *)
Definition new1 `{Amplitude T} (gate : Gate T) (a b : T) : T :=
  (g0 gate * a + g1 gate * b)%A.
Definition new2 `{Amplitude T} (gate : Gate T) (a b : T) : T :=
  (g2 gate * a + g3 gate * b)%A.

(** The value the contract of section 4.1 gives to cell [j]. *)
Definition gate_spec `{Amplitude T} (gate : Gate T) (nqubits target : Z)
    (controls : list Z) (old : list T) (j : Z) : option T :=
  let tk := pow2 (nqubits - target - 1) in
  if controls_set nqubits controls j then
    if qubit_bit nqubits target j then
      a ← read old (j - tk); b ← read old j; Some (new2 gate a b)
    else
      a ← read old j; b ← read old (j + tk); Some (new1 gate a b)
  else read old j.

(** The index [j] with the bit of qubit [q] flipped: the other index of
    the pair of [j]. *)
Definition flip_qubit (nqubits q j : Z) : Z :=
  Z.lxor j (pow2 (nqubits - q - 1)).

(** The new amplitude of a cell from its own old amplitude and that of
    the other cell of its pair; [bit] is the target bit of the cell. *)
Definition mix `{Amplitude T} (gate : Gate T) (bit : bool) (own other : T)
  : T :=
  if bit then new2 gate other own else new1 gate own other.

(** ** Exchanged pieces *)

(** The index [g] with a zero bit inserted at position [m]. *)
Definition insert_zero_bit (m g : Z) : Z :=
  (g `div` pow2 m) * (2 * pow2 m) + g `mod` pow2 m.

(** The cells of the two pieces after the exchange. *)
Definition swap_spec0 {A} (nqubits new_global : Z) (piece0 piece1 : list A)
    (j : Z) : option A :=
  if qubit_bit nqubits new_global j
  then read piece1 (j - pow2 (nqubits - new_global - 1))
  else read piece0 j.
Definition swap_spec1 {A} (nqubits new_global : Z) (piece0 piece1 : list A)
    (j : Z) : option A :=
  if qubit_bit nqubits new_global j
  then read piece1 j
  else read piece0 (j + pow2 (nqubits - new_global - 1)).

(** The index [G] with its bits [a] and [b] exchanged: when the two bits
    differ, both are flipped. *)
Definition exchange_bits (a b G : Z) : Z :=
  if xorb (Z.testbit G a) (Z.testbit G b)
  then Z.lxor G (Z.lor (pow2 a) (pow2 b)) else G.

(** ** Transposed indices *)

(** The index, in the original ordering, of the amplitude that the new
    ordering puts at [g]: the sum of the weights
    2^(nqubits - qubit_order[nqubits-q-1] - 1) over the bits [q] set in
    [g]. *)
Definition qubit_exponent (nqubits : Z) (qubit_order : list Z) (q : Z) : Z :=
  pow2 (nqubits - qubit_order !!! Z.to_nat (nqubits - q - 1) - 1).

Definition source_of (nqubits : Z) (qubit_order : list Z) (g : Z) : Z :=
  foldr (λ q acc,
           (if Z.testbit g q then qubit_exponent nqubits qubit_order q else 0)
           + acc)
        0 (seqZ 0 nqubits).

(** [state[k / npiece][k % npiece]]: cell [k] of the sharded state. *)
Definition piece_cell {A} (state : list (list A)) (npiece k : Z) : option A :=
  piece ← read state (k `quot` npiece); read piece (k `rem` npiece).

(** The qubits of the original ordering whose weight enters the sum. *)
Definition selected (nqubits : Z) (qubit_order : list Z) (g : Z) : list Z :=
  (λ q, qubit_order !!! Z.to_nat (nqubits - q - 1))
    <$> filter (λ q, Z.testbit g q = true) (seqZ 0 nqubits).

(** * Properties *)

(** ** The scenarios of section 8 of the specification *)

Example pauli_x_scenario :
  ApplyGateFunctor ([(1, 0); (0, 0); (0, 0); (0, 0)] : list GaussZ.t)
                   pauli_x 2 1 []
  = Some [(0, 0); (1, 0); (0, 0); (0, 0)].
Proof. vm_compute. reflexivity. Qed.

Example controlled_x_scenario :
  ApplyGateFunctor state_110 pauli_x 3 2 [0]
  = Some [(0, 0); (0, 0); (0, 0); (0, 0); (0, 0); (0, 0); (0, 0); (1, 0)].
Proof. vm_compute. reflexivity. Qed.

Example transpose_identity_scenario :
  TransposeStateFunctor [[10; 11]; [12; 13]] [0; 0; 0; 0] 2 2 [0; 1]
  = Some [10; 11; 12; 13].
Proof. vm_compute. reflexivity. Qed.

Example transpose_reverse_scenario :
  TransposeStateFunctor [[10; 11]; [12; 13]] [0; 0; 0; 0] 2 2 [1; 0]
  = Some [10; 12; 11; 13].
Proof. vm_compute. reflexivity. Qed.

Example swap_scenario :
  SwapPiecesFunctor [10; 11; 12; 13] [20; 21; 22; 23] 0 2
  = Some ([10; 11; 20; 21], [12; 13; 22; 23]).
Proof. vm_compute. reflexivity. Qed.

(** ** Buffers *)

Section Buffers.
Context {A : Type}.
Implicit Types (buf : list A) (i j : Z) (v : A).

Lemma read_Some buf i v :
  read buf i = Some v ↔ 0 ≤ i ∧ buf !! Z.to_nat i = Some v.
Proof.
  unfold read. destruct (Z.leb_spec 0 i).
  - split; [auto | by intros [_ ?]].
  - split; [discriminate | lia].
Qed.

Lemma read_in_bounds buf i :
  0 ≤ i < Z.of_nat (length buf) → is_Some (read buf i).
Proof.
  intros Hi. unfold read. destruct (Z.leb_spec 0 i); [ | lia].
  apply lookup_lt_is_Some. lia.
Qed.

Lemma read_is_Some buf i :
  is_Some (read buf i) → 0 ≤ i < Z.of_nat (length buf).
Proof.
  intros [v [Hi Hv]%read_Some]. apply lookup_lt_Some in Hv. lia.
Qed.

Lemma write_in_bounds buf i v :
  0 ≤ i < Z.of_nat (length buf) →
  write buf i v = Some (<[Z.to_nat i := v]> buf).
Proof.
  intros Hi. unfold write.
  destruct (Z.leb_spec 0 i), (Z.ltb_spec i (Z.of_nat (length buf)));
    simpl; done || lia.
Qed.

Lemma read_insert_eq buf i v :
  0 ≤ i < Z.of_nat (length buf) →
  read (<[Z.to_nat i := v]> buf) i = Some v.
Proof.
  intros Hi. apply read_Some. split; [lia | ].
  apply list_lookup_insert_eq. lia.
Qed.

Lemma read_insert_ne buf i j v :
  0 ≤ i → i ≠ j → read (<[Z.to_nat i := v]> buf) j = read buf j.
Proof.
  intros Hi Hij. unfold read. destruct (Z.leb_spec 0 j); [ | done].
  apply list_lookup_insert_ne. lia.
Qed.

(** Two buffers with the same length and the same cells are equal. *)
Lemma buffer_ext buf1 buf2 :
  length buf1 = length buf2 →
  (∀ i, 0 ≤ i < Z.of_nat (length buf1) → read buf1 i = read buf2 i) →
  buf1 = buf2.
Proof.
  intros Hlen Hread. apply list_eq. intros k.
  destruct (decide (k < length buf1)%nat) as [Hk | Hk].
  - specialize (Hread (Z.of_nat k)). unfold read in Hread.
    destruct (Z.leb_spec 0 (Z.of_nat k)); [ | lia].
    rewrite Nat2Z.id in Hread. apply Hread. lia.
  - rewrite !lookup_ge_None_2; [done | lia | lia].
Qed.
End Buffers.

(** ** Loops *)

Section Loops.
Context {S I : Type}.
Implicit Types (body : I → S → option S) (s : S).

Lemma for_each_app body (l1 l2 : list I) s :
  for_each body (l1 ++ l2) s = for_each body l1 s ≫= for_each body l2.
Proof.
  revert s. induction l1 as [ | i l1 IH]; intros s; simpl; [done | ].
  destruct (body i s); simpl; auto.
Qed.

(** A loop nest is the loop over the concatenated index ranges. *)
Lemma for_each_nested {J} body (inner : J → list I) (outer : list J) s :
  for_each (λ g, for_each body (inner g)) outer s
  = for_each body (outer ≫= inner) s.
Proof.
  revert s. induction outer as [ | g outer IH]; intros s; simpl; [done | ].
  rewrite for_each_app. destruct (for_each body (inner g) s); simpl; auto.
Qed.

End Loops.

(** The dispatch by blocks is the dispatch of the chunks
    [first, shard_limit first) of its windows. *)
Lemma ParallelFor_in_chunks {S} order total block_size
    (fn : Z → Z → S → option S) s :
  ParallelFor_in order total block_size fn s
  = ParallelFor_chunks
      ((λ first, (first, shard_limit total block_size first)) <$> order)
      fn s.
Proof.
  unfold ParallelFor_in, ParallelFor_chunks. revert s.
  induction order as [ | first order IH]; intros s; simpl; [done | ].
  destruct (fn first _ s); simpl; auto.
Qed.

(** ** Powers of two and bits *)

Lemma pow2_pos e : 0 ≤ e → 0 < pow2 e.
Proof. intros. unfold pow2. lia. Qed.

Lemma idiv_nonzero a b : b ≠ 0 → idiv a b = Some (a `quot` b).
Proof. intros Hb. unfold idiv. by destruct (Z.eqb_spec b 0). Qed.

Lemma imod_nonzero a b : b ≠ 0 → imod a b = Some (a `rem` b).
Proof. intros Hb. unfold imod. by destruct (Z.eqb_spec b 0). Qed.

Lemma shl_1 e : 0 ≤ e → shl 1 e = Some (pow2 e).
Proof.
  intros He. unfold shl, pow2. destruct (Z.leb_spec 0 e); [ | lia].
  by rewrite Z.shiftl_1_l.
Qed.

(** The bits of a sum of two numbers without a common bit. *)
Lemma testbit_add_disjoint a b p :
  (∀ q, 0 ≤ q → Z.testbit a q = true → Z.testbit b q = false) →
  Z.testbit (a + b) p = Z.testbit a p || Z.testbit b p.
Proof.
  intros Hdisj. rewrite Z.add_nocarry_lor; [apply Z.lor_spec | ].
  apply Z.bits_inj'. intros q Hq. rewrite Z.land_spec, Z.bits_0.
  specialize (Hdisj q Hq). destruct (Z.testbit a q); simpl; auto.
Qed.

(** [(i / 2^p) % 2] reads bit [p] of a non-negative [i]. *)
Lemma quot_rem_testbit i p :
  0 ≤ i → 0 ≤ p →
  ((i `quot` pow2 p) `rem` 2 =? 0) = negb (Z.testbit i p).
Proof.
  intros Hi Hp. unfold pow2.
  rewrite Z.quot_div_nonneg by lia.
  rewrite Z.rem_mod_nonneg by (try apply Z.div_pos; lia).
  rewrite <- Z.testbit_spec' by done.
  by destruct (Z.testbit i p).
Qed.

Lemma shiftr_rem_testbit i p :
  0 ≤ i → 0 ≤ p → ((i ≫ p) `rem` 2 =? 0) = negb (Z.testbit i p).
Proof.
  intros Hi Hp. rewrite Z.shiftr_div_pow2 by done.
  rewrite <- (quot_rem_testbit i p) by done. unfold pow2.
  by rewrite Z.quot_div_nonneg by lia.
Qed.

Lemma testbit_pow2 e p : 0 ≤ e → Z.testbit (pow2 e) p = bool_decide (e = p).
Proof.
  intros He. unfold pow2. rewrite Z.pow2_bits_eqb by done.
  case_bool_decide; lia.
Qed.

Lemma bits_bounded n x :
  0 ≤ n → 0 ≤ x → (∀ p, n ≤ p → Z.testbit x p = false) →
  x < pow2 n.
Proof. intros Hn Hx Hbits. by apply Z.bounded_iff_bits_nonneg. Qed.

Lemma bounded_bits n x p :
  0 ≤ x < pow2 n → n ≤ p → Z.testbit x p = false.
Proof.
  intros [Hx Hlt] Hp. destruct (decide (0 ≤ n)) as [Hn | Hn].
  - revert p Hp. by apply Z.bounded_iff_bits_nonneg.
  - unfold pow2 in Hlt. rewrite Z.pow_neg_r in Hlt by lia. lia.
Qed.

(** ** The set of control weights *)

Lemma elem_of_set_insert x y s : y ∈ set_insert x s ↔ y = x ∨ y ∈ s.
Proof.
  induction s as [ | z s IH]; simpl.
  - rewrite list_elem_of_singleton, elem_of_nil. tauto.
  - destruct (Z.ltb_spec x z); [by rewrite elem_of_cons | ].
    destruct (Z.eqb_spec x z) as [-> | Hne].
    + rewrite elem_of_cons. tauto.
    + rewrite !elem_of_cons, IH. tauto.
Qed.

Lemma set_insert_sorted x s :
  StronglySorted Z.lt s → StronglySorted Z.lt (set_insert x s).
Proof.
  induction 1 as [ | z s Hs IH Hz]; simpl.
  - repeat constructor.
  - destruct (Z.ltb_spec x z).
    + constructor; [by constructor | ].
      constructor; [done | ]. apply list.Forall_forall. intros y Hy.
      eapply list.Forall_forall in Hz; [ | exact Hy]. lia.
    + destruct (Z.eqb_spec x z); [by constructor | ].
      constructor; [done | ]. apply list.Forall_forall.
      intros y [-> | Hy]%elem_of_set_insert; [lia | ].
      by eapply list.Forall_forall in Hz.
Qed.

(** A [std::set] is determined by its elements. *)
Lemma sorted_set_ext (s1 s2 : list Z) :
  StronglySorted Z.lt s1 → StronglySorted Z.lt s2 →
  (∀ x, x ∈ s1 ↔ x ∈ s2) → s1 = s2.
Proof.
  intros Hs1 Hs2 Hel.
  assert (Hnodup : ∀ s, StronglySorted Z.lt s → NoDup s).
  { induction 1 as [ | z s Hs IH Hz]; constructor; [ | done].
    intros Hin. eapply list.Forall_forall in Hz; [ | exact Hin]. lia. }
  apply (Sorted_unique_strong Z.lt).
  - intros x1 x2 _ _ ? ?. lia.
  - by apply StronglySorted_Sorted.
  - by apply StronglySorted_Sorted.
  - apply NoDup_Permutation; auto.
Qed.

Section ControlWeights.
Variable nqubits : Z.
Implicit Types (controls cks : list Z) (c i p : Z).

Let ck c := pow2 (nqubits - c - 1).

Lemma control_weights_acc controls cks cktot :
  foldl (λ '(cks, cktot) c, (set_insert (ck c) cks, cktot + ck c))
        (cks, cktot) controls
  = (foldl (λ cks c, set_insert (ck c) cks) cks controls,
     cktot + weights_sum nqubits controls).
Proof.
  revert cks cktot. induction controls as [ | c controls IH];
    intros cks cktot; simpl.
  - f_equal. lia.
  - rewrite IH. f_equal. fold (ck c). lia.
Qed.

Lemma control_weights_eq controls :
  control_weights nqubits controls
  = (foldl (λ cks c, set_insert (ck c) cks) [] controls,
     weights_sum nqubits controls).
Proof. unfold control_weights. by rewrite control_weights_acc. Qed.

Lemma elem_of_cks_acc controls cks q :
  q ∈ foldl (λ cks c, set_insert (ck c) cks) cks controls
  ↔ q ∈ cks ∨ ∃ c, c ∈ controls ∧ q = ck c.
Proof.
  revert cks. induction controls as [ | c controls IH]; intros cks; simpl.
  - split; [auto | ]. intros [? | (c & Hc & _)]; [done | ].
    by apply elem_of_nil in Hc.
  - rewrite IH, elem_of_set_insert. split.
    + intros [[-> | ?] | (c' & ? & ?)]; [ | by left | ].
      * right. exists c. split; [left | done].
      * right. exists c'. split; [by right | done].
    + intros [? | (c' & [-> | ?]%elem_of_cons & ->)]; eauto.
Qed.

Lemma elem_of_cks controls q :
  q ∈ (control_weights nqubits controls).1
  ↔ ∃ c, c ∈ controls ∧ q = ck c.
Proof.
  rewrite control_weights_eq. simpl. rewrite elem_of_cks_acc.
  split; [ | auto]. intros [Hq | ?]; [ | done]. by apply elem_of_nil in Hq.
Qed.

Lemma cks_sorted_acc controls cks :
  StronglySorted Z.lt cks →
  StronglySorted Z.lt (foldl (λ cks c, set_insert (ck c) cks) cks controls).
Proof.
  revert cks. induction controls as [ | c controls IH]; intros cks Hs;
    simpl; [done | ].
  apply IH. by apply set_insert_sorted.
Qed.

Lemma cks_sorted controls :
  StronglySorted Z.lt (control_weights nqubits controls).1.
Proof. rewrite control_weights_eq. apply cks_sorted_acc. constructor. Qed.

Lemma weights_sum_perm controls controls' :
  controls ≡ₚ controls' →
  weights_sum nqubits controls = weights_sum nqubits controls'.
Proof.
  induction 1 as [ | c l l' _ IH | c c' l | l l' l'' _ IH1 _ IH2];
    simpl; lia.
Qed.

Lemma weights_sum_nonneg controls : 0 ≤ weights_sum nqubits controls.
Proof.
  induction controls as [ | c controls IH]; simpl; [done | ].
  unfold pow2. assert (0 ≤ 2 ^ (nqubits - c - 1)) by lia. lia.
Qed.

(** Bit [p] of the sum of the weights belongs to the qubit
    [nqubits - p - 1]: it is set exactly when that qubit is a control. *)
Lemma weights_sum_bits controls p :
  NoDup controls → Forall (λ c, c < nqubits) controls →
  Z.testbit (weights_sum nqubits controls) p
  = bool_decide (nqubits - p - 1 ∈ controls).
Proof.
  intros Hnd. revert p.
  induction Hnd as [ | c controls Hc Hnd IH]; intros p Hlt; simpl.
  - by rewrite Z.bits_0.
  - apply Forall_cons in Hlt as [Hclt Hlt].
    assert (Hck : ∀ q, Z.testbit (pow2 (nqubits - c - 1)) q
                       = bool_decide (nqubits - q - 1 = c)).
    { intros q. rewrite testbit_pow2 by lia.
      apply bool_decide_ext. lia. }
    rewrite testbit_add_disjoint.
    + rewrite Hck, IH by done.
      rewrite <- bool_decide_or. apply bool_decide_ext.
      rewrite elem_of_cons. tauto.
    + intros q _. rewrite Hck. intros <-%bool_decide_eq_true.
      rewrite IH by done. by apply bool_decide_eq_false.
Qed.
End ControlWeights.

Lemma forallb_elem_of {A} (f : A → bool) (l : list A) :
  forallb f l = true ↔ ∀ x, x ∈ l → f x = true.
Proof.
  rewrite forallb_forall. split; intros Hf x Hx; apply Hf;
    by apply list_elem_of_In.
Qed.

Lemma controls_set_true nqubits controls i :
  controls_set nqubits controls i = true
  ↔ ∀ c, c ∈ controls → Z.testbit i (nqubits - c - 1) = true.
Proof. unfold controls_set. by rewrite forallb_elem_of. Qed.

Lemma controls_clear_true nqubits controls i :
  controls_clear nqubits controls i = true
  ↔ ∀ c, c ∈ controls → Z.testbit i (nqubits - c - 1) = false.
Proof.
  unfold controls_clear. rewrite forallb_elem_of. unfold qubit_bit.
  split; intros Hc c Hin; specialize (Hc c Hin);
    by destruct (Z.testbit i (nqubits - c - 1)).
Qed.

(** The bits of a difference when the bits of [b] are among those of [a]. *)
Lemma testbit_sub_subset a b p :
  (∀ q, 0 ≤ q → Z.testbit b q = true → Z.testbit a q = true) →
  Z.testbit (a - b) p = Z.testbit a p && negb (Z.testbit b p).
Proof.
  intros Hsub. rewrite <- Z.ldiff_spec. f_equal.
  enough (Z.ldiff a b + b = a) by lia.
  apply Z.bits_inj'. intros q Hq. rewrite testbit_add_disjoint.
  - rewrite Z.ldiff_spec. specialize (Hsub q Hq).
    destruct (Z.testbit a q), (Z.testbit b q); simpl; auto.
    by discriminate Hsub.
  - intros r _. rewrite Z.ldiff_spec.
    by destruct (Z.testbit a r), (Z.testbit b r).
Qed.

(** ** The amplitude pairs of one gate application *)

Section GateIndices.
Variables (nqubits target : Z) (controls : list Z).
Hypothesis Hok : gate_call_ok nqubits target controls.

Let tb := nqubits - target - 1.
Let tk := pow2 tb.
Let cktot := weights_sum nqubits controls.
Let cks := (control_weights nqubits controls).1.

Local Lemma tb_range : 0 ≤ tb < nqubits.
Proof. destruct Hok as [? _]. unfold tb. lia. Qed.

Local Lemma tk_pos : 0 < tk.
Proof. apply pow2_pos, tb_range. Qed.

Local Lemma controls_lt : Forall (λ c, c < nqubits) controls.
Proof.
  destruct Hok as (_ & Hr & _). eapply list.Forall_impl; [exact Hr | ].
  simpl. lia.
Qed.

Local Lemma cktot_bits p :
  Z.testbit cktot p = bool_decide (nqubits - p - 1 ∈ controls).
Proof.
  destruct Hok as (_ & _ & Hnd & _).
  apply weights_sum_bits; [done | apply controls_lt].
Qed.

Local Lemma tk_bits p : Z.testbit tk p = bool_decide (tb = p).
Proof. apply testbit_pow2, tb_range. Qed.

(** The loop over [cks] computes "all control bits of [i] are clear". *)
Lemma apply_flag_spec i :
  0 ≤ i → apply_flag i cks = Some (controls_clear nqubits controls i).
Proof.
  intros Hi.
  assert (Hflag : ∀ l, (∀ q, q ∈ l → ∃ c, c ∈ controls
                                      ∧ q = pow2 (nqubits - c - 1)) →
            apply_flag i l
            = Some (forallb (λ q, (i `quot` q) `rem` 2 =? 0) l)).
  { induction l as [ | q l IH]; intros Hl; simpl; [done | ].
    destruct (Hl q) as (c & Hc & ->); [left | ].
    destruct Hok as (_ & Hr & _).
    eapply list.Forall_forall in Hr; [ | exact Hc].
    unfold idiv. pose proof (pow2_pos (nqubits - c - 1)).
    destruct (Z.eqb_spec (pow2 (nqubits - c - 1)) 0); [lia | ]. simpl.
    destruct (_ =? 0); simpl; [ | done].
    apply IH. intros. apply Hl. by right. }
  rewrite Hflag by (intros q Hq; by apply elem_of_cks).
  f_equal. apply eq_true_iff_eq.
  rewrite forallb_elem_of, controls_clear_true. split.
  - intros Hq c Hc.
    destruct Hok as (_ & Hr & _).
    eapply list.Forall_forall in Hr; [ | exact Hc].
    specialize (Hq (pow2 (nqubits - c - 1))).
    rewrite quot_rem_testbit in Hq by lia.
    apply negb_true_iff, Hq, elem_of_cks. eauto.
  - intros Hc q (c & Hin & ->)%elem_of_cks.
    destruct Hok as (_ & Hr & _).
    eapply list.Forall_forall in Hr; [ | exact Hin].
    rewrite quot_rem_testbit by lia. apply negb_true_iff. auto.
Qed.

Section Pair.
Variable i : Z.
Hypothesis Hbase : is_base nqubits target i.
Hypothesis Hclear : controls_clear nqubits controls i = true.

Lemma i1_bits p :
  Z.testbit (i + cktot) p
  = Z.testbit i p || bool_decide (nqubits - p - 1 ∈ controls).
Proof.
  rewrite testbit_add_disjoint; [by rewrite cktot_bits | ].
  intros q _ Hq. rewrite cktot_bits. apply bool_decide_eq_false.
  intros Hin. rewrite controls_clear_true in Hclear.
  apply Hclear in Hin. replace (nqubits - (nqubits - q - 1) - 1)
    with q in Hin by lia. congruence.
Qed.

Lemma i1_target_bit : Z.testbit (i + cktot) tb = false.
Proof.
  rewrite i1_bits. destruct Hbase as [_ Htb]. unfold qubit_bit in Htb.
  fold tb in Htb. rewrite Htb. simpl. apply bool_decide_eq_false.
  destruct Hok as (_ & _ & _ & Hnot).
  by replace (nqubits - tb - 1) with target by (unfold tb; lia).
Qed.

Lemma i2_bits p :
  Z.testbit (i + cktot + tk) p
  = Z.testbit i p || bool_decide (nqubits - p - 1 ∈ controls)
    || bool_decide (tb = p).
Proof.
  rewrite testbit_add_disjoint; [by rewrite i1_bits, tk_bits | ].
  intros q _ Hq. rewrite tk_bits. apply bool_decide_eq_false.
  intros <-. rewrite i1_target_bit in Hq. discriminate.
Qed.

(** Both indices of the pair lie in the state, in this order. *)
Lemma pair_in_bounds :
  0 ≤ i + cktot ∧ i + cktot < i + cktot + tk
  ∧ i + cktot + tk < pow2 nqubits.
Proof.
  pose proof tk_pos. pose proof tb_range.
  pose proof (weights_sum_nonneg nqubits controls) as Hcknn.
  fold cktot in Hcknn.
  destruct Hbase as [Hi _].
  split; [lia | ]. split; [lia | ].
  apply bits_bounded; [lia | lia | ]. intros p Hp.
  rewrite i2_bits, (bounded_bits nqubits i p) by done. simpl.
  apply orb_false_intro; apply bool_decide_eq_false; [ | lia].
  intros Hin. destruct Hok as (_ & Hr & _).
  eapply list.Forall_forall in Hr; [ | exact Hin]. simpl in Hr. lia.
Qed.

Lemma i1_controls_set : controls_set nqubits controls (i + cktot) = true.
Proof.
  apply controls_set_true. intros c Hc. rewrite i1_bits.
  apply orb_true_intro. right. apply bool_decide_eq_true.
  by replace (nqubits - (nqubits - c - 1) - 1) with c by lia.
Qed.

Lemma i2_controls_set :
  controls_set nqubits controls (i + cktot + tk) = true.
Proof.
  apply controls_set_true. intros c Hc. rewrite i2_bits.
  apply orb_true_intro. left. apply orb_true_intro. right.
  apply bool_decide_eq_true.
  by replace (nqubits - (nqubits - c - 1) - 1) with c by lia.
Qed.

Lemma i2_target_bit : Z.testbit (i + cktot + tk) tb = true.
Proof.
  rewrite i2_bits. apply orb_true_intro. right.
  by apply bool_decide_eq_true.
Qed.
End Pair.

(** The pairs of two different bases have no index in common. *)
Lemma pairs_disjoint i i' :
  is_base nqubits target i → controls_clear nqubits controls i = true →
  is_base nqubits target i' → controls_clear nqubits controls i' = true →
  i ≠ i' →
  i + cktot ≠ i' + cktot ∧ i + cktot ≠ i' + cktot + tk
  ∧ i + cktot + tk ≠ i' + cktot ∧ i + cktot + tk ≠ i' + cktot + tk.
Proof.
  intros Hb Hc Hb' Hc' Hne.
  pose proof (i1_target_bit i Hb Hc) as H1.
  pose proof (i2_target_bit i Hb Hc) as H2.
  pose proof (i1_target_bit i' Hb' Hc') as H1'.
  pose proof (i2_target_bit i' Hb' Hc') as H2'.
  repeat split; try lia; intros Heq.
  - rewrite Heq in H1. congruence.
  - rewrite Heq in H2. congruence.
Qed.

(** Every index whose control bits are all 1 belongs to the pair of
    exactly one base. *)
Lemma pair_of_index j :
  0 ≤ j < pow2 nqubits → controls_set nqubits controls j = true →
  ∃ i, is_base nqubits target i ∧ controls_clear nqubits controls i = true
       ∧ (if qubit_bit nqubits target j then j = i + cktot + tk
          else j = i + cktot).
Proof.
  intros Hj Hset. rewrite controls_set_true in Hset.
  pose proof tk_pos. pose proof tb_range.
  pose proof (weights_sum_nonneg nqubits controls) as Hcknn.
    fold cktot in Hcknn.
  set (t := if qubit_bit nqubits target j then tk else 0).
  assert (Ht : ∀ p, Z.testbit t p
                    = Z.testbit j tb && bool_decide (tb = p)).
  { intros p. unfold t, qubit_bit. fold tb.
    destruct (Z.testbit j tb); simpl; [apply tk_bits | apply Z.bits_0]. }
  assert (Hsub : ∀ q, 0 ≤ q → Z.testbit (cktot + t) q = true →
                      Z.testbit j q = true).
  { intros q _. rewrite testbit_add_disjoint.
    - rewrite cktot_bits, Ht.
      intros [Hin%bool_decide_eq_true
             | [? <-%bool_decide_eq_true]%andb_true_iff]%orb_true_iff;
        [ | done].
      apply Hset in Hin. by replace (nqubits - (nqubits - q - 1) - 1)
        with q in Hin by lia.
    - intros r _. rewrite cktot_bits, Ht.
      intros Hin%bool_decide_eq_true. apply andb_false_intro2.
      apply bool_decide_eq_false. intros <-.
      destruct Hok as (_ & _ & _ & Hnot). apply Hnot.
      by replace target with (nqubits - tb - 1) by (unfold tb; lia). }
  assert (Hbits : ∀ p, Z.testbit (j - (cktot + t)) p
                       = Z.testbit j p
                         && negb (bool_decide (nqubits - p - 1 ∈ controls))
                         && negb (Z.testbit j tb && bool_decide (tb = p))).
  { intros p. rewrite testbit_sub_subset by done.
    rewrite testbit_add_disjoint.
    - rewrite cktot_bits, Ht. by rewrite negb_orb, andb_assoc.
    - intros r _. rewrite cktot_bits, Ht.
      intros Hin%bool_decide_eq_true. apply andb_false_intro2.
      apply bool_decide_eq_false. intros <-.
      destruct Hok as (_ & _ & _ & Hnot). apply Hnot.
      by replace target with (nqubits - tb - 1) by (unfold tb; lia). }
  assert (0 ≤ t) by (unfold t; destruct (qubit_bit _ _ _); lia).
  exists (j - (cktot + t)). split; [split | split].
  - split; [ | lia].
    replace (j - (cktot + t)) with (Z.ldiff j (cktot + t)).
    + apply Z.ldiff_nonneg. left. lia.
    + apply Z.bits_inj'. intros p _.
      rewrite testbit_sub_subset by done. by rewrite Z.ldiff_spec.
  - unfold qubit_bit. fold tb. rewrite Hbits.
    rewrite (bool_decide_eq_true_2 (tb = tb)) by done.
    destruct (Z.testbit j tb); simpl; [ | done].
    by rewrite andb_false_r.
  - apply controls_clear_true. intros c Hc. rewrite Hbits.
    apply andb_false_intro1, andb_false_intro2.
    apply negb_false_iff, bool_decide_eq_true.
    by replace (nqubits - (nqubits - c - 1) - 1) with c by lia.
  - unfold t. destruct (qubit_bit nqubits target j); lia.
Qed.
End GateIndices.

(** ** The windows of [ParallelFor] and the bases they enumerate *)

Section Windows.
Variables (nqubits target : Z).
Hypothesis Htarget : 0 ≤ target < nqubits.

Let tb := nqubits - target - 1.
Let tk := pow2 tb.

Local Lemma nstates_split : pow2 nqubits = pow2 target * (2 * tk).
Proof.
  unfold tk, tb, pow2.
  replace nqubits with (target + (1 + (nqubits - target - 1))) at 1 by lia.
  rewrite !Z.pow_add_r by lia. lia.
Qed.

Lemma num_shards_eq : num_shards (pow2 nqubits) (2 * tk) = pow2 target.
Proof.
  assert (0 < tk) by (apply pow2_pos; unfold tb; lia).
  assert (0 < pow2 target) by (apply pow2_pos; lia).
  unfold num_shards. rewrite nstates_split.
  destruct (Z.leb_spec (2 * tk) 0); [lia | ]. simpl.
  destruct (Z.leb_spec (pow2 target * (2 * tk)) (2 * tk)); [nia | ].
  rewrite Z.quot_div_nonneg by lia.
  symmetry. apply Z.div_unique with (r := 2 * tk - 1); lia.
Qed.

Lemma elem_of_shards g :
  g ∈ shards (pow2 nqubits) (2 * tk)
  ↔ ∃ k, 0 ≤ k < pow2 target ∧ g = k * (2 * tk).
Proof.
  unfold shards. rewrite num_shards_eq, list_elem_of_fmap.
  setoid_rewrite elem_of_seqZ. split; intros (k & ? & ?); exists k;
    split; auto; lia.
Qed.

Lemma NoDup_shards : NoDup (shards (pow2 nqubits) (2 * tk)).
Proof.
  assert (0 < tk) by (apply pow2_pos; unfold tb; lia).
  unfold shards. apply NoDup_fmap_2; [ | apply NoDup_seqZ].
  intros k1 k2 Hk. nia.
Qed.

Lemma elem_of_all_bases order i :
  order ≡ₚ shards (pow2 nqubits) (2 * tk) →
  i ∈ all_bases nqubits target order ↔ is_base nqubits target i.
Proof.
  intros Hperm.
  assert (Htk : 0 < tk) by (apply pow2_pos; unfold tb; lia).
  unfold all_bases, is_base, qubit_bit. fold tb tk.
  rewrite list_elem_of_bind. setoid_rewrite Hperm.
  setoid_rewrite elem_of_shards. setoid_rewrite elem_of_seqZ.
  rewrite Z.testbit_false by (unfold tb; lia). fold (pow2 tb). fold tk.
  rewrite nstates_split. split.
  - intros (g & Hi & k & Hk & ->). split; [nia | ].
    replace (i `div` tk) with (2 * k); [by rewrite Z.mul_comm, Z.mod_mul | ].
    apply Z.div_unique with (r := i - k * (2 * tk)); lia.
  - intros [Hi Hbit].
    pose proof (Z.div_mod i tk ltac:(lia)) as Hdiv.
    pose proof (Z.mod_pos_bound i tk Htk) as Hr.
    pose proof (Z.div_mod (i `div` tk) 2 ltac:(lia)) as Hdiv2.
    rewrite Hbit in Hdiv2.
    exists (((i `div` tk) `div` 2) * (2 * tk)). split; [lia | ].
    exists ((i `div` tk) `div` 2). split; [nia | done].
Qed.

Lemma NoDup_all_bases order :
  order ≡ₚ shards (pow2 nqubits) (2 * tk) →
  NoDup (all_bases nqubits target order).
Proof.
  intros Hperm.
  assert (Htk : 0 < tk) by (apply pow2_pos; unfold tb; lia).
  unfold all_bases. fold tb tk. apply NoDup_bind.
  - intros g1 g2 i. rewrite !Hperm, !elem_of_shards, !elem_of_seqZ.
    intros (k1 & _ & ->) (k2 & _ & ->) ? ?. f_equal. nia.
  - intros. apply NoDup_seqZ.
  - rewrite Hperm. apply NoDup_shards.
Qed.
End Windows.

(** ** One pair update *)

Section PairUpdate.
Context {T : Type} `{Amplitude T}.
Variables (gate : Gate T) (tk cktot : Z).

Lemma update_pair_eq i state a b :
  let i1 := i + cktot in
  let i2 := i1 + tk in
  0 ≤ i1 → i1 < i2 → i2 < Z.of_nat (length state) →
  read state i1 = Some a → read state i2 = Some b →
  update_pair gate tk cktot i state
  = Some (<[Z.to_nat i2 := new2 gate a b]>
            (<[Z.to_nat i1 := new1 gate a b]> state)).
Proof.
  intros i1 i2 H0 H12 H2 Ha Hb. unfold update_pair. fold i1 i2.
  rewrite Ha, Hb. simpl. rewrite write_in_bounds by lia. simpl.
  rewrite read_insert_ne, Hb by lia. simpl.
  rewrite write_in_bounds by (rewrite length_insert; lia). done.
Qed.
End PairUpdate.

(** ** The loop of the gate kernel *)

Section GateLoop.
Context {T : Type} `{Amplitude T}.
Variables (gate : Gate T) (nqubits target : Z) (controls : list Z).
Hypothesis Hok : gate_call_ok nqubits target controls.

Let tk := pow2 (nqubits - target - 1).
Let cktot := weights_sum nqubits controls.
Let cks := (control_weights nqubits controls).1.

Lemma DoWork_body_eq i state :
  0 ≤ i →
  DoWork_body gate tk cks cktot i state
  = if controls_clear nqubits controls i
    then update_pair gate tk cktot i state else Some state.
Proof.
  intros Hi. unfold DoWork_body, cks.
  by rewrite (apply_flag_spec _ _ _ Hok).
Qed.

(** Invariant of the loop over any duplicate-free list [L] of bases:
    cells outside the pairs of the eligible bases of [L] keep their
    value, and each pair holds the transform of its old amplitudes. *)
Lemma loop_invariant (L : list Z) :
  NoDup L → (∀ i, i ∈ L → is_base nqubits target i) →
  ∀ state, Z.of_nat (length state) = pow2 nqubits →
  ∃ state',
    for_each (DoWork_body gate tk cks cktot) L state = Some state'
    ∧ length state' = length state
    ∧ (∀ j, (∀ i, i ∈ L → controls_clear nqubits controls i = true →
                  j ≠ i + cktot ∧ j ≠ i + cktot + tk) →
            read state' j = read state j)
    ∧ (∀ i a b, i ∈ L → controls_clear nqubits controls i = true →
                read state (i + cktot) = Some a →
                read state (i + cktot + tk) = Some b →
                read state' (i + cktot) = Some (new1 gate a b)
                ∧ read state' (i + cktot + tk) = Some (new2 gate a b)).
Proof.
  induction 1 as [ | i L Hi Hnd IH]; intros Hbases state Hlen;
    cbn [for_each].
  { exists state. split; [done | ]. split; [done | ]. split; [done | ].
    intros i a b Hin. by apply elem_of_nil in Hin. }
  assert (Hb : is_base nqubits target i) by (apply Hbases; left).
  assert (HbL : ∀ i', i' ∈ L → is_base nqubits target i')
    by (intros; apply Hbases; by right).
  rewrite DoWork_body_eq by apply Hb.
  destruct (controls_clear nqubits controls i) eqn:Hclear.
  - (* the pair of [i] is updated *)
    destruct (pair_in_bounds _ _ _ Hok i Hb Hclear) as (H0 & H12 & H2).
    fold cktot tk in H0, H12, H2.
    destruct (read_in_bounds state (i + cktot)) as [a Ha]; [lia | ].
    destruct (read_in_bounds state (i + cktot + tk)) as [b Hb2]; [lia | ].
    rewrite (update_pair_eq gate tk cktot i state a b) by (done || lia).
    simpl.
    set (state1 := <[Z.to_nat (i + cktot + tk) := new2 gate a b]>
                     (<[Z.to_nat (i + cktot) := new1 gate a b]> state)).
    assert (Hlen1 : length state1 = length state)
      by (unfold state1; by rewrite !length_insert).
    assert (Hother : ∀ j, j ≠ i + cktot → j ≠ i + cktot + tk →
                          read state1 j = read state j).
    { intros j ? ?. unfold state1. by rewrite !read_insert_ne by lia. }
    destruct (IH HbL state1) as (state' & Hrun & Hlen' & Hout & Hin);
      [lia | ].
    exists state'. split; [done | ]. split; [congruence | ].
    assert (Hdisj : ∀ i', i' ∈ L →
              controls_clear nqubits controls i' = true →
              i + cktot ≠ i' + cktot ∧ i + cktot ≠ i' + cktot + tk
              ∧ i + cktot + tk ≠ i' + cktot
              ∧ i + cktot + tk ≠ i' + cktot + tk).
    { intros i' Hi' Hc'. apply (pairs_disjoint _ _ _ Hok); auto.
      intros ->. done. }
    split.
    + intros j Hj. rewrite Hout.
      * apply Hother; apply (Hj i); auto; left.
      * intros i' Hi' Hc'. apply Hj; [by right | done].
    + intros i' a' b' [-> | Hi']%elem_of_cons Hc' Ha' Hb'.
      * assert (a' = a) as -> by congruence.
        assert (b' = b) as -> by congruence.
        rewrite !Hout.
        -- unfold state1. split.
           ++ rewrite read_insert_ne by lia. apply read_insert_eq. lia.
           ++ apply read_insert_eq. rewrite length_insert. lia.
        -- intros i' Hi' Hc''. destruct (Hdisj i' Hi' Hc''); tauto.
        -- intros i' Hi' Hc''. destruct (Hdisj i' Hi' Hc''); tauto.
      * destruct (Hdisj i' Hi' Hc') as (? & ? & ? & ?).
        apply Hin; auto; rewrite Hother; auto.
  - (* the base is skipped *)
    destruct (IH HbL state Hlen) as (state' & Hrun & Hlen' & Hout & Hin).
    exists state'. split; [done | ]. split; [done | ]. split.
    + intros j Hj. apply Hout. intros i' Hi' Hc'. apply Hj; [by right | done].
    + intros i' a b [-> | Hi']%elem_of_cons Hc'; [congruence | ].
      by apply Hin.
Qed.

(** The kernel is one loop over the bases of all the windows. *)
Lemma ApplyGateFunctor_in_unfold order state :
  ApplyGateFunctor_in order state gate nqubits target controls
  = for_each (DoWork_body gate tk cks cktot)
             (all_bases nqubits target order) state.
Proof.
  unfold ApplyGateFunctor_in, ParallelFor_in, DoWork, all_bases, cks, cktot.
  rewrite control_weights_eq. simpl. by rewrite for_each_nested.
Qed.

(** The kernel computes [gate_spec] on every cell, whatever the order
    in which the windows are dispatched. *)
Lemma ApplyGateFunctor_in_spec order state :
  order ≡ₚ shards (pow2 nqubits) (2 * tk) →
  Z.of_nat (length state) = pow2 nqubits →
  ∃ state',
    ApplyGateFunctor_in order state gate nqubits target controls
    = Some state'
    ∧ length state' = length state
    ∧ ∀ j, 0 ≤ j < pow2 nqubits →
           read state' j = gate_spec gate nqubits target controls state j.
Proof.
  intros Hperm Hlen. pose proof Hok as (Htarget & _).
  rewrite ApplyGateFunctor_in_unfold.
  destruct (loop_invariant (all_bases nqubits target order))
    with (state := state) as (state' & Hrun & Hlen' & Hout & Hin).
  { by apply NoDup_all_bases. }
  { intros i. by apply elem_of_all_bases. }
  { done. }
  exists state'. split; [done | ]. split; [done | ].
  intros j Hj. unfold gate_spec. cbv zeta. fold tk.
  destruct (controls_set nqubits controls j) eqn:Hset.
  - destruct (pair_of_index _ _ _ Hok j Hj Hset) as (i & Hb & Hc & Hji).
    fold cktot tk in Hji.
    destruct (pair_in_bounds _ _ _ Hok i Hb Hc) as (H0 & H12 & H2).
    fold cktot tk in H0, H12, H2.
    destruct (read_in_bounds state (i + cktot)) as [a Ha]; [lia | ].
    destruct (read_in_bounds state (i + cktot + tk)) as [b Hb2]; [lia | ].
    destruct (Hin i a b) as [Hn1 Hn2]; auto.
    { by apply elem_of_all_bases. }
    destruct (qubit_bit nqubits target j); subst j.
    + replace (i + cktot + tk - tk) with (i + cktot) by lia.
      by rewrite Ha, Hb2.
    + by rewrite Ha, Hb2.
  - apply Hout. intros i Hi Hc.
    apply elem_of_all_bases in Hi; [ | done | done].
    pose proof (i1_controls_set _ _ _ Hok i Hc) as H1.
    pose proof (i2_controls_set _ _ _ Hok i Hi Hc) as H2.
    fold cktot tk in H1, H2. split; intros ->; congruence.
Qed.
End GateLoop.

(** ** Algebra of amplitudes and gates *)

Section AmplitudeAlgebra.
Context {T : Type} `{Amplitude T}.
Implicit Types (x y a b : T) (G : Gate T).

Add Ring amplitude_ring : amp_ring.

Lemma cadd_cancel_r x y z : (x + z = y + z)%A → x = y.
Proof.
  intros Heq.
  assert (x = x + z + copp z)%A as -> by ring.
  rewrite Heq. ring.
Qed.

(** For 2x2 matrices over a commutative ring a right inverse is a left
    inverse. *)
Lemma gmul_inverse_comm G G' : gmul G G' = gid → gmul G' G = gid.
Proof.
  destruct G as [a b c d], G' as [e f g h]. unfold gmul, gid. simpl.
  intros [= H1 H2 H3 H4].
  set (D := (a * d + copp (b * c))%A).
  set (E := (e * h + copp (f * g))%A).
  assert (HDE : (E * D)%A = 1%A).
  { transitivity ((a * e + b * g) * (c * f + d * h)
                  + copp ((a * f + b * h) * (c * e + d * g)))%A;
      [unfold D, E; ring | ].
    rewrite H1, H2, H3, H4. ring. }
  assert (HDe : (D * e)%A = d).
  { transitivity (d * (a * e + b * g) + copp (b * (c * e + d * g)))%A;
      [unfold D; ring | ].
    rewrite H1, H3. ring. }
  assert (HDf : (D * f)%A = copp b).
  { transitivity (d * (a * f + b * h) + copp (b * (c * f + d * h)))%A;
      [unfold D; ring | ].
    rewrite H2, H4. ring. }
  assert (HDg : (D * g)%A = copp c).
  { transitivity (a * (c * e + d * g) + copp (c * (a * e + b * g)))%A;
      [unfold D; ring | ].
    rewrite H1, H3. ring. }
  assert (HDh : (D * h)%A = a).
  { transitivity (a * (c * f + d * h) + copp (c * (a * f + b * h)))%A;
      [unfold D; ring | ].
    rewrite H2, H4. ring. }
  assert (Hmul : ∀ x, x = (E * (D * x))%A).
  { intros x. transitivity (E * D * x)%A; [ | ring].
    rewrite HDE. ring. }
  f_equal.
  - rewrite (Hmul (e * a + f * c)%A).
    transitivity (E * ((D * e) * a + (D * f) * c))%A; [f_equal; ring | ].
    rewrite HDe, HDf, <- HDE. unfold D. ring.
  - rewrite (Hmul (e * b + f * d)%A).
    transitivity (E * ((D * e) * b + (D * f) * d))%A; [f_equal; ring | ].
    rewrite HDe, HDf. ring.
  - rewrite (Hmul (g * a + h * c)%A).
    transitivity (E * ((D * g) * a + (D * h) * c))%A; [f_equal; ring | ].
    rewrite HDg, HDh. ring.
  - rewrite (Hmul (g * b + h * d)%A).
    transitivity (E * ((D * g) * b + (D * h) * d))%A; [f_equal; ring | ].
    rewrite HDg, HDh, <- HDE. unfold D. ring.
Qed.

(** The columns of a unitary gate are orthonormal as well. *)
Lemma unitary_dagger_left G : unitary G → gmul (dagger G) G = gid.
Proof. apply gmul_inverse_comm. Qed.

(** A unitary gate preserves the squared magnitude of a pair. *)
Lemma unitary_pair_norm G x y :
  unitary G →
  (abs2 (new1 G x y) + abs2 (new2 G x y))%A = (abs2 x + abs2 y)%A.
Proof.
  intros HG%unitary_dagger_left. destruct G as [a b c d].
  unfold gmul, gid, dagger in HG. simpl in HG.
  injection HG as H1 H2 H3 H4.
  unfold abs2, new1, new2. simpl. rewrite !cconj_add, !cconj_mul.
  transitivity
    (x * cconj x * (cconj a * a + cconj c * c)
     + x * cconj y * (cconj b * a + cconj d * c)
     + y * cconj x * (cconj a * b + cconj c * d)
     + y * cconj y * (cconj b * b + cconj d * d))%A; [ring | ].
  rewrite H1, H2, H3, H4. ring.
Qed.

Lemma norm2_cons x (state : list T) :
  norm2 (x :: state) = (abs2 x + norm2 state)%A.
Proof. reflexivity. Qed.

Lemma cadd_swap x y z : (x + y + z)%A = (z + y + x)%A.
Proof. ring. Qed.

Lemma norm2_insert (state : list T) (k : nat) a x :
  state !! k = Some a →
  (norm2 (<[k := x]> state) + abs2 a)%A = (norm2 state + abs2 x)%A.
Proof.
  revert k. induction state as [ | y state IH]; intros [ | k] Hk;
    try discriminate.
  - injection Hk as ->.
    change (<[0%nat := x]> (a :: state)) with (x :: state).
    rewrite !norm2_cons. apply cadd_swap.
  - change (<[Datatypes.S k := x]> (y :: state))
      with (y :: <[k := x]> state).
    rewrite !norm2_cons, <- !(Radd_assoc amp_ring).
    f_equal. by apply IH.
Qed.

(** The gate that two applications in a row amount to. *)
Lemma new1_compose G G' x y :
  new1 G' (new1 G x y) (new2 G x y) = new1 (gmul G' G) x y.
Proof. destruct G, G'. unfold new1, new2, gmul. simpl. ring. Qed.

Lemma new2_compose G G' x y :
  new2 G' (new1 G x y) (new2 G x y) = new2 (gmul G' G) x y.
Proof. destruct G, G'. unfold new1, new2, gmul. simpl. ring. Qed.

Lemma new1_gid x y : new1 gid x y = x.
Proof. unfold new1, gid. simpl. ring. Qed.

Lemma new2_gid x y : new2 gid x y = y.
Proof. unfold new2, gid. simpl. ring. Qed.
End AmplitudeAlgebra.

(** ** Basis index pairs *)

Section BasisPairs.
Variables (nqubits target : Z) (controls : list Z).
Hypothesis Hok : gate_call_ok nqubits target controls.

Lemma differ_controls_set i1 i2 :
  differ_only_in nqubits target i1 i2 →
  controls_set nqubits controls i2 = controls_set nqubits controls i1.
Proof.
  intros (_ & _ & Hq). destruct Hok as (_ & Hr & _ & Hnot).
  unfold controls_set. apply eq_true_iff_eq. rewrite !forallb_elem_of.
  split; intros Hc c Hin; specialize (Hc c Hin);
    (assert (qubit_bit nqubits c i1 = qubit_bit nqubits c i2) as Heq;
     [ | congruence]);
    apply Hq; try (intros ->; done);
    by eapply list.Forall_forall in Hr.
Qed.

Lemma basis_pair_partner i1 i2 :
  basis_pair nqubits target i1 i2 →
  i2 = i1 + pow2 (nqubits - target - 1).
Proof.
  intros [(Hi1 & Hi2 & Hq) Hbit]. destruct Hok as (Ht & _).
  unfold qubit_bit in *.
  apply Z.bits_inj'. intros p Hp. rewrite testbit_add_disjoint.
  - rewrite testbit_pow2 by lia.
    destruct (decide (p < nqubits)) as [Hlt | Hge].
    + specialize (Hq (nqubits - p - 1)).
      replace (nqubits - (nqubits - p - 1) - 1) with p in Hq by lia.
      case_bool_decide as Hcase.
      * subst p. rewrite Hbit in *. simpl.
        destruct (Z.testbit i2 (nqubits - target - 1)); [done | ].
        exfalso. apply Hq; [lia | done | lia].
      * rewrite orb_false_r. symmetry. apply Hq; lia.
    + rewrite !(bounded_bits nqubits) by (done || lia). simpl.
      symmetry. apply bool_decide_eq_false. lia.
  - intros q _ Hq1. rewrite testbit_pow2 by lia.
    apply bool_decide_eq_false. intros <-. congruence.
Qed.

(** The first index of a pair whose control bits are all set is
    [base + cktot] for a base that the kernel finds eligible. *)
Lemma basis_pair_base i1 i2 :
  basis_pair nqubits target i1 i2 →
  controls_set nqubits controls i1 = true →
  ∃ i, is_base nqubits target i
       ∧ controls_clear nqubits controls i = true
       ∧ i1 = i + weights_sum nqubits controls
       ∧ i2 = i1 + pow2 (nqubits - target - 1).
Proof.
  intros Hpair Hset. pose proof (basis_pair_partner _ _ Hpair) as Hi2.
  destruct Hpair as [(Hi1 & _) Hbit].
  destruct (pair_of_index _ _ _ Hok i1 Hi1 Hset) as (i & Hb & Hc & Hi).
  rewrite Hbit in Hi. eauto.
Qed.
End BasisPairs.

(** ** GateApplicator: the contract *)

Section GateContract.
Context {T : Type} `{Amplitude T}.
Implicit Types (state : list T) (gate : Gate T).

Lemma ApplyGateFunctor_spec state gate nqubits target controls :
  gate_call_ok nqubits target controls →
  Z.of_nat (length state) = pow2 nqubits →
  ∃ state',
    ApplyGateFunctor state gate nqubits target controls = Some state'
    ∧ length state' = length state
    ∧ ∀ j, 0 ≤ j < pow2 nqubits →
           read state' j = gate_spec gate nqubits target controls state j.
Proof.
  intros Hok Hlen.
  by apply (ApplyGateFunctor_in_spec gate nqubits target controls Hok
              (shards (pow2 nqubits) (2 * pow2 (nqubits - target - 1)))).
Qed.

(** Both cells of the pair of an eligible base, under [gate_spec]. *)
Lemma gate_spec_pair state nqubits target controls i :
  gate_call_ok nqubits target controls →
  Z.of_nat (length state) = pow2 nqubits →
  is_base nqubits target i →
  controls_clear nqubits controls i = true →
  let i1 := i + weights_sum nqubits controls in
  let i2 := i1 + pow2 (nqubits - target - 1) in
  ∃ a b, read state i1 = Some a ∧ read state i2 = Some b
         ∧ ∀ gate,
             gate_spec gate nqubits target controls state i1
             = Some (new1 gate a b)
             ∧ gate_spec gate nqubits target controls state i2
               = Some (new2 gate a b).
Proof.
  intros Hok Hlen Hb Hc i1 i2.
  destruct (pair_in_bounds _ _ _ Hok i Hb Hc) as (H0 & H12 & H2).
  destruct (read_in_bounds state i1) as [a Ha]; [unfold i1; lia | ].
  destruct (read_in_bounds state i2) as [b Hb2]; [unfold i2, i1; lia | ].
  exists a, b. split; [done | ]. split; [done | ]. intros gate.
  unfold gate_spec, qubit_bit. split.
  - fold (controls_set nqubits controls i1). unfold i1.
    rewrite (i1_controls_set _ _ _ Hok i Hc).
    rewrite (i1_target_bit _ _ _ Hok i Hb Hc).
    fold i1 i2. by rewrite Ha, Hb2.
  - unfold i2, i1.
    rewrite (i2_controls_set _ _ _ Hok i Hb Hc).
    rewrite (i2_target_bit _ _ _ Hok i Hb Hc).
    fold i1 i2. replace (i2 - pow2 (nqubits - target - 1)) with i1
      by (unfold i2; lia).
    by rewrite Ha, Hb2.
Qed.

(** When every window of 2*tk indices is handed to [DoWork] in a call
    of its own, in any order: for a state of length 2^n, any gate, a
    target in [0, n) and a set of control qubits (distinct indices in
    [0, n)) that does not contain the target, the call returns, and for
    every pair (i1, i2) of indices that differ only in the target bit,
    with the target bit of i1 equal to 0 and all control bits of i1 equal
    to 1, the new amplitudes are gate[0]*old[i1] + gate[1]*old[i2] at i1
    and gate[2]*old[i1] + gate[3]*old[i2] at i2, where old[i1] and
    old[i2] are the amplitudes before the call. *)
Theorem ApplyGate_pair_update_per_window order state gate nqubits target
    controls i1 i2 :
  Z.of_nat (length state) = pow2 nqubits →
  gate_call_ok nqubits target controls →
  order ≡ₚ shards (pow2 nqubits) (2 * pow2 (nqubits - target - 1)) →
  basis_pair nqubits target i1 i2 →
  controls_set nqubits controls i1 = true →
  ∃ state' old1 old2,
    read state i1 = Some old1 ∧ read state i2 = Some old2
    ∧ ApplyGateFunctor_in order state gate nqubits target controls
      = Some state'
    ∧ read state' i1 = Some (g0 gate * old1 + g1 gate * old2)%A
    ∧ read state' i2 = Some (g2 gate * old1 + g3 gate * old2)%A.
Proof.
  intros Hlen Hok Hperm Hpair Hset.
  destruct (basis_pair_base _ _ _ Hok i1 i2 Hpair Hset)
    as (i & Hb & Hc & -> & ->).
  destruct (ApplyGateFunctor_in_spec gate _ _ _ Hok order state Hperm Hlen)
    as (state' & Hrun & _ & Hread).
  destruct (gate_spec_pair state _ _ _ i Hok Hlen Hb Hc)
    as (a & b & Ha & Hb2 & Hspec).
  destruct (pair_in_bounds _ _ _ Hok i Hb Hc) as (H0 & H12 & H2).
  destruct (Hspec gate) as [Hs1 Hs2].
  exists state', a, b. split; [done | ]. split; [done | ].
  split; [done | ]. rewrite !Hread by lia. done.
Qed.

(** C6.  Under the preconditions of the call, a pair of indices that
    differ only in the target bit and whose control bits are not all 1
    keeps its two amplitudes.  (With an empty control set no such pair
    exists, so the control set need not be assumed non-empty.) *)
Theorem ApplyGate_frame state gate nqubits target controls i1 i2 :
  Z.of_nat (length state) = pow2 nqubits →
  gate_call_ok nqubits target controls →
  differ_only_in nqubits target i1 i2 →
  controls_set nqubits controls i1 = false →
  ∃ state',
    ApplyGateFunctor state gate nqubits target controls = Some state'
    ∧ read state' i1 = read state i1
    ∧ read state' i2 = read state i2.
Proof.
  intros Hlen Hok Hpair Hset.
  pose proof (differ_controls_set _ _ _ Hok _ _ Hpair) as Hset2.
  rewrite Hset in Hset2. destruct Hpair as (Hi1 & Hi2 & _).
  destruct (ApplyGateFunctor_spec state gate _ _ _ Hok Hlen)
    as (state' & Hrun & _ & Hread).
  exists state'. split; [done | ].
  rewrite !Hread by done. unfold gate_spec. by rewrite Hset, Hset2.
Qed.

(** C8.  For a state of length 2^n, a valid target and an array of
    distinct valid control qubits, the kernel returns the same state for
    the control array and for any permutation of it. *)
Theorem ApplyGate_controls_order state gate nqubits target controls
    controls' :
  Z.of_nat (length state) = pow2 nqubits →
  gate_call_ok nqubits target controls →
  controls ≡ₚ controls' →
  ∃ state',
    ApplyGateFunctor state gate nqubits target controls = Some state'
    ∧ ApplyGateFunctor state gate nqubits target controls' = Some state'.
Proof.
  intros Hlen Hok Hperm.
  destruct (ApplyGateFunctor_spec state gate _ _ _ Hok Hlen)
    as (state' & Hrun & _).
  exists state'. split; [done | ]. rewrite <- Hrun.
  unfold ApplyGateFunctor.
  replace (control_weights nqubits controls')
    with (control_weights nqubits controls); [done | ].
  rewrite (surjective_pairing (control_weights nqubits controls)).
  rewrite (surjective_pairing (control_weights nqubits controls')).
  f_equal.
  - apply sorted_set_ext; [apply cks_sorted | apply cks_sorted | ].
    intros q. rewrite !elem_of_cks. by setoid_rewrite Hperm.
  - rewrite !control_weights_eq. simpl. by apply weights_sum_perm.
Qed.
End GateContract.

(** C10.  Under the preconditions, every base [i] that the windows
    enumerate and the loop over [cks] finds eligible gives indices
    i1 = i + cktot and i2 = i1 + tk with 0 <= i1 < i2 < 2^n, and the pairs
    of two distinct eligible bases have no index in common: a call writes
    each cell at most once. *)
Theorem ApplyGate_pairs_in_bounds_disjoint nqubits target controls :
  gate_call_ok nqubits target controls →
  let tk := pow2 (nqubits - target - 1) in
  let cks := (control_weights nqubits controls).1 in
  let cktot := (control_weights nqubits controls).2 in
  let bases := all_bases nqubits target (shards (pow2 nqubits) (2 * tk)) in
  (∀ i, i ∈ bases → apply_flag i cks = Some true →
        0 ≤ i + cktot ∧ i + cktot < i + cktot + tk
        ∧ i + cktot + tk < pow2 nqubits)
  ∧ (∀ i i', i ∈ bases → i' ∈ bases →
             apply_flag i cks = Some true → apply_flag i' cks = Some true →
             i ≠ i' →
             i + cktot ≠ i' + cktot ∧ i + cktot ≠ i' + cktot + tk
             ∧ i + cktot + tk ≠ i' + cktot
             ∧ i + cktot + tk ≠ i' + cktot + tk).
Proof.
  intros Hok tk cks cktot bases. pose proof Hok as (Htarget & _).
  assert (Hcktot : cktot = weights_sum nqubits controls)
    by (unfold cktot; by rewrite control_weights_eq).
  assert (Heligible : ∀ i, i ∈ bases → apply_flag i cks = Some true →
            is_base nqubits target i
            ∧ controls_clear nqubits controls i = true).
  { intros i Hi Hflag. apply elem_of_all_bases in Hi; [ | done | done].
    split; [done | ]. unfold cks in Hflag.
    rewrite (apply_flag_spec _ _ _ Hok) in Hflag by apply Hi. congruence. }
  rewrite Hcktot. split.
  - intros i Hi Hflag. destruct (Heligible i Hi Hflag).
    by apply (pair_in_bounds _ _ _ Hok).
  - intros i i' Hi Hi' Hflag Hflag' Hne.
    destruct (Heligible i Hi Hflag), (Heligible i' Hi' Hflag').
    by apply (pairs_disjoint _ _ _ Hok).
Qed.

(** ** GateApplicator: unitary gates *)

Lemma for_each_invariant {S I} (P : S → Prop) (body : I → S → option S)
    (l : list I) :
  (∀ i s s', P s → body i s = Some s' → P s') →
  ∀ s s', P s → for_each body l s = Some s' → P s'.
Proof.
  intros Hstep. induction l as [ | i l IH]; intros s s' Hs; simpl.
  - by intros [= <-].
  - destruct (body i s) as [s1 | ] eqn:Hbody; simpl; [ | done].
    apply IH. by eapply Hstep.
Qed.

Section GateUnitary.
Context {T : Type} `{Amplitude T}.
Implicit Types (state : list T) (gate : Gate T).

Add Ring amplitude_ring' : amp_ring.

(** One pair update with a unitary gate keeps the norm. *)
Lemma update_pair_norm gate tk cktot i state state' :
  unitary gate → 0 < tk →
  update_pair gate tk cktot i state = Some state' →
  norm2 state' = norm2 state.
Proof.
  intros Hu Htk Hrun.
  destruct (read state (i + cktot)) as [a | ] eqn:Ha;
    [ | by unfold update_pair in Hrun; rewrite Ha in Hrun].
  destruct (read state (i + cktot + tk)) as [b | ] eqn:Hb;
    [ | by unfold update_pair in Hrun; rewrite Ha, Hb in Hrun].
  pose proof (read_is_Some state (i + cktot) (mk_is_Some _ _ Ha)) as H1.
  pose proof (read_is_Some state (i + cktot + tk) (mk_is_Some _ _ Hb))
    as H2.
  rewrite (update_pair_eq gate tk cktot i state a b) in Hrun
    by (done || lia).
  injection Hrun as <-.
  apply read_Some in Ha as [_ Ha]. apply read_Some in Hb as [_ Hb].
  pose proof (norm2_insert state _ a (new1 gate a b) Ha) as Hn1.
  pose proof (norm2_insert (<[Z.to_nat (i + cktot) := new1 gate a b]> state)
                (Z.to_nat (i + cktot + tk)) b (new2 gate a b)) as Hn2.
  rewrite list_lookup_insert_ne in Hn2 by lia. specialize (Hn2 Hb).
  pose proof (unitary_pair_norm gate a b Hu) as Hpair.
  set (s1 := <[Z.to_nat (i + cktot) := new1 gate a b]> state) in *.
  set (s2 := <[Z.to_nat (i + cktot + tk) := new2 gate a b]> s1) in *.
  apply (cadd_cancel_r _ _ (abs2 a + abs2 b)%A).
  transitivity (norm2 s2 + abs2 b + abs2 a)%A; [ring | ].
  rewrite Hn2.
  transitivity (norm2 s1 + abs2 a + abs2 (new2 gate a b))%A; [ring | ].
  rewrite Hn1, <- Hpair. ring.
Qed.

(** C4.  For a unitary gate (G times its conjugate transpose is the
    identity), a valid target and a valid control set, the call returns
    and the sum of the squared magnitudes of the amplitudes after the
    call equals the sum before the call (amplitudes in a commutative
    ring with conjugation, |x|^2 = x * conj x). *)
Theorem ApplyGate_preserves_norm state gate nqubits target controls :
  Z.of_nat (length state) = pow2 nqubits →
  gate_call_ok nqubits target controls →
  unitary gate →
  ∃ state',
    ApplyGateFunctor state gate nqubits target controls = Some state'
    ∧ norm2 state' = norm2 state.
Proof.
  intros Hlen Hok Hu.
  destruct (ApplyGateFunctor_spec state gate _ _ _ Hok Hlen)
    as (state' & Hrun & _).
  exists state'. split; [done | ].
  change (ApplyGateFunctor state gate nqubits target controls)
    with (ApplyGateFunctor_in
            (shards (pow2 nqubits) (2 * pow2 (nqubits - target - 1)))
            state gate nqubits target controls) in Hrun.
  rewrite ApplyGateFunctor_in_unfold in Hrun.
  revert Hrun. apply for_each_invariant with (P := λ s, norm2 s = norm2 state);
    [ | done].
  intros i s s' Hs. unfold DoWork_body.
  destruct (apply_flag i _) as [[ | ] | ]; simpl; [ | congruence | done].
  intros Hpair. rewrite <- Hs. eapply update_pair_norm; [done | | done].
  apply pow2_pos. destruct Hok as (? & _). lia.
Qed.

(** Two calls in a row, with [gate] and then [gate'], on the same target
    and controls amount to one call with the product [gate' * gate]. *)
Lemma ApplyGate_compose state gate gate' nqubits target controls :
  Z.of_nat (length state) = pow2 nqubits →
  gate_call_ok nqubits target controls →
  ApplyGateFunctor state gate nqubits target controls
  ≫= (λ state1, ApplyGateFunctor state1 gate' nqubits target controls)
  = ApplyGateFunctor state (gmul gate' gate) nqubits target controls.
Proof.
  intros Hlen Hok.
  destruct (ApplyGateFunctor_spec state gate _ _ _ Hok Hlen)
    as (state1 & -> & Hlen1 & Hread1). simpl.
  destruct (ApplyGateFunctor_spec state1 gate' _ _ _ Hok)
    as (state2 & -> & Hlen2 & Hread2); [lia | ].
  destruct (ApplyGateFunctor_spec state (gmul gate' gate) _ _ _ Hok Hlen)
    as (state3 & -> & Hlen3 & Hread3).
  f_equal. apply buffer_ext; [congruence | ].
  intros j Hj. rewrite Hread2, Hread3 by lia.
  destruct (controls_set nqubits controls j) eqn:Hset.
  - destruct (pair_of_index _ _ _ Hok j) as (i & Hb & Hc & Hji);
      [lia | done | ].
    destruct (pair_in_bounds _ _ _ Hok i Hb Hc) as (H0 & H12 & H2).
    destruct (gate_spec_pair state _ _ _ i Hok Hlen Hb Hc)
      as (a & b & Ha & Hb2 & Hspec).
    destruct (gate_spec_pair state1 nqubits target controls i Hok)
      as (a1 & b1 & Ha1 & Hb1 & Hspec1); [lia | done | done | ].
    rewrite Hread1, (proj1 (Hspec gate)) in Ha1 by lia.
    rewrite Hread1, (proj2 (Hspec gate)) in Hb1 by lia.
    injection Ha1 as <-. injection Hb1 as <-.
    destruct (qubit_bit nqubits target j); subst j.
    + rewrite (proj2 (Hspec1 gate')), (proj2 (Hspec (gmul gate' gate))).
      by rewrite new2_compose.
    + rewrite (proj1 (Hspec1 gate')), (proj1 (Hspec (gmul gate' gate))).
      by rewrite new1_compose.
  - unfold gate_spec. rewrite Hset. rewrite Hread1 by lia.
    unfold gate_spec. by rewrite Hset.
Qed.

(** The identity gate leaves the state unchanged. *)
Lemma ApplyGate_identity state nqubits target controls :
  Z.of_nat (length state) = pow2 nqubits →
  gate_call_ok nqubits target controls →
  ApplyGateFunctor state gid nqubits target controls = Some state.
Proof.
  intros Hlen Hok.
  destruct (ApplyGateFunctor_spec state gid _ _ _ Hok Hlen)
    as (state' & -> & Hlen' & Hread).
  f_equal. apply buffer_ext; [done | ].
  intros j Hj. rewrite Hread by lia.
  destruct (controls_set nqubits controls j) eqn:Hset.
  - destruct (pair_of_index _ _ _ Hok j) as (i & Hb & Hc & Hji);
      [lia | done | ].
    destruct (gate_spec_pair state _ _ _ i Hok Hlen Hb Hc)
      as (a & b & Ha & Hb2 & Hspec).
    destruct (qubit_bit nqubits target j); subst j.
    + by rewrite (proj2 (Hspec gid)), new2_gid.
    + by rewrite (proj1 (Hspec gid)), new1_gid.
  - unfold gate_spec. by rewrite Hset.
Qed.

(** C7.  Applying a unitary gate G and then its conjugate transpose, on
    the same target and controls, gives back the original state
    (exactly: the amplitudes form a commutative ring with conjugation). *)
Theorem ApplyGate_dagger_inverse state gate nqubits target controls :
  Z.of_nat (length state) = pow2 nqubits →
  gate_call_ok nqubits target controls →
  unitary gate →
  ApplyGateFunctor state gate nqubits target controls
  ≫= (λ state1,
        ApplyGateFunctor state1 (dagger gate) nqubits target controls)
  = Some state.
Proof.
  intros Hlen Hok Hu.
  rewrite ApplyGate_compose, unitary_dagger_left by done.
  by apply ApplyGate_identity.
Qed.
End GateUnitary.

(** ** PieceSwapper *)

Lemma for_each_indexed {S I J} (index : I → option J) (f : I → J)
    (body : J → S → option S) (l : list I) (s : S) :
  (∀ g, g ∈ l → index g = Some (f g)) →
  for_each (λ g s, i ← index g; body i s) l s = for_each body (f <$> l) s.
Proof.
  revert s. induction l as [ | g l IH]; intros s Hindex; simpl; [done | ].
  rewrite Hindex by left. simpl. destruct (body (f g) s); simpl; [ | done].
  apply IH. intros. apply Hindex. by right.
Qed.

Lemma swap_index_eq m g :
  0 ≤ m → swap_index m (pow2 m) g = Some (insert_zero_bit m g).
Proof.
  intros Hm. unfold swap_index, shr, shl, insert_zero_bit, pow2.
  destruct (Z.leb_spec 0 m); [ | lia]. simpl.
  destruct (Z.leb_spec 0 (m + 1)); [ | lia]. simpl.
  rewrite Z.shiftr_div_pow2, Z.shiftl_mul_pow2 by lia.
  replace (2 ^ m - 1) with (Z.ones m) by (rewrite Z.ones_equiv; lia).
  rewrite Z.land_ones by lia.
  by rewrite Z.pow_add_r, Z.pow_1_r, (Z.mul_comm (2 ^ m) 2) by lia.
Qed.

Section SwapIndices.
Variables (nqubits new_global : Z).
Hypothesis Hng : 0 ≤ new_global < nqubits.

Let m := nqubits - new_global - 1.
Let tk := pow2 m.

Local Lemma swap_tk_pos : 0 < tk.
Proof. apply pow2_pos. unfold m. lia. Qed.

Local Lemma half_split : pow2 (nqubits - 1) = pow2 new_global * tk.
Proof.
  unfold tk, m, pow2.
  replace (nqubits - 1) with (new_global + (nqubits - new_global - 1))
    by lia.
  by rewrite Z.pow_add_r by lia.
Qed.

Local Lemma full_split : pow2 nqubits = pow2 new_global * (2 * tk).
Proof.
  rewrite Z.mul_assoc, (Z.mul_comm _ 2), <- Z.mul_assoc, <- half_split.
  unfold pow2. replace nqubits with (1 + (nqubits - 1)) at 1 by lia.
  by rewrite Z.pow_add_r by lia.
Qed.

Lemma insert_zero_bit_base g :
  0 ≤ g < pow2 (nqubits - 1) →
  is_base nqubits new_global (insert_zero_bit m g).
Proof.
  intros Hg. pose proof swap_tk_pos as Htk.
  rewrite half_split in Hg. unfold is_base, qubit_bit, insert_zero_bit.
  fold m tk. rewrite full_split.
  pose proof (Z.div_mod g tk ltac:(lia)) as Hdiv.
  pose proof (Z.mod_pos_bound g tk Htk) as Hr.
  assert (0 ≤ g `div` tk < pow2 new_global).
  { split; [apply Z.div_pos; lia | apply Z.div_lt_upper_bound; lia]. }
  split; [nia | ].
  apply Z.testbit_false; [unfold m; lia | ]. fold (pow2 m). fold tk.
  replace ((g `div` tk * (2 * tk) + g `mod` tk) `div` tk)
    with (2 * (g `div` tk)); [by rewrite Z.mul_comm, Z.mod_mul | ].
  apply Z.div_unique with (r := g `mod` tk); lia.
Qed.

Lemma insert_zero_bit_inj g g' :
  insert_zero_bit m g = insert_zero_bit m g' → g = g'.
Proof.
  pose proof swap_tk_pos as Htk. unfold insert_zero_bit. fold tk.
  intros Heq.
  pose proof (Z.div_mod g tk ltac:(lia)) as Hdiv.
  pose proof (Z.mod_pos_bound g tk Htk) as Hr.
  pose proof (Z.div_mod g' tk ltac:(lia)) as Hdiv'.
  pose proof (Z.mod_pos_bound g' tk Htk) as Hr'.
  assert (g `div` tk = g' `div` tk) by nia.
  nia.
Qed.

Lemma insert_zero_bit_surj i :
  is_base nqubits new_global i →
  ∃ g, 0 ≤ g < pow2 (nqubits - 1) ∧ i = insert_zero_bit m g.
Proof.
  intros [Hi Hbit]. pose proof swap_tk_pos as Htk.
  unfold qubit_bit in Hbit. fold m in Hbit.
  apply Z.testbit_false in Hbit; [ | unfold m; lia].
  fold (pow2 m) in Hbit. fold tk in Hbit.
  rewrite full_split in Hi. rewrite half_split.
  pose proof (Z.div_mod i tk ltac:(lia)) as Hdiv.
  pose proof (Z.mod_pos_bound i tk Htk) as Hr.
  pose proof (Z.div_mod (i `div` tk) 2 ltac:(lia)) as Hdiv2.
  rewrite Hbit in Hdiv2.
  set (q := (i `div` tk) `div` 2) in *.
  exists (q * tk + i `mod` tk).
  assert (Hq : (q * tk + i `mod` tk) `div` tk = q)
    by (symmetry; apply Z.div_unique with (r := i `mod` tk); lia).
  assert (Hm : (q * tk + i `mod` tk) `mod` tk = i `mod` tk)
    by (symmetry; apply Z.mod_unique with (q := q); lia).
  assert (0 ≤ i `div` tk) by (apply Z.div_pos; lia).
  assert (q < pow2 new_global) by nia.
  split; [nia | ].
  unfold insert_zero_bit. fold tk. rewrite Hq, Hm. lia.
Qed.
End SwapIndices.

Section SwapLoop.
Context {A : Type}.

Lemma swap_cells_eq tk i (piece0 piece1 : list A) a b :
  read piece0 (i + tk) = Some a → read piece1 i = Some b →
  swap_cells tk i (piece0, piece1)
  = Some (<[Z.to_nat (i + tk) := b]> piece0, <[Z.to_nat i := a]> piece1).
Proof.
  intros Ha Hb. unfold swap_cells. rewrite Ha, Hb. simpl.
  pose proof (read_is_Some _ _ (mk_is_Some _ _ Ha)).
  pose proof (read_is_Some _ _ (mk_is_Some _ _ Hb)).
  by rewrite !write_in_bounds by done.
Qed.

(** Invariant of the swap loop over a duplicate-free list of indices
    [i] with [i] and [i + tk] inside the pieces. *)
Lemma swap_loop_invariant (tk len : Z) (L : list Z) :
  NoDup L → (∀ i, i ∈ L → 0 ≤ i ∧ i + tk < len) → 0 ≤ tk →
  ∀ piece0 piece1 : list A,
    Z.of_nat (length piece0) = len → Z.of_nat (length piece1) = len →
    ∃ piece0' piece1',
      for_each (swap_cells tk) L (piece0, piece1) = Some (piece0', piece1')
      ∧ length piece0' = length piece0 ∧ length piece1' = length piece1
      ∧ (∀ j, (∀ i, i ∈ L → j ≠ i + tk) →
              read piece0' j = read piece0 j)
      ∧ (∀ j, j ∉ L → read piece1' j = read piece1 j)
      ∧ (∀ i, i ∈ L → read piece0' (i + tk) = read piece1 i
                      ∧ read piece1' i = read piece0 (i + tk)).
Proof.
  induction 1 as [ | i L Hi Hnd IH]; intros Hin Htk piece0 piece1 Hl0 Hl1;
    cbn [for_each].
  { exists piece0, piece1. repeat (split; [done | ]).
    intros i Hi. by apply elem_of_nil in Hi. }
  destruct (Hin i) as [Hi0 Hi1]; [left | ].
  destruct (read_in_bounds piece0 (i + tk)) as [a Ha]; [lia | ].
  destruct (read_in_bounds piece1 i) as [b Hb]; [lia | ].
  rewrite (swap_cells_eq tk i piece0 piece1 a b) by done. simpl.
  assert (HinL : ∀ i', i' ∈ L → 0 ≤ i' ∧ i' + tk < len)
    by (intros; apply Hin; by right).
  destruct (IH HinL Htk
              (<[Z.to_nat (i + tk) := b]> piece0)
              (<[Z.to_nat i := a]> piece1))
    as (piece0' & piece1' & Hrun & Hl0' & Hl1' & Hout0 & Hout1 & Hswap);
    [by rewrite length_insert | by rewrite length_insert | ].
  rewrite length_insert in Hl0', Hl1'.
  exists piece0', piece1'. repeat (split; [done | ]).
  assert (HiL : ∀ i', i' ∈ L → i ≠ i') by (intros i' ? ->; done).
  split; [ | split].
  - intros j Hj. rewrite Hout0.
    + apply read_insert_ne; [lia | ]. intros Heq. by apply (Hj i); [left | ].
    + intros i' Hi'. apply Hj. by right.
  - intros j [Hne HjL]%not_elem_of_cons. rewrite Hout1 by done.
    apply read_insert_ne; [lia | done].
  - intros i' [-> | Hi']%elem_of_cons.
    + rewrite Hout0, Hout1
        by (done || intros i' Hi' ?; apply (HiL i' Hi'); lia).
      rewrite !read_insert_eq by lia. by rewrite Ha, Hb.
    + destruct (Hswap i' Hi') as [-> ->].
      specialize (HiL i' Hi').
      by rewrite !read_insert_ne by lia.
Qed.

Lemma SwapPiecesFunctor_spec (piece0 piece1 : list A) new_global nqubits :
  0 ≤ new_global < nqubits →
  Z.of_nat (length piece0) = pow2 nqubits →
  Z.of_nat (length piece1) = pow2 nqubits →
  ∃ piece0' piece1',
    SwapPiecesFunctor piece0 piece1 new_global nqubits
    = Some (piece0', piece1')
    ∧ length piece0' = length piece0 ∧ length piece1' = length piece1
    ∧ ∀ j, 0 ≤ j < pow2 nqubits →
           read piece0' j = swap_spec0 nqubits new_global piece0 piece1 j
           ∧ read piece1' j = swap_spec1 nqubits new_global piece0 piece1 j.
Proof.
  intros Hng Hl0 Hl1.
  set (m := nqubits - new_global - 1). set (tk := pow2 m).
  assert (Hok : gate_call_ok nqubits new_global []).
  { split; [done | ]. split; [constructor | ].
    split; [constructor | apply not_elem_of_nil]. }
  assert (Hclear : ∀ i, controls_clear nqubits [] i = true) by done.
  unfold SwapPiecesFunctor. fold m.
  rewrite !shl_1 by (unfold m; lia). simpl. fold tk.
  rewrite (for_each_indexed _ (insert_zero_bit m))
    by (intros; apply swap_index_eq; unfold m; lia).
  set (L := insert_zero_bit m <$> seqZ 0 (pow2 (nqubits - 1))).
  assert (HL : ∀ i, i ∈ L ↔ is_base nqubits new_global i).
  { intros i. unfold L. rewrite list_elem_of_fmap.
    setoid_rewrite elem_of_seqZ. split.
    - intros (g & -> & Hg). apply insert_zero_bit_base; [done | lia].
    - intros (g & Hg & ->)%insert_zero_bit_surj; [ | done].
      exists g. split; [done | lia]. }
  assert (Hbounds : ∀ i, is_base nqubits new_global i →
            0 ≤ i ∧ i + tk < pow2 nqubits
            ∧ qubit_bit nqubits new_global (i + tk) = true).
  { intros i Hi.
    pose proof (pair_in_bounds _ _ _ Hok i Hi (Hclear i)) as Hb.
    pose proof (i2_target_bit _ _ _ Hok i Hi (Hclear i)) as Hbit.
    simpl in Hb, Hbit. rewrite Z.add_0_r in Hb, Hbit.
    split; [apply Hi | ]. split; [apply Hb | done]. }
  destruct (swap_loop_invariant tk (pow2 nqubits) L)
    with (piece0 := piece0) (piece1 := piece1)
    as (piece0' & piece1' & Hrun & Hl0' & Hl1' & Hout0 & Hout1 & Hswap);
    [ | | | done | done | ].
  { apply NoDup_fmap_2; [ | apply NoDup_seqZ].
    intros g g'. by apply insert_zero_bit_inj. }
  { intros i Hi%HL. destruct (Hbounds i Hi) as (? & ? & _). lia. }
  { apply Z.lt_le_incl, pow2_pos. unfold m. lia. }
  exists piece0', piece1'. repeat (split; [done | ]).
  intros j Hj. unfold swap_spec0, swap_spec1. fold m tk.
  destruct (qubit_bit nqubits new_global j) eqn:Hbit.
  - destruct (pair_of_index _ _ _ Hok j Hj) as (i & Hi & _ & Hji);
      [done | ].
    rewrite Hbit in Hji. simpl in Hji. rewrite Z.add_0_r in Hji.
    fold m tk in Hji. subst j. split.
    + replace (i + tk - tk) with i by lia. by apply Hswap, HL.
    + apply Hout1. intros [_ Hbase]%HL. congruence.
  - assert (HjL : j ∈ L) by (by apply HL).
    split; [ | by apply Hswap].
    apply Hout0. intros i Hi%HL ->.
    destruct (Hbounds i Hi) as (_ & _ & ?). congruence.
Qed.
End SwapLoop.

Lemma mapM_total {A B} (f : A → option B) (F : A → B) (l : list A) :
  (∀ x, x ∈ l → f x = Some (F x)) → mapM f l = Some (F <$> l).
Proof.
  induction l as [ | x l IH]; intros Hf; simpl; [done | ].
  rewrite Hf by left. simpl. rewrite IH; [done | ].
  intros. apply Hf. by right.
Qed.

(** C3, as the interface table states it, fails: with nqubits = 1 and
    new_global = 0 the only iteration accesses piece0[1], and 1 is not
    below 2^(nqubits-1) = 1; on pieces of that length the call is
    undefined. *)
Lemma SwapPieces_half_length_out_of_bounds :
  swap_accesses 0 1 = Some [(1, 0)]
  ∧ ¬ (1 < pow2 (1 - 1))
  ∧ SwapPiecesFunctor [10] [20] 0 1 = None.
Proof. split; [done | ]. split; [vm_compute; discriminate | done]. Qed.

(** C3, amended.  For pieces of length 2^nqubits each and
    0 <= new_global < nqubits, every access of the swap loop (piece0[i+tk]
    and piece1[i] for the 2^(nqubits-1) values of g) has its index in
    [0, 2^nqubits): the call is defined. *)
Theorem SwapPieces_accesses_in_bounds {A} (piece0 piece1 : list A)
    new_global nqubits :
  0 ≤ new_global < nqubits →
  Z.of_nat (length piece0) = pow2 nqubits →
  Z.of_nat (length piece1) = pow2 nqubits →
  (∃ accesses,
      swap_accesses new_global nqubits = Some accesses
      ∧ Z.of_nat (length accesses) = pow2 (nqubits - 1)
      ∧ Forall (λ '(j0, j1), 0 ≤ j0 < Z.of_nat (length piece0)
                             ∧ 0 ≤ j1 < Z.of_nat (length piece1)) accesses)
  ∧ is_Some (SwapPiecesFunctor piece0 piece1 new_global nqubits).
Proof.
  intros Hng Hl0 Hl1. split.
  - set (m := nqubits - new_global - 1).
    exists ((λ g, (insert_zero_bit m g + pow2 m, insert_zero_bit m g))
              <$> seqZ 0 (pow2 (nqubits - 1))).
    split; [ | split].
    + unfold swap_accesses. fold m. rewrite !shl_1 by (unfold m; lia).
      simpl. apply mapM_total. intros g _.
      by rewrite swap_index_eq by (unfold m; lia).
    + rewrite length_fmap, length_seqZ.
      pose proof (pow2_pos (nqubits - 1)). lia.
    + apply list.Forall_forall.
      intros [j0 j1] (g & [= -> ->] & Hg%elem_of_seqZ)%list_elem_of_fmap.
      pose proof (insert_zero_bit_base _ _ Hng g ltac:(lia)) as Hbase.
      fold m in Hbase.
      assert (Hok : gate_call_ok nqubits new_global []).
      { split; [done | ]. split; [constructor | ].
        split; [constructor | apply not_elem_of_nil]. }
      pose proof (pair_in_bounds _ _ _ Hok _ Hbase eq_refl) as Hb.
      simpl in Hb. rewrite Z.add_0_r in Hb. fold m in Hb.
      destruct Hbase as [? _]. lia.
  - destruct (SwapPiecesFunctor_spec piece0 piece1 new_global nqubits)
      as (piece0' & piece1' & -> & _); done.
Qed.

(** C5.  For pieces of the length the kernel indexes (2^nqubits) and
    0 <= new_global < nqubits, two calls in a row with the same
    new_global give back the two pieces exactly. *)
Theorem SwapPieces_self_inverse {A} (piece0 piece1 : list A)
    new_global nqubits :
  0 ≤ new_global < nqubits →
  Z.of_nat (length piece0) = pow2 nqubits →
  Z.of_nat (length piece1) = pow2 nqubits →
  SwapPiecesFunctor piece0 piece1 new_global nqubits
  ≫= (λ pieces, SwapPiecesFunctor pieces.1 pieces.2 new_global nqubits)
  = Some (piece0, piece1).
Proof.
  intros Hng Hl0 Hl1.
  destruct (SwapPiecesFunctor_spec piece0 piece1 new_global nqubits)
    as (q0 & q1 & -> & Hq0 & Hq1 & Hread); [done.. | ]. simpl.
  destruct (SwapPiecesFunctor_spec q0 q1 new_global nqubits)
    as (r0 & r1 & -> & Hr0 & Hr1 & Hread'); [done | lia | lia | ].
  assert (Hok : gate_call_ok nqubits new_global []).
  { split; [done | ]. split; [constructor | ].
    split; [constructor | apply not_elem_of_nil]. }
  set (tk := pow2 (nqubits - new_global - 1)).
  assert (Hcell : ∀ j, 0 ≤ j < pow2 nqubits →
            read r0 j = read piece0 j ∧ read r1 j = read piece1 j).
  { intros j Hj. destruct (Hread' j Hj) as [-> ->].
    unfold swap_spec0, swap_spec1. fold tk.
    destruct (pair_of_index _ _ _ Hok j Hj eq_refl) as (i & Hi & _ & Hji).
    simpl in Hji. rewrite Z.add_0_r in Hji. fold tk in Hji.
    pose proof (pair_in_bounds _ _ _ Hok i Hi eq_refl) as Hb.
    pose proof (i2_target_bit _ _ _ Hok i Hi eq_refl) as Hbit2.
    simpl in Hb, Hbit2. rewrite Z.add_0_r in Hb, Hbit2.
    fold tk in Hb, Hbit2. fold (qubit_bit nqubits new_global (i + tk)) in Hbit2.
    destruct Hi as [Hi Hbit1].
    destruct (qubit_bit nqubits new_global j) eqn:Hbit; subst j.
    - replace (i + tk - tk) with i by lia.
      destruct (Hread i Hi) as [_ ->].
      destruct (Hread (i + tk) ltac:(lia)) as [_ ->].
      unfold swap_spec1. fold tk. by rewrite Hbit1, Hbit2.
    - destruct (Hread i Hi) as [-> _].
      destruct (Hread (i + tk) ltac:(lia)) as [-> _].
      unfold swap_spec0. fold tk. rewrite Hbit1, Hbit2.
      by replace (i + tk - tk) with i by lia. }
  f_equal. f_equal; apply buffer_ext; try congruence.
  - intros j Hj. apply Hcell. lia.
  - intros j Hj. apply Hcell. lia.
Qed.

(** ** StateTransposer *)

(** A loop that stores [f q] in cell [q] for each [q] of a duplicate-free
    range fills exactly those cells. *)
Lemma for_each_fill {A} (body : Z → list A → option (list A))
    (f : Z → option A) (l : list Z) :
  NoDup l →
  ∀ buf,
    (∀ q, q ∈ l → 0 ≤ q < Z.of_nat (length buf) ∧ is_Some (f q)
                  ∧ ∀ b, body q b = v ← f q; write b q v) →
    ∃ buf', for_each body l buf = Some buf'
            ∧ length buf' = length buf
            ∧ (∀ q, q ∈ l → read buf' q = f q)
            ∧ (∀ j, j ∉ l → read buf' j = read buf j).
Proof.
  induction 1 as [ | q l Hq Hnd IH]; intros buf Hbody; cbn [for_each].
  { exists buf. repeat (split; [done | ]). split; [ | done].
    intros q Hq. by apply elem_of_nil in Hq. }
  destruct (Hbody q) as (Hrange & [v Hv] & Heq); [left | ].
  rewrite Heq, Hv. simpl. rewrite write_in_bounds by done. simpl.
  destruct (IH (<[Z.to_nat q := v]> buf)) as (buf' & Hrun & Hlen & Hin & Hout).
  { intros q' Hq'. rewrite length_insert. apply Hbody. by right. }
  rewrite length_insert in Hlen.
  exists buf'. repeat (split; [done | ]). split.
  - intros q' [-> | Hq']%elem_of_cons; [ | by apply Hin].
    rewrite Hout, Hv by done. by apply read_insert_eq.
  - intros j [Hne HjL]%not_elem_of_cons. rewrite Hout by done.
    apply read_insert_ne; [lia | done].
Qed.

Section TransposeIndices.
Variables (nqubits : Z) (qubit_order : list Z).
Hypothesis Hn : 0 ≤ nqubits.
Hypothesis Hperm : qubit_order ≡ₚ seqZ 0 nqubits.

Local Lemma order_length : Z.of_nat (length qubit_order) = nqubits.
Proof. rewrite Hperm, length_seqZ. lia. Qed.

Local Lemma order_range j :
  0 ≤ j < nqubits → 0 ≤ qubit_order !!! Z.to_nat j < nqubits.
Proof.
  intros Hj. pose proof order_length.
  assert (Hall : ∀ c, c ∈ qubit_order → 0 ≤ c < nqubits).
  { intros c Hc. rewrite Hperm in Hc. apply elem_of_seqZ in Hc. lia. }
  apply Hall, list_elem_of_lookup_total_2. lia.
Qed.

Local Lemma order_inj j j' :
  0 ≤ j < nqubits → 0 ≤ j' < nqubits →
  qubit_order !!! Z.to_nat j = qubit_order !!! Z.to_nat j' → j = j'.
Proof.
  intros Hj Hj' Heq. pose proof order_length.
  assert (Hnd : NoDup qubit_order) by (rewrite Hperm; apply NoDup_seqZ).
  assert (Z.to_nat j = Z.to_nat j'); [ | lia].
  eapply NoDup_lookup; [exact Hnd | | ].
  - apply list_lookup_lookup_total_lt. lia.
  - rewrite Heq. apply list_lookup_lookup_total_lt. lia.
Qed.

Lemma qubit_exponents_eq :
  ∃ exps, qubit_exponents nqubits qubit_order = Some exps
          ∧ ∀ q, 0 ≤ q < nqubits →
                 read exps q = Some (qubit_exponent nqubits qubit_order q).
Proof.
  pose proof order_length as Hlen.
  destruct (for_each_fill
              (λ q exps, qo ← read qubit_order (nqubits - q - 1);
                         e ← shl 1 (nqubits - qo - 1); write exps q e)
              (λ q, Some (qubit_exponent nqubits qubit_order q))
              (seqZ 0 nqubits) (NoDup_seqZ _ _)
              (replicate (Z.to_nat nqubits) 0))
    as (exps & Hrun & _ & Hin & _).
  - intros q Hq%elem_of_seqZ. rewrite length_replicate.
    split; [lia | ]. split; [done | ]. intros b.
    assert (Hread : read qubit_order (nqubits - q - 1)
                    = Some (qubit_order !!! Z.to_nat (nqubits - q - 1))).
    { apply read_Some. split; [lia | ].
      apply list_lookup_lookup_total_lt. lia. }
    rewrite Hread. simpl.
    pose proof (order_range (nqubits - q - 1) ltac:(lia)).
    by rewrite shl_1 by lia.
  - exists exps. split; [done | ]. intros q Hq. apply Hin, elem_of_seqZ. lia.
Qed.

Lemma source_index_eq exps g :
  0 ≤ g →
  (∀ q, 0 ≤ q < nqubits →
        read exps q = Some (qubit_exponent nqubits qubit_order q)) →
  source_index nqubits exps g = Some (source_of nqubits qubit_order g).
Proof.
  intros Hg Hexps. unfold source_index, source_of.
  assert (Hloop : ∀ l k,
            (∀ q, q ∈ l → 0 ≤ q < nqubits) →
            for_each (λ q k, b ← shr g q;
                             if b `rem` 2 =? 0 then Some k
                             else e ← read exps q; Some (k + e)) l k
            = Some (k + foldr (λ q acc,
                                 (if Z.testbit g q
                                  then qubit_exponent nqubits qubit_order q
                                  else 0) + acc) 0 l)).
  { induction l as [ | q l IH]; intros k Hl; simpl; [f_equal; lia | ].
    destruct (Hl q) as [Hq0 Hq1]; [left | ].
    unfold shr. destruct (Z.leb_spec 0 q); [ | lia]. simpl.
    rewrite shiftr_rem_testbit by done.
    destruct (Z.testbit g q); simpl.
    - rewrite Hexps by done. simpl. rewrite IH.
      + f_equal. lia.
      + intros. apply Hl. by right.
    - rewrite IH.
      + f_equal.
      + intros. apply Hl. by right. }
  rewrite Hloop; [done | ]. intros q Hq%elem_of_seqZ. lia.
Qed.

Lemma source_of_weights g :
  source_of nqubits qubit_order g
  = weights_sum nqubits (selected nqubits qubit_order g).
Proof.
  unfold source_of, selected. generalize (seqZ 0 nqubits) as l.
  induction l as [ | q l IH]; simpl; [done | ].
  rewrite IH, filter_cons. unfold qubit_exponent.
  destruct (Z.testbit g q) eqn:Hbit.
  - rewrite decide_True by done. by rewrite fmap_cons.
  - by rewrite decide_False by congruence.
Qed.

Lemma elem_of_selected g c :
  c ∈ selected nqubits qubit_order g
  ↔ ∃ j, 0 ≤ j < nqubits ∧ c = qubit_order !!! Z.to_nat j
         ∧ Z.testbit g (nqubits - j - 1) = true.
Proof.
  unfold selected. rewrite list_elem_of_fmap.
  setoid_rewrite list_elem_of_filter. setoid_rewrite elem_of_seqZ. split.
  - intros (q & -> & Hbit & Hq). exists (nqubits - q - 1).
    split; [lia | ]. split; [done | ].
    by replace (nqubits - (nqubits - q - 1) - 1) with q by lia.
  - intros (j & Hj & -> & Hbit). exists (nqubits - j - 1).
    split; [ | split; [done | lia]].
    by replace (nqubits - (nqubits - j - 1) - 1) with j by lia.
Qed.

Lemma selected_NoDup g : NoDup (selected nqubits qubit_order g).
Proof.
  unfold selected. apply NoDup_fmap_2_strong.
  - intros q q' [_ Hq%elem_of_seqZ]%list_elem_of_filter
      [_ Hq'%elem_of_seqZ]%list_elem_of_filter Heq.
    apply order_inj in Heq; lia.
  - apply NoDup_filter, NoDup_seqZ.
Qed.

Lemma selected_range g :
  Forall (λ c, 0 ≤ c < nqubits) (selected nqubits qubit_order g).
Proof.
  apply list.Forall_forall. intros c (j & Hj & -> & _)%elem_of_selected.
  by apply order_range.
Qed.

(** The source index lies in the state. *)
Lemma source_of_range g : 0 ≤ source_of nqubits qubit_order g < pow2 nqubits.
Proof.
  rewrite source_of_weights. split; [apply weights_sum_nonneg | ].
  apply bits_bounded; [done | apply weights_sum_nonneg | ].
  intros p Hp. rewrite weights_sum_bits.
  - apply bool_decide_eq_false. intros Hin.
    pose proof (selected_range g) as Hr.
    eapply list.Forall_forall in Hr; [ | exact Hin]. simpl in Hr. lia.
  - apply selected_NoDup.
  - eapply list.Forall_impl; [apply selected_range | ]. simpl. lia.
Qed.

(** The bit of qubit [qubit_order[j]] in the source index is the bit of
    position [j] (from the most significant) in [g]. *)
Lemma source_of_bits g j :
  0 ≤ j < nqubits →
  qubit_bit nqubits (qubit_order !!! Z.to_nat j)
            (source_of nqubits qubit_order g)
  = qubit_bit nqubits j g.
Proof.
  intros Hj. unfold qubit_bit. rewrite source_of_weights.
  pose proof (order_range j Hj).
  rewrite weights_sum_bits.
  - replace (nqubits - (nqubits - qubit_order !!! Z.to_nat j - 1) - 1)
      with (qubit_order !!! Z.to_nat j) by lia.
    destruct (Z.testbit g (nqubits - j - 1)) eqn:Hbit.
    + apply bool_decide_eq_true, elem_of_selected. eauto.
    + apply bool_decide_eq_false.
      intros (j' & Hj' & Heq & Hbit')%elem_of_selected.
      apply order_inj in Heq; [ | done | done]. subst j'. congruence.
  - apply selected_NoDup.
  - eapply list.Forall_impl; [apply selected_range | ]. simpl. lia.
Qed.
End TransposeIndices.

(** C2.  For ndevices pieces, each of length npiece = 2^n / ndevices
    (ndevices divides 2^n), a destination of length 2^n and a qubit order
    that is a permutation of 0..n-1: the call returns, and for every
    output index g in [0, 2^n) the cell transposed_state[g] holds
    state[k / npiece][k % npiece], where k is the sum of the weights
    2^(n - qubit_order[n-q-1] - 1) over the bits q set in g.  This k is an
    index of the state whose bit for qubit qubit_order[j] is the bit of g
    at position j: the amplitude whose index under the new ordering is g. *)
Theorem TransposeState_output {A} (state : list (list A))
    (transposed_state : list A) nqubits ndevices qubit_order :
  0 ≤ nqubits → 0 < ndevices → (ndevices | pow2 nqubits) →
  let npiece := pow2 nqubits `quot` ndevices in
  Z.of_nat (length state) = ndevices →
  Forall (λ piece, Z.of_nat (length piece) = npiece) state →
  Z.of_nat (length transposed_state) = pow2 nqubits →
  qubit_order ≡ₚ seqZ 0 nqubits →
  ∃ out,
    TransposeStateFunctor state transposed_state nqubits ndevices qubit_order
    = Some out
    ∧ length out = length transposed_state
    ∧ ∀ g, 0 ≤ g < pow2 nqubits →
           let k := source_of nqubits qubit_order g in
           0 ≤ k < pow2 nqubits
           ∧ (∃ piece v, read state (k `quot` npiece) = Some piece
                         ∧ read piece (k `rem` npiece) = Some v
                         ∧ read out g = Some v)
           ∧ ∀ j, 0 ≤ j < nqubits →
                  qubit_bit nqubits (qubit_order !!! Z.to_nat j) k
                  = qubit_bit nqubits j g.
Proof.
  intros Hn Hdev [c Hc] npiece Hstate Hpieces Hout Hperm.
  assert (Hnpiece : npiece = c)
    by (unfold npiece; rewrite Hc; apply Z.quot_mul; lia).
  pose proof (pow2_pos nqubits Hn) as Hpos.
  assert (Hc0 : 0 < npiece) by nia.
  destruct (qubit_exponents_eq nqubits qubit_order Hn Hperm)
    as (exps & Hexps & Hread).
  set (f := λ g, let k := source_of nqubits qubit_order g in
                 piece ← read state (k `quot` npiece);
                 read piece (k `rem` npiece)).
  assert (Hf : ∀ g, ∃ piece v,
             read state (source_of nqubits qubit_order g `quot` npiece)
             = Some piece
             ∧ read piece (source_of nqubits qubit_order g `rem` npiece)
               = Some v
             ∧ f g = Some v).
  { intros g. unfold f. simpl.
    pose proof (source_of_range nqubits qubit_order Hn Hperm g) as Hk.
    set (k := source_of nqubits qubit_order g) in *.
    rewrite Z.quot_div_nonneg, Z.rem_mod_nonneg by lia.
    pose proof (Z.mod_pos_bound k npiece Hc0).
    assert (0 ≤ k `div` npiece < ndevices).
    { split; [apply Z.div_pos; lia | ].
      apply Z.div_lt_upper_bound; [done | ]. nia. }
    destruct (read_in_bounds state (k `div` npiece)) as [piece Hp]; [lia | ].
    assert (Hlen : Z.of_nat (length piece) = npiece).
    { apply read_Some in Hp as [_ Hp].
      apply list_elem_of_lookup_2 in Hp.
      by eapply list.Forall_forall in Hpieces. }
    destruct (read_in_bounds piece (k `mod` npiece)) as [v Hv]; [lia | ].
    exists piece, v. by rewrite Hp. }
  unfold TransposeStateFunctor. rewrite shl_1 by done. simpl.
  rewrite (idiv_nonzero (pow2 nqubits) ndevices) by lia. simpl.
  fold npiece. rewrite Hexps. simpl.
  destruct (for_each_fill
              (λ g transposed_state,
                 k ← source_index nqubits exps g;
                 d ← idiv k npiece;
                 r ← imod k npiece;
                 piece ← read state d;
                 v ← read piece r;
                 write transposed_state g v)
              f (seqZ 0 (pow2 nqubits)) (NoDup_seqZ _ _) transposed_state)
    as (out & Hrun & Hlen & Hin & _).
  - intros g Hg%elem_of_seqZ. split; [lia | ]. split.
    + destruct (Hf g) as (piece & v & _ & _ & ->). done.
    + intros b.
      rewrite (source_index_eq nqubits qubit_order exps g) by (done || lia).
      simpl. rewrite idiv_nonzero, imod_nonzero by lia. simpl.
      unfold f. simpl. by destruct (read state _).
  - exists out. split; [exact Hrun | ]. split; [done | ].
    intros g Hg. split; [by apply source_of_range | ]. split.
    + destruct (Hf g) as (piece & v & Hp & Hv & Hfg).
      exists piece, v. split; [done | ]. split; [done | ].
      rewrite Hin by (apply elem_of_seqZ; lia). done.
    + intros j Hj. by apply source_of_bits.
Qed.

(** ** Unsupported execution target *)

(** C9.  On the GPU device each of the three [Compute] methods returns
    with the status "unimplemented" and with the context otherwise
    unchanged: the input buffers keep their contents and no output is
    set.  The functor is not run: the result does not depend on it. *)
Theorem Compute_GPU_unimplemented {T} `{Amplitude T}
    (ag : OpKernelContext (@ApplyGateInputs T) (list T))
    (ts : OpKernelContext (@TransposeStateInputs T) (list T))
    (sp : OpKernelContext (@SwapPiecesInputs T) (list T * list T))
    (nqubits ndevices target : Z) (qubit_order : list Z) :
  ApplyGateOp_Compute GPUDevice ag
  = Some (mkContext (inputs ag) (outputs ag)
            (Unimplemented "ApplyGate operator not implemented for GPU."))
  ∧ TransposeStateOp_Compute GPUDevice nqubits ndevices qubit_order ts
    = Some (mkContext (inputs ts) (outputs ts)
              (Unimplemented
                 "TransposeStateOp operator not implemented for GPU."))
  ∧ SwapPiecesOp_Compute GPUDevice nqubits target sp
    = Some (mkContext (inputs sp) (outputs sp)
              (Unimplemented "SwapPiecesOp operator not implemented for GPU.")).
Proof.
  destruct ag as [[[[[state gate] n] t] controls] out st].
  destruct ts as [[pieces dest] out' st'].
  destruct sp as [[piece0 piece1] out'' st''].
  repeat split.
Qed.

(** ** The order of the windows *)

(** Any dispatch order of the windows gives the state of the ascending
    order: the windows update disjoint cells. *)
Lemma ApplyGate_schedule_independent {T} `{Amplitude T} order
    (state : list T) gate nqubits target controls :
  Z.of_nat (length state) = pow2 nqubits →
  gate_call_ok nqubits target controls →
  order ≡ₚ shards (pow2 nqubits) (2 * pow2 (nqubits - target - 1)) →
  ApplyGateFunctor_in order state gate nqubits target controls
  = ApplyGateFunctor state gate nqubits target controls.
Proof.
  intros Hlen Hok Hperm.
  destruct (ApplyGateFunctor_in_spec gate _ _ _ Hok order state Hperm Hlen)
    as (state1 & -> & Hlen1 & Hread1).
  destruct (ApplyGateFunctor_spec state gate _ _ _ Hok Hlen)
    as (state2 & -> & Hlen2 & Hread2).
  f_equal. apply buffer_ext; [congruence | ].
  intros j Hj. rewrite Hread1, Hread2 by lia. done.
Qed.

(** ** Instances of the theorems on concrete calls *)

Local Ltac call_ok :=
  unfold gate_call_ok;
  repeat first
    [ lia
    | apply not_elem_of_nil
    | match goal with
      | |- _ ∧ _ => split
      | |- Forall _ _ => constructor
      | |- NoDup _ => constructor
      | |- _ ∉ _ :: _ => apply not_elem_of_cons
      end ].

Local Ltac three_qubits q Hq :=
  assert (q = 0 ∨ q = 1 ∨ q = 2) as [-> | [-> | ->]] by lia;
  vm_compute; (split; [intros; lia || congruence | intros; reflexivity])
              || (split; [intros ? ?; discriminate | intros Hne; lia]).

Lemma basis_pair_6_7 : basis_pair 3 2 6 7.
Proof.
  split; [ | reflexivity]. split; [unfold pow2; lia | ].
  split; [unfold pow2; lia | ]. intros q Hq. three_qubits q Hq.
Defined.

Lemma differ_only_in_2_3 : differ_only_in 3 2 2 3.
Proof.
  split; [unfold pow2; lia | ].
  split; [unfold pow2; lia | ]. intros q Hq. three_qubits q Hq.
Defined.

(** The windows of a call on three qubits, in descending order. *)
Lemma windows_target_2 :
  [6; 4; 2; 0] ≡ₚ shards (pow2 3) (2 * pow2 (3 - 2 - 1)).
Proof. apply (reverse_Permutation [0; 2; 4; 6]). Defined.

Lemma windows_target_1 : [4; 0] ≡ₚ shards (pow2 3) (2 * pow2 (3 - 1 - 1)).
Proof. apply (reverse_Permutation [0; 4]). Defined.

Lemma ApplyGate_pair_update_per_window_witness :
  ∃ state' old1 old2,
    read state_ramp 6 = Some old1 ∧ read state_ramp 7 = Some old2
    ∧ ApplyGateFunctor_in [6; 4; 2; 0] state_ramp pauli_y 3 2 [0]
      = Some state'
    ∧ read state' 6 = Some (g0 pauli_y * old1 + g1 pauli_y * old2)%A
    ∧ read state' 7 = Some (g2 pauli_y * old1 + g3 pauli_y * old2)%A.
Proof.
  apply (ApplyGate_pair_update_per_window [6; 4; 2; 0] state_ramp pauli_y
           3 2 [0] 6 7);
    [reflexivity | call_ok | exact windows_target_2
     | exact basis_pair_6_7 | reflexivity].
Defined.

(** C1.  The pair update of the claim is not what the kernel does on a
    pool of one thread, which runs the whole index space [0, 2^n) as one
    chunk: [DoWork] does not read its limit [w] and covers the lower
    half [0, tk) of the first window only.  On [state_ramp] with the
    Pauli Y gate, target 2 and control 0, the pair (6, 7) meets the
    conditions of the claim; the single call [DoWork(0, 8)] updates the
    pair (4, 5) and returns, and cells 6 and 7 keep their old amplitudes
    (7, 3) and (8, 0) instead of -i * (8, 0) and i * (7, 3). *)
Theorem ApplyGate_single_chunk_misses_pair :
  chunks_cover 0 (pow2 3) [(0, pow2 3)] = true
  ∧ Z.of_nat (length state_ramp) = pow2 3
  ∧ gate_call_ok 3 2 [0]
  ∧ basis_pair 3 2 6 7
  ∧ controls_set 3 [0] 6 = true
  ∧ ∃ state' old1 old2,
      read state_ramp 6 = Some old1 ∧ read state_ramp 7 = Some old2
      ∧ ApplyGateFunctor_chunks [(0, pow2 3)] state_ramp pauli_y 3 2 [0]
        = Some state'
      ∧ state' = [(1, 0); (2, 1); (3, 0); (4, -1);
                  (0, -6); (-2, 5); (7, 3); (8, 0)]
      ∧ read state' 6 ≠ Some (g0 pauli_y * old1 + g1 pauli_y * old2)%A
      ∧ read state' 7 ≠ Some (g2 pauli_y * old1 + g3 pauli_y * old2)%A.
Proof.
  split; [reflexivity | ]. split; [reflexivity | ]. split; [call_ok | ].
  split; [exact basis_pair_6_7 | ]. split; [reflexivity | ].
  exists [(1, 0); (2, 1); (3, 0); (4, -1); (0, -6); (-2, 5); (7, 3); (8, 0)],
    (7, 3), (8, 0).
  repeat split; try reflexivity; vm_compute; discriminate.
Qed.

Lemma ApplyGate_frame_witness :
  ∃ state',
    ApplyGateFunctor state_ramp pauli_y 3 2 [0] = Some state'
    ∧ read state' 2 = read state_ramp 2
    ∧ read state' 3 = read state_ramp 3.
Proof.
  apply (ApplyGate_frame state_ramp pauli_y 3 2 [0] 2 3);
    [reflexivity | call_ok | exact differ_only_in_2_3 | reflexivity].
Defined.

Lemma ApplyGate_controls_order_witness :
  ∃ state',
    ApplyGateFunctor state_ramp pauli_y 3 2 [0; 1] = Some state'
    ∧ ApplyGateFunctor state_ramp pauli_y 3 2 [1; 0] = Some state'.
Proof.
  apply (ApplyGate_controls_order state_ramp pauli_y 3 2 [0; 1] [1; 0]);
    [reflexivity | call_ok | apply perm_swap].
Defined.

Lemma ApplyGate_pairs_in_bounds_disjoint_witness :
  let tk := pow2 (3 - 2 - 1) in
  let cks := (control_weights 3 [0]).1 in
  let cktot := (control_weights 3 [0]).2 in
  let bases := all_bases 3 2 (shards (pow2 3) (2 * tk)) in
  (∀ i, i ∈ bases → apply_flag i cks = Some true →
        0 ≤ i + cktot ∧ i + cktot < i + cktot + tk
        ∧ i + cktot + tk < pow2 3)
  ∧ (∀ i i', i ∈ bases → i' ∈ bases →
             apply_flag i cks = Some true → apply_flag i' cks = Some true →
             i ≠ i' →
             i + cktot ≠ i' + cktot ∧ i + cktot ≠ i' + cktot + tk
             ∧ i + cktot + tk ≠ i' + cktot
             ∧ i + cktot + tk ≠ i' + cktot + tk).
Proof. apply (ApplyGate_pairs_in_bounds_disjoint 3 2 [0]). call_ok. Defined.

Lemma pauli_y_unitary : unitary pauli_y.
Proof. reflexivity. Defined.

Lemma ApplyGate_preserves_norm_witness :
  ∃ state',
    ApplyGateFunctor state_ramp pauli_y 3 2 [0] = Some state'
    ∧ norm2 state' = norm2 state_ramp.
Proof.
  apply (ApplyGate_preserves_norm state_ramp pauli_y 3 2 [0]);
    [reflexivity | call_ok | exact pauli_y_unitary].
Defined.

Lemma ApplyGate_dagger_inverse_witness :
  ApplyGateFunctor state_ramp pauli_y 3 2 [0]
  ≫= (λ state1, ApplyGateFunctor state1 (dagger pauli_y) 3 2 [0])
  = Some state_ramp.
Proof.
  apply (ApplyGate_dagger_inverse state_ramp pauli_y 3 2 [0]);
    [reflexivity | call_ok | exact pauli_y_unitary].
Defined.

Lemma TransposeState_output_witness :
  ∃ out,
    TransposeStateFunctor [[10; 11]; [12; 13]] [0; 0; 0; 0] 2 2 [1; 0]
    = Some out
    ∧ length out = length [0; 0; 0; 0]
    ∧ ∀ g, 0 ≤ g < pow2 2 →
           let k := source_of 2 [1; 0] g in
           0 ≤ k < pow2 2
           ∧ (∃ piece v,
                 read [[10; 11]; [12; 13]] (k `quot` (pow2 2 `quot` 2))
                 = Some piece
                 ∧ read piece (k `rem` (pow2 2 `quot` 2)) = Some v
                 ∧ read out g = Some v)
           ∧ ∀ j, 0 ≤ j < 2 →
                  qubit_bit 2 ([1; 0] !!! Z.to_nat j) k = qubit_bit 2 j g.
Proof.
  apply (TransposeState_output [[10; 11]; [12; 13]] [0; 0; 0; 0] 2 2 [1; 0]);
    [lia | lia | by exists 2 | reflexivity | repeat constructor
     | reflexivity | apply perm_swap].
Defined.

Lemma SwapPieces_accesses_in_bounds_witness :
  (∃ accesses,
      swap_accesses 0 2 = Some accesses
      ∧ Z.of_nat (length accesses) = pow2 (2 - 1)
      ∧ Forall (λ '(j0, j1),
                  0 ≤ j0 < Z.of_nat (length [10; 11; 12; 13])
                  ∧ 0 ≤ j1 < Z.of_nat (length [20; 21; 22; 23])) accesses)
  ∧ is_Some (SwapPiecesFunctor [10; 11; 12; 13] [20; 21; 22; 23] 0 2).
Proof.
  apply (SwapPieces_accesses_in_bounds [10; 11; 12; 13] [20; 21; 22; 23] 0 2);
    [lia | reflexivity | reflexivity].
Defined.

Lemma SwapPieces_self_inverse_witness :
  SwapPiecesFunctor [10; 11; 12; 13] [20; 21; 22; 23] 1 2
  ≫= (λ pieces, SwapPiecesFunctor pieces.1 pieces.2 1 2)
  = Some ([10; 11; 12; 13], [20; 21; 22; 23]).
Proof.
  apply (SwapPieces_self_inverse [10; 11; 12; 13] [20; 21; 22; 23] 1 2);
    [lia | reflexivity | reflexivity].
Defined.

(** ** Exact complex amplitudes *)

Lemma hadamard_unitary : unitary ComplexR.hadamard.
Proof.
  assert (Hsq : (/ sqrt 2 * / sqrt 2 = / 2)%R).
  { rewrite <- Rinv_mult. f_equal. apply sqrt_sqrt. lra. }
  unfold unitary, gmul, dagger, gid, ComplexR.hadamard. simpl.
  unfold ComplexR.mul, ComplexR.add, ComplexR.conj. simpl.
  f_equal; f_equal; nra.
Qed.

(** Over the exact complex numbers, a Hadamard gate followed by its
    conjugate transpose restores any state. *)
Corollary hadamard_dagger_inverse (state : list ComplexR.t)
    nqubits target controls :
  Z.of_nat (length state) = pow2 nqubits →
  gate_call_ok nqubits target controls →
  ApplyGateFunctor state ComplexR.hadamard nqubits target controls
  ≫= (λ state1, ApplyGateFunctor state1 (dagger ComplexR.hadamard)
                                 nqubits target controls)
  = Some state.
Proof.
  intros Hlen Hok.
  rewrite ApplyGate_compose by done.
  rewrite (unitary_dagger_left _ hadamard_unitary).
  by apply ApplyGate_identity.
Qed.

(** * Further properties of the kernels *)

(** ** GateApplicator: what the controls and the gate entries do *)

Section GateFurther.
Context {T : Type} `{Amplitude T}.
Implicit Types (state : list T) (gate : Gate T).

Add Ring amplitude_ring'' : amp_ring.

Lemma target_only_ok nqubits target controls :
  gate_call_ok nqubits target controls → gate_call_ok nqubits target [].
Proof.
  intros (Ht & _). split; [done | ]. split; [constructor | ].
  split; [constructor | apply not_elem_of_nil].
Qed.

(** When every window of 2*tk indices is handed to [DoWork] in a call
    of its own, in any order, the controls only select the cells on
    which the gate acts: a cell whose control bits are all 1 gets the
    value that the call without controls gives it, every other cell
    keeps its value. *)
Theorem ApplyGate_controls_select order order' state gate nqubits target
    controls :
  Z.of_nat (length state) = pow2 nqubits →
  gate_call_ok nqubits target controls →
  order ≡ₚ shards (pow2 nqubits) (2 * pow2 (nqubits - target - 1)) →
  order' ≡ₚ shards (pow2 nqubits) (2 * pow2 (nqubits - target - 1)) →
  ∃ controlled plain,
    ApplyGateFunctor_in order state gate nqubits target controls
    = Some controlled
    ∧ ApplyGateFunctor_in order' state gate nqubits target [] = Some plain
    ∧ length controlled = length state
    ∧ ∀ j, 0 ≤ j < pow2 nqubits →
           read controlled j
           = if controls_set nqubits controls j
             then read plain j else read state j.
Proof.
  intros Hlen Hok Hperm Hperm'.
  destruct (ApplyGateFunctor_in_spec gate _ _ _ Hok order state Hperm Hlen)
    as (controlled & Hrun & Hlenc & Hread).
  destruct (ApplyGateFunctor_in_spec gate _ _ _ (target_only_ok _ _ _ Hok)
              order' state Hperm' Hlen)
    as (plain & Hrun' & _ & Hread').
  exists controlled, plain. repeat (split; [done | ]).
  intros j Hj. rewrite Hread, Hread' by done. unfold gate_spec. simpl.
  by destruct (controls_set nqubits controls j).
Qed.

(** When every window of 2*tk indices is handed to [DoWork] in a call
    of its own, in any order, a diagonal gate (gate[1] = gate[2] = 0)
    multiplies each selected cell by gate[0] or gate[3], according to the
    target bit of its index, and mixes no two cells. *)
Theorem ApplyGate_diagonal order state gate nqubits target controls :
  Z.of_nat (length state) = pow2 nqubits →
  gate_call_ok nqubits target controls →
  order ≡ₚ shards (pow2 nqubits) (2 * pow2 (nqubits - target - 1)) →
  g1 gate = 0%A → g2 gate = 0%A →
  ∃ state',
    ApplyGateFunctor_in order state gate nqubits target controls
    = Some state'
    ∧ ∀ j, 0 ≤ j < pow2 nqubits →
           read state' j
           = if controls_set nqubits controls j
             then x ← read state j;
                  Some ((if qubit_bit nqubits target j
                         then g3 gate else g0 gate) * x)%A
             else read state j.
Proof.
  intros Hlen Hok Hperm Hg1 Hg2.
  destruct (ApplyGateFunctor_in_spec gate _ _ _ Hok order state Hperm Hlen)
    as (state' & Hrun & _ & Hread).
  exists state'. split; [done | ]. intros j Hj. rewrite Hread by done.
  destruct (controls_set nqubits controls j) eqn:Hset.
  - destruct (pair_of_index _ _ _ Hok j Hj Hset) as (i & Hb & Hc & Hji).
    destruct (gate_spec_pair state _ _ _ i Hok Hlen Hb Hc)
      as (a & b & Ha & Hb2 & Hspec).
    destruct (qubit_bit nqubits target j); subst j.
    + rewrite (proj2 (Hspec gate)), Hb2. simpl. f_equal.
      unfold new2. rewrite Hg2. ring.
    + rewrite (proj1 (Hspec gate)), Ha. simpl. f_equal.
      unfold new1. rewrite Hg1. ring.
  - unfold gate_spec. by rewrite Hset.
Qed.

(** The identity gate (1, 0, 0, 1) leaves the state as it is, for any
    valid target and controls. *)
Theorem ApplyGate_identity_gate state nqubits target controls :
  Z.of_nat (length state) = pow2 nqubits →
  gate_call_ok nqubits target controls →
  ApplyGateFunctor state gid nqubits target controls = Some state.
Proof. intros Hlen Hok. by apply ApplyGate_identity. Qed.

(** Two calls on the same target and controls, first with [gate] and
    then with [gate'], both return, and the final state is the one that a
    single call with the matrix product [gate' * gate] returns. *)
Theorem ApplyGate_product state gate gate' nqubits target controls :
  Z.of_nat (length state) = pow2 nqubits →
  gate_call_ok nqubits target controls →
  ∃ state1 state2,
    ApplyGateFunctor state gate nqubits target controls = Some state1
    ∧ ApplyGateFunctor state1 gate' nqubits target controls = Some state2
    ∧ ApplyGateFunctor state (gmul gate' gate) nqubits target controls
      = Some state2.
Proof.
  intros Hlen Hok.
  pose proof (ApplyGate_compose state gate gate' _ _ _ Hlen Hok) as Hcomp.
  destruct (ApplyGateFunctor_spec state gate _ _ _ Hok Hlen)
    as (state1 & Hrun1 & Hlen1 & _).
  destruct (ApplyGateFunctor_spec state1 gate' _ _ _ Hok)
    as (state2 & Hrun2 & _); [lia | ].
  rewrite Hrun1 in Hcomp. simpl in Hcomp. rewrite Hrun2 in Hcomp.
  exists state1, state2. auto.
Qed.
End GateFurther.

(** ** GateApplicator: calls outside the preconditions *)

Lemma sorted_head_zero (s : list Z) :
  StronglySorted Z.lt s → 0 ∈ s → (∀ q, q ∈ s → 0 ≤ q) →
  ∃ rest, s = 0 :: rest.
Proof.
  intros Hs H0 Hnn. destruct s as [ | z s]; [by apply elem_of_nil in H0 | ].
  apply StronglySorted_inv in Hs as [_ Hz].
  apply elem_of_cons in H0 as [<- | H0]; [by exists s | ].
  eapply list.Forall_forall in Hz; [ | exact H0].
  specialize (Hnn z ltac:(left)). lia.
Qed.

(** The first index that the first window visits is 0. *)
Lemma all_bases_head nqubits target :
  0 ≤ target < nqubits →
  ∃ rest,
    all_bases nqubits target
      (shards (pow2 nqubits) (2 * pow2 (nqubits - target - 1)))
    = 0 :: rest.
Proof.
  intros Ht. unfold all_bases, shards. rewrite num_shards_eq by done.
  pose proof (pow2_pos target ltac:(lia)).
  pose proof (pow2_pos (nqubits - target - 1) ltac:(lia)).
  rewrite seqZ_cons by done. rewrite fmap_cons, bind_cons, Z.mul_0_l.
  rewrite (seqZ_cons 0 (pow2 (nqubits - target - 1))) by done.
  eexists. reflexivity.
Qed.

Section GateOutside.
Context {T : Type} `{Amplitude T}.
Implicit Types (state : list T) (gate : Gate T).

(** A control index that is not below [nqubits] has weight
    [(int64) pow(2, negative)] = 0; the set [cks] then starts with 0 and
    the first eligibility test divides by zero: the call is undefined,
    whatever the state and the other controls are. *)
Theorem ApplyGate_control_out_of_range state gate nqubits target controls c :
  0 ≤ target < nqubits → c ∈ controls → nqubits ≤ c →
  ApplyGateFunctor state gate nqubits target controls = None.
Proof.
  intros Ht Hc Hge.
  change (ApplyGateFunctor state gate nqubits target controls)
    with (ApplyGateFunctor_in
            (shards (pow2 nqubits) (2 * pow2 (nqubits - target - 1)))
            state gate nqubits target controls).
  rewrite ApplyGateFunctor_in_unfold.
  destruct (all_bases_head nqubits target Ht) as [rest ->].
  destruct (sorted_head_zero (control_weights nqubits controls).1)
    as [cks' Hcks].
  - apply cks_sorted.
  - apply elem_of_cks. exists c. split; [done | ].
    unfold pow2. rewrite Z.pow_neg_r; [done | lia].
  - intros q (c' & _ & ->)%elem_of_cks. unfold pow2. apply Z.pow_nonneg. lia.
  - rewrite Hcks. reflexivity.
Qed.
End GateOutside.

Lemma write_length {A} (buf buf' : list A) i v :
  write buf i v = Some buf' → length buf' = length buf.
Proof.
  unfold write. destruct (_ && _); [ | done].
  intros [= <-]. apply length_insert.
Qed.

(** The loop over [cks] accepts an index whose bits are clear at the
    positions of all the weights. *)
Lemma apply_flag_clear i (cks : list Z) :
  0 ≤ i →
  (∀ q, q ∈ cks → ∃ p, 0 ≤ p ∧ q = pow2 p ∧ Z.testbit i p = false) →
  apply_flag i cks = Some true.
Proof.
  intros Hi. induction cks as [ | q cks IH]; intros Hcks; simpl; [done | ].
  destruct (Hcks q) as (p & Hp & -> & Hbit); [left | ].
  pose proof (pow2_pos p Hp). rewrite idiv_nonzero by lia. simpl.
  rewrite quot_rem_testbit, Hbit by done. simpl.
  apply IH. intros. apply Hcks. by right.
Qed.

(** A loop stops with an undefined result as soon as one of its
    iterations is undefined on every state of the current length. *)
Lemma for_each_undefined {A I} (body : I → list A → option (list A))
    (l : list I) (i : I) (len : nat) :
  (∀ j s s', body j s = Some s' → length s' = length s) →
  i ∈ l → (∀ s, length s = len → body i s = None) →
  ∀ s, length s = len → for_each body l s = None.
Proof.
  intros Hlen Hi Hnone. induction l as [ | j l IH]; intros s Hs; simpl.
  { by apply elem_of_nil in Hi. }
  apply elem_of_cons in Hi as [<- | Hi]; [by rewrite Hnone | ].
  destruct (body j s) as [s' | ] eqn:Hbody; simpl; [ | done].
  apply IH; [done | ]. apply Hlen in Hbody. congruence.
Qed.

Section GateOutsideBounds.
Context {T : Type} `{Amplitude T}.
Implicit Types (state : list T) (gate : Gate T).

Lemma DoWork_body_length gate tk cks cktot i state state' :
  DoWork_body gate tk cks cktot i state = Some state' →
  length state' = length state.
Proof.
  unfold DoWork_body. destruct (apply_flag i cks) as [[ | ] | ]; simpl;
    [ | by intros [= <-] | done].
  unfold update_pair.
  destruct (read state (i + cktot)) as [a | ]; simpl; [ | done].
  destruct (read state (i + cktot + tk)) as [b | ]; simpl; [ | done].
  destruct (write state (i + cktot) _) as [s1 | ] eqn:Hw1; simpl; [ | done].
  destruct (read s1 (i + cktot + tk)) as [b' | ]; simpl; [ | done].
  intros Hw2%write_length. apply write_length in Hw1. congruence.
Qed.

(** A negative control index has a weight of at least 2^nqubits: index 0
    passes the eligibility test and the kernel reads state[cktot], past
    the end of the state. *)
Theorem ApplyGate_control_negative state gate nqubits target controls c :
  0 ≤ target < nqubits →
  Z.of_nat (length state) = pow2 nqubits →
  Forall (λ c, c < nqubits) controls → c ∈ controls → c < 0 →
  ApplyGateFunctor state gate nqubits target controls = None.
Proof.
  intros Ht Hlen Hlt Hc Hneg.
  change (ApplyGateFunctor state gate nqubits target controls)
    with (ApplyGateFunctor_in
            (shards (pow2 nqubits) (2 * pow2 (nqubits - target - 1)))
            state gate nqubits target controls).
  rewrite ApplyGateFunctor_in_unfold.
  destruct (all_bases_head nqubits target Ht) as [rest ->].
  apply (for_each_undefined _ _ 0 (length state)); [ | left | | done].
  { intros j s s'. apply DoWork_body_length. }
  intros s Hs. unfold DoWork_body.
  rewrite apply_flag_clear; [ | done | ].
  - simpl. unfold update_pair.
    assert (Hbig : pow2 nqubits ≤ weights_sum nqubits controls).
    { clear Hlt. induction controls as [ | c' cs IH];
        [by apply elem_of_nil in Hc | ].
      simpl. pose proof (weights_sum_nonneg nqubits cs).
      assert (0 ≤ pow2 (nqubits - c' - 1))
        by (unfold pow2; apply Z.pow_nonneg; lia).
      apply elem_of_cons in Hc as [<- | Hc]; [ | specialize (IH Hc); lia].
      assert (pow2 nqubits ≤ pow2 (nqubits - c - 1)); [ | lia].
      unfold pow2. apply Z.pow_le_mono_r; lia. }
    destruct (read s (0 + weights_sum nqubits controls)) eqn:Hread;
      [ | done].
    apply mk_is_Some, read_is_Some in Hread. lia.
  - intros q (c' & Hc' & ->)%elem_of_cks.
    eapply list.Forall_forall in Hlt; [ | exact Hc'].
    exists (nqubits - c' - 1). split; [lia | ]. split; [done | ].
    apply Z.bits_0.
Qed.

(** A control equal to the target breaks the pairing: the base whose
    other bits are all 1 passes the eligibility test and its partner
    index i2 = 2^nqubits - 1 + tk lies past the end of the state.  That
    base is in the last window: the call is undefined when every window
    of 2*tk indices is handed to [DoWork], in any order. *)
Theorem ApplyGate_target_among_controls order state gate nqubits target
    controls :
  0 ≤ target < nqubits →
  Z.of_nat (length state) = pow2 nqubits →
  Forall (λ c, 0 ≤ c < nqubits) controls → NoDup controls →
  target ∈ controls →
  order ≡ₚ shards (pow2 nqubits) (2 * pow2 (nqubits - target - 1)) →
  ApplyGateFunctor_in order state gate nqubits target controls = None.
Proof.
  intros Ht Hlen Hrange Hnd Htc Hperm.
  set (tk := pow2 (nqubits - target - 1)).
  set (cktot := weights_sum nqubits controls).
  set (cks := (control_weights nqubits controls).1).
  assert (Hn : 0 ≤ nqubits) by lia.
  assert (Hlt : Forall (λ c, c < nqubits) controls).
  { eapply list.Forall_impl; [exact Hrange | ]. simpl. lia. }
  assert (Hck : ∀ p, Z.testbit cktot p
                     = bool_decide (nqubits - p - 1 ∈ controls))
    by (intros; by apply weights_sum_bits).
  assert (Hsub : ∀ q, 0 ≤ q → Z.testbit cktot q = true →
                      Z.testbit (Z.ones nqubits) q = true).
  { intros q Hq. rewrite Hck. intros Hin%bool_decide_eq_true.
    eapply list.Forall_forall in Hrange; [ | exact Hin].
    apply Z.ones_spec_low. lia. }
  set (i := Z.ones nqubits - cktot).
  assert (Hbits : ∀ p, Z.testbit i p
                       = Z.testbit (Z.ones nqubits) p
                         && negb (bool_decide (nqubits - p - 1 ∈ controls))).
  { intros p. unfold i. by rewrite testbit_sub_subset, Hck. }
  pose proof (weights_sum_nonneg nqubits controls) as Hnn. fold cktot in Hnn.
  assert (Hones : Z.ones nqubits = pow2 nqubits - 1)
    by (rewrite Z.ones_equiv; unfold pow2; lia).
  assert (Hi0 : 0 ≤ i).
  { replace i with (Z.ldiff (Z.ones nqubits) cktot).
    - apply Z.ldiff_nonneg. left. rewrite Hones.
      pose proof (pow2_pos nqubits Hn). lia.
    - apply Z.bits_inj'. intros p _. unfold i.
      by rewrite testbit_sub_subset, Z.ldiff_spec. }
  assert (Hbase : is_base nqubits target i).
  { split; [unfold i; lia | ]. unfold qubit_bit. rewrite Hbits.
    apply andb_false_intro2, negb_false_iff, bool_decide_eq_true.
    by replace (nqubits - (nqubits - target - 1) - 1) with target by lia. }
  rewrite ApplyGateFunctor_in_unfold. fold tk cktot cks.
  apply (for_each_undefined _ _ i (length state)); [ | | | done].
  - intros j s s'. apply DoWork_body_length.
  - by apply elem_of_all_bases.
  - intros s Hs. unfold DoWork_body. rewrite apply_flag_clear; [ | done | ].
    + simpl. unfold update_pair.
      destruct (read s (i + cktot)); simpl; [ | done].
      destruct (read s (i + cktot + tk)) eqn:Hread; [ | done].
      apply mk_is_Some, read_is_Some in Hread.
      pose proof (pow2_pos (nqubits - target - 1) ltac:(lia)).
      fold tk in H0. unfold i in Hread. lia.
    + intros q (c & Hc & ->)%elem_of_cks.
      pose proof Hc as Hcr.
      eapply list.Forall_forall in Hcr; [ | exact Hrange]. simpl in Hcr.
      exists (nqubits - c - 1). split; [lia | ]. split; [done | ].
      rewrite Hbits. apply andb_false_intro2, negb_false_iff.
      apply bool_decide_eq_true.
      by replace (nqubits - (nqubits - c - 1) - 1) with c by lia.
Qed.
End GateOutsideBounds.

(** ** PieceSwapper: what the exchange does to the sharded state *)

Lemma read_app {A} (l1 l2 : list A) (i : Z) :
  0 ≤ i →
  read (l1 ++ l2) i
  = if i <? Z.of_nat (length l1) then read l1 i
    else read l2 (i - Z.of_nat (length l1)).
Proof.
  intros Hi. unfold read. destruct (Z.leb_spec 0 i); [ | lia].
  destruct (Z.ltb_spec i (Z.of_nat (length l1))).
  - apply lookup_app_l. lia.
  - destruct (Z.leb_spec 0 (i - Z.of_nat (length l1))); [ | lia].
    rewrite lookup_app_r by lia. f_equal. lia.
Qed.

(** Flipping a clear bit [a] and a set bit [b]. *)
Lemma lxor_flip G a b :
  0 ≤ a → 0 ≤ b → Z.testbit G a = false → Z.testbit G b = true →
  Z.lxor G (Z.lor (pow2 a) (pow2 b)) = G - pow2 b + pow2 a.
Proof.
  intros Ha Hb Hbita Hbitb.
  assert (Hsub : ∀ p, Z.testbit (G - pow2 b) p
                      = Z.testbit G p && negb (bool_decide (b = p))).
  { intros p. rewrite testbit_sub_subset, testbit_pow2; [done | done | ].
    intros q _. rewrite testbit_pow2 by done.
    by intros <-%bool_decide_eq_true. }
  apply Z.bits_inj'. intros p _.
  rewrite Z.lxor_spec, Z.lor_spec, !testbit_pow2 by done.
  rewrite testbit_add_disjoint.
  - rewrite Hsub, testbit_pow2 by done.
    repeat case_bool_decide; subst; rewrite ?Hbita, ?Hbitb; simpl;
      try done; try congruence; by destruct (Z.testbit G p).
  - intros q _. rewrite Hsub, testbit_pow2 by done.
    intros [Hq _]%andb_true_iff. apply bool_decide_eq_false.
    intros <-. congruence.
Qed.

Section SwapFurther.
Context {A : Type}.

Lemma swap_cells_permutation tk i (piece0 piece1 : list A) pieces' :
  swap_cells tk i (piece0, piece1) = Some pieces' →
  pieces'.1 ++ pieces'.2 ≡ₚ piece0 ++ piece1.
Proof.
  destruct (read piece0 (i + tk)) as [a | ] eqn:Ha;
    [ | by unfold swap_cells; rewrite Ha].
  destruct (read piece1 i) as [b | ] eqn:Hb;
    [ | by unfold swap_cells; rewrite Ha, Hb].
  rewrite (swap_cells_eq tk i piece0 piece1 a b) by done.
  intros [= <-]. simpl.
  apply read_Some in Ha as [_ Ha]. apply read_Some in Hb as [_ Hb].
  rewrite !insert_take_drop by (by eapply lookup_lt_Some).
  rewrite <- (take_drop_middle piece0 _ a Ha) at 3.
  rewrite <- (take_drop_middle piece1 _ b Hb) at 3.
  solve_Permutation.
Qed.

(** No amplitude is lost or duplicated: the two pieces keep their
    lengths, and together they hold the same amplitudes as before, with
    the same multiplicities. *)
Theorem SwapPieces_keeps_amplitudes (piece0 piece1 : list A)
    new_global nqubits :
  0 ≤ new_global < nqubits →
  Z.of_nat (length piece0) = pow2 nqubits →
  Z.of_nat (length piece1) = pow2 nqubits →
  ∃ piece0' piece1',
    SwapPiecesFunctor piece0 piece1 new_global nqubits
    = Some (piece0', piece1')
    ∧ length piece0' = length piece0 ∧ length piece1' = length piece1
    ∧ piece0' ++ piece1' ≡ₚ piece0 ++ piece1.
Proof.
  intros Hng Hl0 Hl1.
  destruct (SwapPiecesFunctor_spec piece0 piece1 new_global nqubits)
    as (piece0' & piece1' & Hrun & Hl0' & Hl1' & _); [done.. | ].
  exists piece0', piece1'. repeat (split; [done | ]).
  revert Hrun. unfold SwapPiecesFunctor.
  rewrite !shl_1 by lia. simpl.
  apply (for_each_invariant
           (λ pieces : list A * list A,
              pieces.1 ++ pieces.2 ≡ₚ piece0 ++ piece1)); [ | done].
  intros g [s0 s1] s' Hs.
  destruct (swap_index _ _ g) as [i | ]; simpl; [ | done].
  intros Hstep%swap_cells_permutation. by rewrite Hstep.
Qed.

(** The two pieces are the halves of a state of nqubits + 1 qubits whose
    leading bit selects the piece.  The call exchanges that bit with bit
    nqubits - new_global - 1 of the index: the amplitude found at index
    [G] of piece0' ++ piece1' is the one that piece0 ++ piece1 holds at
    [G] with the two bits exchanged. *)
Theorem SwapPieces_exchanges_bits (piece0 piece1 : list A)
    new_global nqubits :
  0 ≤ new_global < nqubits →
  Z.of_nat (length piece0) = pow2 nqubits →
  Z.of_nat (length piece1) = pow2 nqubits →
  ∃ piece0' piece1',
    SwapPiecesFunctor piece0 piece1 new_global nqubits
    = Some (piece0', piece1')
    ∧ ∀ G, 0 ≤ G < pow2 (nqubits + 1) →
           read (piece0' ++ piece1') G
           = read (piece0 ++ piece1)
                  (exchange_bits nqubits (nqubits - new_global - 1) G).
Proof.
  intros Hng Hl0 Hl1.
  destruct (SwapPiecesFunctor_spec piece0 piece1 new_global nqubits)
    as (piece0' & piece1' & Hrun & Hl0' & Hl1' & Hread); [done.. | ].
  exists piece0', piece1'. split; [done | ]. intros G HG.
  set (m := nqubits - new_global - 1). set (tk := pow2 m).
  assert (Hok : gate_call_ok nqubits new_global []).
  { split; [done | ]. split; [constructor | ].
    split; [constructor | apply not_elem_of_nil]. }
  assert (Hdouble : pow2 (nqubits + 1) = 2 * pow2 nqubits).
  { unfold pow2. rewrite Z.pow_add_r by lia. lia. }
  pose proof (pow2_pos nqubits ltac:(lia)) as Hpos.
  pose proof (pow2_pos m ltac:(unfold m; lia)) as Htk. fold tk in Htk.
  assert (Htkn : tk < pow2 nqubits)
    by (unfold tk, pow2, m; apply Z.pow_lt_mono_r; lia).
  assert (Htop : ∀ j, 0 ≤ j < pow2 nqubits →
            Z.testbit j nqubits = false
            ∧ Z.testbit (j + pow2 nqubits) nqubits = true
            ∧ Z.testbit (j + pow2 nqubits) m = Z.testbit j m).
  { intros j Hj.
    assert (Hjn : Z.testbit j nqubits = false)
      by (apply (bounded_bits nqubits); [done | lia]).
    split; [done | ].
    assert (Hadd : ∀ p, Z.testbit (j + pow2 nqubits) p
                        = Z.testbit j p || bool_decide (nqubits = p)).
    { intros p. rewrite testbit_add_disjoint, testbit_pow2; [done | lia | ].
      intros q _ Hq. rewrite testbit_pow2 by lia.
      apply bool_decide_eq_false. intros <-. congruence. }
    rewrite !Hadd, Hjn. simpl. split; [by apply bool_decide_eq_true | ].
    rewrite bool_decide_eq_false_2 by (unfold m; lia).
    apply orb_false_r. }
  rewrite read_app by lia. rewrite Hl0', Hl0.
  unfold exchange_bits. fold m.
  destruct (Z.ltb_spec G (pow2 nqubits)) as [Hlow | Hhigh].
  - (* a cell of piece0 *)
    destruct (Htop G ltac:(lia)) as (Hn & _).
    destruct (Hread G ltac:(lia)) as [-> _].
    unfold swap_spec0, qubit_bit. fold m tk. rewrite Hn.
    destruct (Z.testbit G m) eqn:Hm; cbn [xorb].
    + assert (tk ≤ G).
      { destruct (decide (tk ≤ G)) as [ | Hlt]; [done | ].
        rewrite (bounded_bits m G m) in Hm; [done | fold tk; lia | lia]. }
      unfold tk. rewrite lxor_flip by (done || unfold m; lia). fold tk.
      rewrite read_app by lia. rewrite Hl0.
      destruct (Z.ltb_spec (G - tk + pow2 nqubits) (pow2 nqubits));
        [lia | ].
      f_equal. lia.
    + rewrite read_app by lia. rewrite Hl0.
      by destruct (Z.ltb_spec G (pow2 nqubits)); [ | lia].
  - (* a cell of piece1 *)
    set (j := G - pow2 nqubits).
    destruct (Htop j ltac:(unfold j; lia)) as (_ & Hn & Hm').
    replace (j + pow2 nqubits) with G in Hn, Hm' by (unfold j; lia).
    destruct (Hread j ltac:(unfold j; lia)) as [_ ->].
    unfold swap_spec1, qubit_bit. fold m tk. rewrite Hn, Hm'.
    destruct (Z.testbit j m) eqn:Hm; cbn [xorb].
    + rewrite read_app by lia. rewrite Hl0.
      destruct (Z.ltb_spec G (pow2 nqubits)); [lia | done].
    + unfold tk.
      rewrite Z.lor_comm, lxor_flip by (done || unfold m; lia || congruence).
      fold tk.
      pose proof (pair_in_bounds _ _ _ Hok j) as Hb.
      simpl in Hb. rewrite Z.add_0_r in Hb. fold m tk in Hb.
      destruct Hb as (_ & _ & Hb);
        [split; [unfold j; lia | done] | done | ].
      rewrite read_app by (unfold j in *; lia). rewrite Hl0.
      destruct (Z.ltb_spec (G - pow2 nqubits + tk) (pow2 nqubits));
        [done | unfold j in *; lia].
Qed.
End SwapFurther.

(** ** StateTransposer: the output as a rearrangement of the pieces *)

(** An index below 2^nqubits is determined by its qubit bits. *)
Lemma qubit_bits_inj nqubits k g :
  0 ≤ k < pow2 nqubits → 0 ≤ g < pow2 nqubits →
  (∀ q, 0 ≤ q < nqubits → qubit_bit nqubits q k = qubit_bit nqubits q g) →
  k = g.
Proof.
  intros Hk Hg Hbits. apply Z.bits_inj'. intros p Hp.
  destruct (decide (p < nqubits)) as [Hlt | Hge].
  - specialize (Hbits (nqubits - p - 1) ltac:(lia)). unfold qubit_bit in Hbits.
    by replace (nqubits - (nqubits - p - 1) - 1) with p in Hbits by lia.
  - by rewrite !(bounded_bits nqubits) by (done || lia).
Qed.

Lemma read_cons_succ {A} (x : A) (l : list A) (i : Z) :
  0 ≤ i → read (x :: l) (i + 1) = read l i.
Proof.
  intros Hi. unfold read.
  destruct (Z.leb_spec 0 (i + 1)), (Z.leb_spec 0 i); try lia.
  by replace (Z.to_nat (i + 1)) with (S (Z.to_nat i)) by lia.
Qed.

Section Pieces.
Context {A : Type}.
Implicit Types (state : list (list A)) (piece : list A).

Lemma concat_uniform_length state npiece :
  Forall (λ piece, Z.of_nat (length piece) = npiece) state →
  Z.of_nat (length (concat state)) = Z.of_nat (length state) * npiece.
Proof.
  induction 1 as [ | piece state Hp _ IH]; simpl; [lia | ].
  rewrite length_app. lia.
Qed.

(** Cell [k] of the sharded state is cell [k] of the concatenation of
    the pieces in device order. *)
Lemma piece_cell_concat state npiece k :
  0 < npiece →
  Forall (λ piece, Z.of_nat (length piece) = npiece) state →
  0 ≤ k →
  piece_cell state npiece k = read (concat state) k.
Proof.
  intros Hnp Hall. revert k.
  induction Hall as [ | piece state Hp _ IH]; intros k Hk.
  - unfold piece_cell, read. simpl.
    pose proof (Z.quot_pos k npiece Hk ltac:(lia)).
    destruct (Z.leb_spec 0 (k `quot` npiece)); [ | lia].
    destruct (Z.leb_spec 0 k); [ | lia]. by rewrite !lookup_nil.
  - simpl. rewrite read_app, Hp by done. unfold piece_cell.
    rewrite Z.quot_div_nonneg, Z.rem_mod_nonneg by lia.
    destruct (Z.ltb_spec k npiece) as [Hlt | Hge].
    + rewrite Z.div_small, Z.mod_small by lia. done.
    + rewrite <- IH by lia. unfold piece_cell.
      rewrite Z.quot_div_nonneg, Z.rem_mod_nonneg by lia.
      assert (Hd : k `div` npiece = (k - npiece) `div` npiece + 1).
      { rewrite <- (Z.div_add (k - npiece) 1 npiece) by lia. f_equal. lia. }
      assert (Hm : k `mod` npiece = (k - npiece) `mod` npiece).
      { rewrite <- (Z.mod_add (k - npiece) 1 npiece) by lia. f_equal. lia. }
      rewrite Hd, Hm.
      pose proof (Z.div_pos (k - npiece) npiece ltac:(lia) Hnp).
      by rewrite read_cons_succ by lia.
Qed.

(** The cells that the kernel writes, in terms of [piece_cell]. *)
Lemma TransposeStateFunctor_cells state (transposed_state : list A)
    nqubits ndevices qubit_order :
  0 ≤ nqubits → 0 < ndevices → (ndevices | pow2 nqubits) →
  let npiece := pow2 nqubits `quot` ndevices in
  Z.of_nat (length state) = ndevices →
  Forall (λ piece, Z.of_nat (length piece) = npiece) state →
  Z.of_nat (length transposed_state) = pow2 nqubits →
  qubit_order ≡ₚ seqZ 0 nqubits →
  0 < npiece
  ∧ ∃ out,
      TransposeStateFunctor state transposed_state nqubits ndevices
                            qubit_order = Some out
      ∧ length out = length transposed_state
      ∧ ∀ g, 0 ≤ g < pow2 nqubits →
             read out g
             = read (concat state) (source_of nqubits qubit_order g).
Proof.
  intros Hn Hdev [c Hc] npiece Hstate Hpieces Hout Hperm.
  assert (Hnpiece : npiece = c)
    by (unfold npiece; rewrite Hc; apply Z.quot_mul; lia).
  pose proof (pow2_pos nqubits Hn) as Hpos.
  assert (Hc0 : 0 < npiece) by nia.
  split; [done | ].
  destruct (qubit_exponents_eq nqubits qubit_order Hn Hperm)
    as (exps & Hexps & Hread).
  pose proof (concat_uniform_length state npiece Hpieces) as Hlenc.
  set (f := λ g, read (concat state) (source_of nqubits qubit_order g)).
  unfold TransposeStateFunctor. rewrite shl_1 by done. simpl.
  rewrite (idiv_nonzero (pow2 nqubits) ndevices) by lia. simpl.
  fold npiece. rewrite Hexps. simpl.
  destruct (for_each_fill
              (λ g transposed_state,
                 k ← source_index nqubits exps g;
                 d ← idiv k npiece;
                 r ← imod k npiece;
                 piece ← read state d;
                 v ← read piece r;
                 write transposed_state g v)
              f (seqZ 0 (pow2 nqubits)) (NoDup_seqZ _ _) transposed_state)
    as (out & Hrun & Hlen & Hin & _).
  - intros g Hg%elem_of_seqZ.
    pose proof (source_of_range nqubits qubit_order Hn Hperm g) as Hk.
    split; [lia | ]. split.
    + apply read_in_bounds. nia.
    + intros b.
      rewrite (source_index_eq nqubits qubit_order exps g) by (done || lia).
      simpl. rewrite idiv_nonzero, imod_nonzero by lia. simpl.
      unfold f. rewrite <- (piece_cell_concat state npiece) by (done || lia).
      unfold piece_cell. by destruct (read state _).
  - exists out. split; [exact Hrun | ]. split; [done | ].
    intros g Hg. apply Hin, elem_of_seqZ. lia.
Qed.
End Pieces.

Section TransposeFurther.
Context {A : Type}.
Implicit Types (state : list (list A)) (transposed_state : list A).

Lemma read_nat (l : list A) (i : nat) : read l (Z.of_nat i) = l !! i.
Proof.
  unfold read. destruct (Z.leb_spec 0 (Z.of_nat i)); [ | lia].
  by rewrite Nat2Z.id.
Qed.

Lemma source_of_inj nqubits qubit_order g g' :
  0 ≤ nqubits → qubit_order ≡ₚ seqZ 0 nqubits →
  0 ≤ g < pow2 nqubits → 0 ≤ g' < pow2 nqubits →
  source_of nqubits qubit_order g = source_of nqubits qubit_order g' →
  g = g'.
Proof.
  intros Hn Hperm Hg Hg' Heq. apply (qubit_bits_inj nqubits); [done.. | ].
  intros q Hq.
  rewrite <- (source_of_bits nqubits qubit_order Hn Hperm g q Hq).
  rewrite <- (source_of_bits nqubits qubit_order Hn Hperm g' q Hq).
  by rewrite Heq.
Qed.

Lemma source_of_identity nqubits g :
  0 ≤ nqubits → 0 ≤ g < pow2 nqubits →
  source_of nqubits (seqZ 0 nqubits) g = g.
Proof.
  intros Hn Hg. apply (qubit_bits_inj nqubits); [ | done | ].
  - by apply source_of_range.
  - intros q Hq.
    rewrite <- (source_of_bits nqubits (seqZ 0 nqubits) Hn
                  (reflexivity _) g q Hq).
    rewrite lookup_total_seqZ_lt by lia. f_equal. lia.
Qed.

(** With the identity qubit order the kernel copies the pieces, in
    device order, into the destination. *)
Theorem TransposeState_identity_order state transposed_state
    nqubits ndevices :
  0 ≤ nqubits → 0 < ndevices → (ndevices | pow2 nqubits) →
  Z.of_nat (length state) = ndevices →
  Forall (λ piece, Z.of_nat (length piece) = pow2 nqubits `quot` ndevices)
         state →
  Z.of_nat (length transposed_state) = pow2 nqubits →
  TransposeStateFunctor state transposed_state nqubits ndevices
                        (seqZ 0 nqubits)
  = Some (concat state).
Proof.
  intros Hn Hdev Hdiv Hstate Hpieces Hout.
  destruct (TransposeStateFunctor_cells state transposed_state nqubits
              ndevices (seqZ 0 nqubits))
    as (Hnp & out & -> & Hlen & Hread); [done.. | ].
  pose proof (concat_uniform_length state _ Hpieces) as Hlenc.
  assert (Hfull : pow2 nqubits
                  = ndevices * (pow2 nqubits `quot` ndevices)).
  { destruct Hdiv as [c Hc]. rewrite Hc at 2.
    rewrite Z.quot_mul by lia. lia. }
  f_equal. apply buffer_ext; [lia | ].
  intros g Hg. rewrite Hread by lia. by rewrite source_of_identity by lia.
Qed.

(** The output holds the amplitudes of the pieces, each exactly once:
    it is a permutation of the concatenated pieces. *)
Theorem TransposeState_permutation state transposed_state
    nqubits ndevices qubit_order :
  0 ≤ nqubits → 0 < ndevices → (ndevices | pow2 nqubits) →
  Z.of_nat (length state) = ndevices →
  Forall (λ piece, Z.of_nat (length piece) = pow2 nqubits `quot` ndevices)
         state →
  Z.of_nat (length transposed_state) = pow2 nqubits →
  qubit_order ≡ₚ seqZ 0 nqubits →
  ∃ out,
    TransposeStateFunctor state transposed_state nqubits ndevices
                          qubit_order = Some out
    ∧ out ≡ₚ concat state.
Proof.
  intros Hn Hdev Hdiv Hstate Hpieces Hout Hperm.
  destruct (TransposeStateFunctor_cells state transposed_state nqubits
              ndevices qubit_order)
    as (Hnp & out & Hrun & Hlen & Hread); [done.. | ].
  exists out. split; [done | ].
  pose proof (concat_uniform_length state _ Hpieces) as Hlenc.
  assert (Hfull : pow2 nqubits
                  = ndevices * (pow2 nqubits `quot` ndevices)).
  { destruct Hdiv as [c Hc]. rewrite Hc at 2.
    rewrite Z.quot_mul by lia. lia. }
  set (src := source_of nqubits qubit_order).
  assert (Hrange : ∀ g, 0 ≤ src g < pow2 nqubits)
    by (intros; by apply source_of_range).
  apply Permutation_inj. split; [lia | ].
  exists (λ i, if decide (Z.of_nat i < pow2 nqubits)
               then Z.to_nat (src (Z.of_nat i)) else i).
  split.
  - intros i i' Heq. specialize (Hrange (Z.of_nat i)) as Hi.
    specialize (Hrange (Z.of_nat i')) as Hi'.
    repeat case_decide; try lia.
    assert (Z.of_nat i = Z.of_nat i'); [ | lia].
    apply (source_of_inj nqubits qubit_order); [done | done | lia | lia | ].
    fold src. lia.
  - intros i. case_decide as Hi.
    + rewrite <- read_nat, Hread by lia. fold src.
      specialize (Hrange (Z.of_nat i)).
      rewrite <- (Z2Nat.id (src (Z.of_nat i))) at 1 by lia.
      apply read_nat.
    + rewrite !lookup_ge_None_2; [done | lia | lia].
Qed.

(** Transposing with a qubit order and then transposing the result, as
    a single piece, with the inverse order gives back the concatenated
    pieces. *)
Theorem TransposeState_round_trip state dest dest' nqubits ndevices
    qubit_order inverse_order :
  0 ≤ nqubits → 0 < ndevices → (ndevices | pow2 nqubits) →
  Z.of_nat (length state) = ndevices →
  Forall (λ piece, Z.of_nat (length piece) = pow2 nqubits `quot` ndevices)
         state →
  Z.of_nat (length dest) = pow2 nqubits →
  Z.of_nat (length dest') = pow2 nqubits →
  qubit_order ≡ₚ seqZ 0 nqubits →
  inverse_order ≡ₚ seqZ 0 nqubits →
  (∀ j, 0 ≤ j < nqubits →
        inverse_order !!! Z.to_nat (qubit_order !!! Z.to_nat j) = j) →
  ∃ out,
    TransposeStateFunctor state dest nqubits ndevices qubit_order = Some out
    ∧ TransposeStateFunctor [out] dest' nqubits 1 inverse_order
      = Some (concat state).
Proof.
  intros Hn Hdev Hdiv Hstate Hpieces Hd Hd' Hperm Hperm' Hinv.
  destruct (TransposeStateFunctor_cells state dest nqubits
              ndevices qubit_order)
    as (Hnp & out & Hrun & Hlen & Hread); [done.. | ].
  exists out. split; [done | ].
  pose proof (pow2_pos nqubits Hn) as Hpos.
  assert (Hq1 : pow2 nqubits `quot` 1 = pow2 nqubits)
    by (rewrite Z.quot_div_nonneg by lia; apply Z.div_1_r).
  destruct (TransposeStateFunctor_cells [out] dest' nqubits 1 inverse_order)
    as (_ & out' & -> & Hlen' & Hread'); try done.
  { apply Z.divide_1_l. }
  { constructor; [ | constructor]. rewrite Hq1. lia. }
  pose proof (concat_uniform_length state _ Hpieces) as Hlenc.
  assert (Hfull : pow2 nqubits
                  = ndevices * (pow2 nqubits `quot` ndevices)).
  { destruct Hdiv as [c Hc]. rewrite Hc at 2.
    rewrite Z.quot_mul by lia. lia. }
  f_equal. apply buffer_ext; [lia | ].
  intros g Hg. rewrite Hread' by lia. simpl. rewrite app_nil_r.
  pose proof (source_of_range nqubits inverse_order Hn Hperm' g) as Hh.
  rewrite Hread by done. f_equal.
  apply (qubit_bits_inj nqubits); [by apply source_of_range | lia | ].
  intros q Hq.
  assert (Hqin : q ∈ qubit_order)
    by (rewrite Hperm; apply elem_of_seqZ; lia).
  apply list_elem_of_lookup_1 in Hqin as [i Hi].
  pose proof (lookup_lt_Some _ _ _ Hi) as Hilt.
  assert (Hlenq : Z.of_nat (length qubit_order) = nqubits)
    by (rewrite Hperm, length_seqZ; lia).
  assert (Hqi : qubit_order !!! Z.to_nat (Z.of_nat i) = q)
    by (rewrite Nat2Z.id; by apply list_lookup_total_correct).
  rewrite <- Hqi.
  rewrite (source_of_bits nqubits qubit_order Hn Hperm) by lia.
  rewrite <- (Hinv (Z.of_nat i)) at 1 by lia.
  rewrite (source_of_bits nqubits inverse_order Hn Hperm')
    by (rewrite Hqi; lia).
  done.
Qed.
End TransposeFurther.

(** ** ApplyGate: gates on different targets *)

Lemma flip_qubit_bit nqubits q t j :
  0 ≤ t < nqubits →
  qubit_bit nqubits q (flip_qubit nqubits t j)
  = xorb (qubit_bit nqubits q j) (bool_decide (q = t)).
Proof.
  intros Ht. unfold qubit_bit, flip_qubit.
  rewrite Z.lxor_spec, testbit_pow2 by lia.
  f_equal. repeat case_bool_decide; lia.
Qed.

Lemma flip_qubit_range nqubits t j :
  0 ≤ t < nqubits → 0 ≤ j < pow2 nqubits →
  0 ≤ flip_qubit nqubits t j < pow2 nqubits.
Proof.
  intros Ht Hj. unfold flip_qubit.
  pose proof (pow2_pos (nqubits - t - 1) ltac:(lia)) as Hpos.
  assert (Hnn : 0 ≤ Z.lxor j (pow2 (nqubits - t - 1)))
    by (apply Z.lxor_nonneg; lia).
  split; [done | ]. apply bits_bounded; [lia | done | ].
  intros p Hp. rewrite Z.lxor_spec, testbit_pow2 by lia.
  rewrite (bounded_bits nqubits j p) by done.
  case_bool_decide; [lia | done].
Qed.

Lemma flip_qubit_comm nqubits t t' j :
  flip_qubit nqubits t (flip_qubit nqubits t' j)
  = flip_qubit nqubits t' (flip_qubit nqubits t j).
Proof.
  unfold flip_qubit. rewrite !Z.lxor_assoc. f_equal. apply Z.lxor_comm.
Qed.

Lemma flip_qubit_controls nqubits t controls j :
  0 ≤ t < nqubits → t ∉ controls →
  controls_set nqubits controls (flip_qubit nqubits t j)
  = controls_set nqubits controls j.
Proof.
  intros Ht Hnot. unfold controls_set.
  induction controls as [ | c controls IH]; [done | ].
  apply not_elem_of_cons in Hnot as [Hne Hnot]. cbn [forallb].
  rewrite IH by done. f_equal.
  rewrite flip_qubit_bit by done.
  rewrite bool_decide_eq_false_2 by congruence. apply xorb_false_r.
Qed.

Lemma flip_qubit_pair nqubits t j :
  0 ≤ t < nqubits →
  flip_qubit nqubits t j
  = if qubit_bit nqubits t j then j - pow2 (nqubits - t - 1)
    else j + pow2 (nqubits - t - 1).
Proof.
  intros Ht. unfold flip_qubit, qubit_bit.
  set (m := nqubits - t - 1). assert (Hm : 0 ≤ m) by (unfold m; lia).
  destruct (Z.testbit j m) eqn:Hbit; apply Z.bits_inj'; intros p _;
    rewrite Z.lxor_spec, testbit_pow2 by done.
  - rewrite testbit_sub_subset, testbit_pow2 by
      (try done; intros q _; rewrite testbit_pow2 by done;
       by intros <-%bool_decide_eq_true).
    case_bool_decide; subst; rewrite ?Hbit; simpl;
      by rewrite ?xorb_false_r, ?andb_true_r.
  - rewrite testbit_add_disjoint, testbit_pow2 by
      (try done; intros q _ Hq; rewrite testbit_pow2 by done;
       apply bool_decide_eq_false; intros <-; congruence).
    case_bool_decide; subst; rewrite ?Hbit; simpl;
      by rewrite ?xorb_false_r, ?orb_false_r.
Qed.

Section GateCommute.
Context {T : Type} `{Amplitude T}.
Implicit Types (state : list T) (gate : Gate T).

Add Ring amplitude_ring_commute : amp_ring.

(** [gate_spec] in terms of the cell and the other cell of its pair. *)
Lemma gate_spec_mix gate nqubits target controls state j a b :
  0 ≤ target < nqubits →
  read state j = Some a →
  read state (flip_qubit nqubits target j) = Some b →
  gate_spec gate nqubits target controls state j
  = Some (if controls_set nqubits controls j
          then mix gate (qubit_bit nqubits target j) a b else a).
Proof.
  intros Ht Ha Hb. unfold gate_spec. cbv zeta.
  rewrite flip_qubit_pair in Hb by done. unfold mix.
  destruct (controls_set nqubits controls j); [ | done].
  destruct (qubit_bit nqubits target j); by rewrite Ha, Hb.
Qed.

Lemma mix_commute gate gate' bit bit' (a b c d : T) :
  mix gate' bit' (mix gate bit a b) (mix gate bit c d)
  = mix gate bit (mix gate' bit' a c) (mix gate' bit' b d).
Proof. destruct bit, bit'; unfold mix, new1, new2; ring. Qed.

(** When in each call every window of 2*tk indices is handed to
    [DoWork] in a call of its own, in any order: two calls on different
    targets, neither target among the controls of the other call, give
    the same state in either order. *)
Theorem ApplyGate_commute order order' state gate gate' nqubits target
    target' controls controls' :
  Z.of_nat (length state) = pow2 nqubits →
  gate_call_ok nqubits target controls →
  gate_call_ok nqubits target' controls' →
  order ≡ₚ shards (pow2 nqubits) (2 * pow2 (nqubits - target - 1)) →
  order' ≡ₚ shards (pow2 nqubits) (2 * pow2 (nqubits - target' - 1)) →
  target ≠ target' → target ∉ controls' → target' ∉ controls →
  ∃ state',
    ApplyGateFunctor_in order state gate nqubits target controls
    ≫= (λ state1,
          ApplyGateFunctor_in order' state1 gate' nqubits target' controls')
    = Some state'
    ∧ ApplyGateFunctor_in order' state gate' nqubits target' controls'
      ≫= (λ state2,
            ApplyGateFunctor_in order state2 gate nqubits target controls)
      = Some state'.
Proof.
  intros Hlen Hok Hok' Hperm Hperm' Hne Hnot Hnot'.
  pose proof (proj1 Hok) as Ht. pose proof (proj1 Hok') as Ht'.
  destruct (ApplyGateFunctor_in_spec gate _ _ _ Hok order state Hperm Hlen)
    as (state1 & -> & Hlen1 & Hread1).
  destruct (ApplyGateFunctor_in_spec gate' _ _ _ Hok' order' state
              Hperm' Hlen)
    as (state2 & -> & Hlen2 & Hread2). simpl.
  destruct (ApplyGateFunctor_in_spec gate' _ _ _ Hok' order' state1 Hperm')
    as (state12 & -> & Hlen12 & Hread12); [lia | ].
  destruct (ApplyGateFunctor_in_spec gate _ _ _ Hok order state2 Hperm)
    as (state21 & -> & Hlen21 & Hread21); [lia | ].
  exists state12. split; [done | ]. f_equal.
  apply buffer_ext; [congruence | ].
  intros j Hj. rewrite Hread12, Hread21 by lia.
  assert (Hjr : 0 ≤ j < pow2 nqubits) by lia.
  pose proof (flip_qubit_range nqubits target j Ht Hjr) as Hr1.
  pose proof (flip_qubit_range nqubits target' j Ht' Hjr) as Hr2.
  pose proof (flip_qubit_range nqubits target _ Ht Hr2) as Hr12.
  destruct (read_in_bounds state j) as [a Ha]; [lia | ].
  destruct (read_in_bounds state (flip_qubit nqubits target j))
    as [b Hb]; [lia | ].
  destruct (read_in_bounds state (flip_qubit nqubits target' j))
    as [c Hc]; [lia | ].
  destruct (read_in_bounds state
              (flip_qubit nqubits target (flip_qubit nqubits target' j)))
    as [d Hd]; [lia | ].
  pose proof Hd as Hd'. rewrite flip_qubit_comm in Hd'.
  pose proof (Hread1 j Hjr) as H1.
  rewrite (gate_spec_mix _ _ _ _ _ _ a b) in H1 by done.
  pose proof (Hread1 _ Hr2) as H1'.
  rewrite (gate_spec_mix _ _ _ _ _ _ c d) in H1' by done.
  rewrite flip_qubit_controls, flip_qubit_bit in H1' by done.
  pose proof (Hread2 j Hjr) as H2.
  rewrite (gate_spec_mix _ _ _ _ _ _ a c) in H2 by done.
  pose proof (Hread2 _ Hr1) as H2'.
  rewrite (gate_spec_mix _ _ _ _ _ _ b d) in H2' by done.
  rewrite flip_qubit_controls, flip_qubit_bit in H2' by done.
  rewrite bool_decide_eq_false_2, xorb_false_r in H1' by congruence.
  rewrite bool_decide_eq_false_2, xorb_false_r in H2' by congruence.
  rewrite (gate_spec_mix _ _ _ _ _ _ _ _ Ht' H1 H1').
  rewrite (gate_spec_mix _ _ _ _ _ _ _ _ Ht H2 H2').
  f_equal.
  destruct (controls_set nqubits controls j),
    (controls_set nqubits controls' j); try done.
  apply mix_commute.
Qed.
End GateCommute.

(** ** ApplyGate: a target outside the register *)

(** At index 0 every quotient is 0: the eligibility loop either divides
    by a zero weight or accepts the index. *)
Lemma apply_flag_zero (cks : list Z) :
  apply_flag 0 cks = None ∨ apply_flag 0 cks = Some true.
Proof.
  induction cks as [ | q cks IH]; simpl; [by right | ].
  unfold idiv. destruct (Z.eqb_spec q 0); [by left | ].
  cbn [mbind option_bind]. by rewrite Z.quot_0_l.
Qed.

Section GateTargetOutside.
Context {T : Type} `{Amplitude T}.
Implicit Types (state : list T) (gate : Gate T).

(** A target index that is not below [nqubits] gives
    tk = [(int64) pow(2, negative)] = 0: the loop of [DoWork] is empty
    and the call returns the state as it was, for any controls whose
    weights and their sum cktot are values of [int64] (so that every
    conversion and sum of the call is defined). *)
Theorem ApplyGate_target_too_large state gate nqubits target controls :
  0 ≤ nqubits < 63 → nqubits ≤ target → int_range target →
  Forall int_range controls →
  int64_range (weights_sum nqubits controls) →
  ApplyGateFunctor state gate nqubits target controls = Some state.
Proof.
  intros Hn Hge _ _ _.
  change (ApplyGateFunctor state gate nqubits target controls)
    with (ApplyGateFunctor_in
            (shards (pow2 nqubits) (2 * pow2 (nqubits - target - 1)))
            state gate nqubits target controls).
  rewrite ApplyGateFunctor_in_unfold.
  assert (Htk : pow2 (nqubits - target - 1) = 0)
    by (unfold pow2; apply Z.pow_neg_r; lia).
  unfold all_bases. rewrite Htk. unfold shards, num_shards. simpl.
  reflexivity.
Qed.

(** A negative target index gives tk >= 2^nqubits: the single window
    starts at index 0, which passes the eligibility test unless a weight
    is zero, and the partner index i2 >= tk lies past the end of the
    state.  The call is undefined either way. *)
Theorem ApplyGate_target_negative state gate nqubits target controls :
  0 ≤ nqubits → target < 0 →
  Z.of_nat (length state) = pow2 nqubits →
  ApplyGateFunctor state gate nqubits target controls = None.
Proof.
  intros Hn Hneg Hlen.
  change (ApplyGateFunctor state gate nqubits target controls)
    with (ApplyGateFunctor_in
            (shards (pow2 nqubits) (2 * pow2 (nqubits - target - 1)))
            state gate nqubits target controls).
  rewrite ApplyGateFunctor_in_unfold.
  set (tk := pow2 (nqubits - target - 1)).
  pose proof (pow2_pos nqubits Hn) as Hpos.
  assert (Htk : pow2 nqubits ≤ tk)
    by (unfold tk, pow2; apply Z.pow_le_mono_r; lia).
  assert (Hbases : ∃ rest, all_bases nqubits target
                             (shards (pow2 nqubits) (2 * tk)) = 0 :: rest).
  { unfold all_bases, shards, num_shards. fold tk.
    replace (pow2 nqubits <=? 2 * tk) with true
      by (symmetry; apply Z.leb_le; lia).
    rewrite orb_true_r. simpl. rewrite app_nil_r.
    rewrite seqZ_cons by lia. by eexists. }
  destruct Hbases as [rest ->].
  apply (for_each_undefined _ _ 0 (length state)); [ | left | | done].
  { intros j s s'. apply DoWork_body_length. }
  intros s Hs. unfold DoWork_body.
  destruct (apply_flag_zero (control_weights nqubits controls).1)
    as [-> | ->]; [done | ].
  simpl. unfold update_pair.
  pose proof (weights_sum_nonneg nqubits controls) as Hnn.
  destruct (read s (0 + weights_sum nqubits controls)); simpl; [ | done].
  destruct (read s (0 + weights_sum nqubits controls + tk)) eqn:Hread;
    [ | done].
  apply mk_is_Some, read_is_Some in Hread. lia.
Qed.
End GateTargetOutside.

(** ** SwapPieces: a global qubit outside the register *)

(** With [new_global] not below [nqubits] the shift count m is negative;
    with a negative [new_global] tk is at least 2^nqubits and the first
    iteration reads piece0[tk], past the end of the piece. *)
Theorem SwapPieces_new_global_out_of_range {A} (piece0 piece1 : list A)
    new_global nqubits :
  0 < nqubits →
  Z.of_nat (length piece0) = pow2 nqubits →
  new_global < 0 ∨ nqubits ≤ new_global →
  SwapPiecesFunctor piece0 piece1 new_global nqubits = None.
Proof.
  intros Hn Hlen [Hneg | Hge]; unfold SwapPiecesFunctor.
  - set (m := nqubits - new_global - 1).
    assert (Hm : nqubits ≤ m) by (unfold m; lia).
    rewrite !shl_1 by lia. simpl.
    pose proof (pow2_pos (nqubits - 1) ltac:(lia)) as Hpos.
    rewrite seqZ_cons by done. simpl.
    unfold swap_index, shr, shl.
    destruct (Z.leb_spec 0 m); [ | lia]. simpl.
    destruct (Z.leb_spec 0 (m + 1)); [ | lia]. simpl.
    rewrite Z.shiftr_0_l, Z.shiftl_0_l. simpl.
    assert (pow2 nqubits ≤ pow2 m)
      by (unfold pow2; apply Z.pow_le_mono_r; lia).
    rewrite Z.land_0_l.
    destruct (read piece0 (0 + 0 + pow2 m)) eqn:Hread; [ | done].
    apply mk_is_Some, read_is_Some in Hread. lia.
  - assert (Hshl : shl 1 (nqubits - new_global - 1) = None).
    { unfold shl.
      by destruct (Z.leb_spec 0 (nqubits - new_global - 1)); [lia | ]. }
    by rewrite Hshl.
Qed.

(** ** TransposeState: calls outside the preconditions *)

Section TransposeOutside.
Context {A : Type}.
Implicit Types (state : list (list A)) (transposed_state : list A).

Lemma qubit_exponents_step_length nqubits qubit_order q
    (exps exps' : list Z) :
  (qo ← read qubit_order (nqubits - q - 1);
   e ← shl 1 (nqubits - qo - 1);
   write exps q e) = Some exps' →
  length exps' = length exps.
Proof.
  destruct (read qubit_order _) as [qo | ]; simpl; [ | done].
  destruct (shl 1 _) as [e | ]; simpl; [ | done].
  apply write_length.
Qed.

(** Without devices the piece length is a division by zero, and a
    negative number of qubits is a negative shift count. *)
Theorem TransposeState_no_devices state transposed_state nqubits ndevices
    qubit_order :
  nqubits < 0 ∨ ndevices = 0 →
  TransposeStateFunctor state transposed_state nqubits ndevices
                        qubit_order = None.
Proof.
  intros [Hn | ->]; unfold TransposeStateFunctor, shl.
  - by destruct (Z.leb_spec 0 nqubits); [lia | ].
  - by destruct (0 <=? nqubits).
Qed.

(** A qubit order with fewer than [nqubits] entries is read past its
    end when the exponents are filled. *)
Theorem TransposeState_order_too_short state transposed_state nqubits
    ndevices qubit_order :
  Z.of_nat (length qubit_order) < nqubits →
  TransposeStateFunctor state transposed_state nqubits ndevices
                        qubit_order = None.
Proof.
  intros Hshort. unfold TransposeStateFunctor.
  destruct (shl 1 nqubits) as [nstates | ]; simpl; [ | done].
  destruct (idiv nstates ndevices) as [npiece | ]; simpl; [ | done].
  assert (Hexps : qubit_exponents nqubits qubit_order = None);
    [ | by rewrite Hexps].
  unfold qubit_exponents. rewrite seqZ_cons by lia. simpl.
  destruct (read qubit_order (nqubits - 0 - 1)) eqn:Hread; [ | done].
  apply mk_is_Some, read_is_Some in Hread. lia.
Qed.

(** An entry of the qubit order that is not below [nqubits] gives a
    negative shift count when its exponent is computed. *)
Theorem TransposeState_order_entry_too_large state transposed_state
    nqubits ndevices qubit_order p c :
  0 ≤ p < nqubits → read qubit_order p = Some c → nqubits ≤ c →
  TransposeStateFunctor state transposed_state nqubits ndevices
                        qubit_order = None.
Proof.
  intros Hp Hread Hc. unfold TransposeStateFunctor.
  destruct (shl 1 nqubits) as [nstates | ]; simpl; [ | done].
  destruct (idiv nstates ndevices) as [npiece | ]; simpl; [ | done].
  assert (Hexps : qubit_exponents nqubits qubit_order = None);
    [ | by rewrite Hexps].
  unfold qubit_exponents.
  apply (for_each_undefined _ _ (nqubits - p - 1)
           (length (replicate (Z.to_nat nqubits) 0))); [ | | | done].
  - intros q exps exps'. apply qubit_exponents_step_length.
  - apply elem_of_seqZ. lia.
  - intros exps _.
    replace (nqubits - (nqubits - p - 1) - 1) with p by lia.
    rewrite Hread. simpl. unfold shl.
    by destruct (Z.leb_spec 0 (nqubits - c - 1)); [lia | ].
Qed.
End TransposeOutside.

(** ** ApplyGate: linearity in the state *)

Lemma read_zip_with {A B C} (f : A → B → C) (l : list A) (k : list B) i a b :
  read l i = Some a → read k i = Some b →
  read (zip_with f l k) i = Some (f a b).
Proof.
  unfold read. destruct (0 <=? i); [ | done]. intros Ha Hb.
  by rewrite lookup_zip_with, Ha, Hb.
Qed.

Section GateLinear.
Context {T : Type} `{Amplitude T}.
Implicit Types (state : list T) (gate : Gate T).

Add Ring amplitude_ring_linear : amp_ring.

Lemma mix_linear gate bit (c c' a b a' b' : T) :
  mix gate bit (c * a + c' * a')%A (c * b + c' * b')%A
  = (c * mix gate bit a b + c' * mix gate bit a' b')%A.
Proof. destruct bit; unfold mix, new1, new2; ring. Qed.

(** The kernel is linear in the state: on the combination
    c * state + c' * state' of two states, cell by cell, it gives the
    same combination of the two results. *)
Theorem ApplyGate_linear (c c' : T) state state' gate nqubits target
    controls :
  Z.of_nat (length state) = pow2 nqubits →
  Z.of_nat (length state') = pow2 nqubits →
  gate_call_ok nqubits target controls →
  ∃ out out',
    ApplyGateFunctor state gate nqubits target controls = Some out
    ∧ ApplyGateFunctor state' gate nqubits target controls = Some out'
    ∧ ApplyGateFunctor (zip_with (λ x y, c * x + c' * y)%A state state')
                       gate nqubits target controls
      = Some (zip_with (λ x y, c * x + c' * y)%A out out').
Proof.
  intros Hlen Hlen' Hok. pose proof (proj1 Hok) as Ht.
  set (comb := λ x y : T, (c * x + c' * y)%A).
  destruct (ApplyGateFunctor_spec state gate _ _ _ Hok Hlen)
    as (out & Hrun & Hlo & Hread).
  destruct (ApplyGateFunctor_spec state' gate _ _ _ Hok Hlen')
    as (out' & Hrun' & Hlo' & Hread').
  assert (Hlenz : length (zip_with comb state state') = length state)
    by (rewrite length_zip_with; lia).
  destruct (ApplyGateFunctor_spec (zip_with comb state state') gate _ _ _ Hok)
    as (outz & Hrunz & Hloz & Hreadz); [lia | ].
  exists out, out'. split; [done | ]. split; [done | ].
  rewrite Hrunz. f_equal. apply buffer_ext.
  { rewrite length_zip_with. lia. }
  intros j Hj. assert (Hjr : 0 ≤ j < pow2 nqubits) by lia.
  pose proof (flip_qubit_range nqubits target j Ht Hjr) as Hfr.
  destruct (read_in_bounds state j) as [a Ha]; [lia | ].
  destruct (read_in_bounds state (flip_qubit nqubits target j))
    as [b Hb]; [lia | ].
  destruct (read_in_bounds state' j) as [a' Ha']; [lia | ].
  destruct (read_in_bounds state' (flip_qubit nqubits target j))
    as [b' Hb']; [lia | ].
  rewrite Hreadz by done.
  rewrite (gate_spec_mix _ _ _ _ _ _ (comb a a') (comb b b') Ht)
    by (by apply read_zip_with).
  specialize (Hread j Hjr). specialize (Hread' j Hjr).
  rewrite (gate_spec_mix _ _ _ _ _ _ a b Ht Ha Hb) in Hread.
  rewrite (gate_spec_mix _ _ _ _ _ _ a' b' Ht Ha' Hb') in Hread'.
  rewrite (read_zip_with comb out out' j _ _ Hread Hread'). f_equal.
  destruct (controls_set nqubits controls j); [ | done].
  apply mix_linear.
Qed.
End GateLinear.

(** ** The operators on the CPU device *)

Section ComputeCPU.
Context {T : Type} `{Amplitude T}.

(** On the CPU device and within the preconditions, [Compute] of
    ApplyGate runs the functor and returns: the status is left as it
    was, the other inputs are untouched, the output is the buffer of
    input 0 as the functor leaves it, of the same length, and the cells
    whose control bits are not all 1 keep their values. *)
Theorem ApplyGateOp_Compute_CPU (state : list T) gate nqubits target
    controls out st :
  Z.of_nat (length state) = pow2 nqubits →
  gate_call_ok nqubits target controls →
  ∃ state',
    ApplyGateFunctor state gate nqubits target controls = Some state'
    ∧ ApplyGateOp_Compute CPUDevice
        (mkContext (state, gate, nqubits, target, controls) out st)
      = Some (mkContext (state', gate, nqubits, target, controls)
                        (Some state') st)
    ∧ length state' = length state
    ∧ ∀ j, 0 ≤ j < pow2 nqubits →
           controls_set nqubits controls j = false →
           read state' j = read state j.
Proof.
  intros Hlen Hok.
  destruct (ApplyGateFunctor_spec state gate _ _ _ Hok Hlen)
    as (state' & Hrun & Hlen' & Hread).
  exists state'. split; [done | ]. split.
  { unfold ApplyGateOp_Compute, OP_REQUIRES. simpl. by rewrite Hrun. }
  split; [done | ]. intros j Hj Hset. rewrite Hread by done.
  unfold gate_spec. by rewrite Hset.
Qed.

(** On the CPU device [Compute] of TransposeState leaves the pieces and
    the status as they were and returns the destination buffer, filled
    with the amplitudes of the pieces in the new order. *)
Theorem TransposeStateOp_Compute_CPU (state : list (list T))
    (transposed_state : list T) nqubits ndevices qubit_order out st :
  0 ≤ nqubits → 0 < ndevices → (ndevices | pow2 nqubits) →
  Z.of_nat (length state) = ndevices →
  Forall (λ piece, Z.of_nat (length piece) = pow2 nqubits `quot` ndevices)
         state →
  Z.of_nat (length transposed_state) = pow2 nqubits →
  qubit_order ≡ₚ seqZ 0 nqubits →
  ∃ transposed,
    TransposeStateOp_Compute CPUDevice nqubits ndevices qubit_order
      (mkContext (state, transposed_state) out st)
    = Some (mkContext (state, transposed) (Some transposed) st)
    ∧ length transposed = length transposed_state
    ∧ ∀ g, 0 ≤ g < pow2 nqubits →
           read transposed g
           = read (concat state) (source_of nqubits qubit_order g).
Proof.
  intros Hn Hdev Hdiv Hstate Hpieces Hout Hperm.
  destruct (TransposeStateFunctor_cells state transposed_state nqubits
              ndevices qubit_order)
    as (_ & transposed & Hrun & Hlen & Hread); [done.. | ].
  exists transposed. split; [ | done].
  unfold TransposeStateOp_Compute, OP_REQUIRES. simpl. by rewrite Hrun.
Qed.

(** On the CPU device [Compute] of SwapPieces leaves the status as it
    was and returns the two pieces, which are the input buffers after
    the exchange in place. *)
Theorem SwapPiecesOp_Compute_CPU (piece0 piece1 : list T) nqubits target
    out st :
  0 ≤ target < nqubits →
  Z.of_nat (length piece0) = pow2 nqubits →
  Z.of_nat (length piece1) = pow2 nqubits →
  ∃ piece0' piece1',
    SwapPiecesOp_Compute CPUDevice nqubits target
      (mkContext (piece0, piece1) out st)
    = Some (mkContext (piece0', piece1') (Some (piece0', piece1')) st)
    ∧ length piece0' = length piece0 ∧ length piece1' = length piece1
    ∧ ∀ j, 0 ≤ j < pow2 nqubits →
           read piece0' j = swap_spec0 nqubits target piece0 piece1 j
           ∧ read piece1' j = swap_spec1 nqubits target piece0 piece1 j.
Proof.
  intros Ht Hl0 Hl1.
  destruct (SwapPiecesFunctor_spec piece0 piece1 target nqubits)
    as (piece0' & piece1' & Hrun & Hrest); [done.. | ].
  exists piece0', piece1'. split; [ | done].
  unfold SwapPiecesOp_Compute, OP_REQUIRES. simpl. by rewrite Hrun.
Qed.
End ComputeCPU.

(** ** Instances of the further properties on concrete calls *)

Lemma ApplyGate_schedule_independent_witness :
  ApplyGateFunctor_in [6; 4; 2; 0] state_ramp pauli_y 3 2 [0]
  = ApplyGateFunctor state_ramp pauli_y 3 2 [0].
Proof.
  apply (ApplyGate_schedule_independent [6; 4; 2; 0] state_ramp pauli_y
           3 2 [0]); [reflexivity | call_ok | ].
  apply (reverse_Permutation [0; 2; 4; 6]).
Defined.

Lemma ApplyGate_controls_select_witness :
  ∃ controlled plain,
    ApplyGateFunctor_in [6; 4; 2; 0] state_ramp pauli_y 3 2 [0]
    = Some controlled
    ∧ ApplyGateFunctor_in [6; 4; 2; 0] state_ramp pauli_y 3 2 []
      = Some plain
    ∧ length controlled = length state_ramp
    ∧ ∀ j, 0 ≤ j < pow2 3 →
           read controlled j
           = if controls_set 3 [0] j then read plain j
             else read state_ramp j.
Proof.
  apply (ApplyGate_controls_select [6; 4; 2; 0] [6; 4; 2; 0] state_ramp
           pauli_y 3 2 [0]);
    [reflexivity | call_ok | exact windows_target_2
     | exact windows_target_2].
Defined.

Lemma ApplyGate_diagonal_witness :
  ∃ state',
    ApplyGateFunctor_in [6; 4; 2; 0] state_ramp pauli_z 3 2 [0]
    = Some state'
    ∧ ∀ j, 0 ≤ j < pow2 3 →
           read state' j
           = if controls_set 3 [0] j
             then x ← read state_ramp j;
                  Some ((if qubit_bit 3 2 j
                         then g3 pauli_z else g0 pauli_z) * x)%A
             else read state_ramp j.
Proof.
  apply (ApplyGate_diagonal [6; 4; 2; 0] state_ramp pauli_z 3 2 [0]);
    [reflexivity | call_ok | exact windows_target_2 | reflexivity
     | reflexivity].
Defined.

Lemma ApplyGate_identity_gate_witness :
  ApplyGateFunctor state_ramp gid 3 2 [0] = Some state_ramp.
Proof.
  apply (ApplyGate_identity_gate state_ramp 3 2 [0]);
    [reflexivity | call_ok].
Defined.

Lemma ApplyGate_product_witness :
  ∃ state1 state2,
    ApplyGateFunctor state_ramp pauli_x 3 2 [0] = Some state1
    ∧ ApplyGateFunctor state1 pauli_y 3 2 [0] = Some state2
    ∧ ApplyGateFunctor state_ramp (gmul pauli_y pauli_x) 3 2 [0]
      = Some state2.
Proof.
  apply (ApplyGate_product state_ramp pauli_x pauli_y 3 2 [0]);
    [reflexivity | call_ok].
Defined.

Lemma ApplyGate_commute_witness :
  ∃ state',
    ApplyGateFunctor_in [6; 4; 2; 0] state_ramp pauli_x 3 2 [0]
    ≫= (λ state1, ApplyGateFunctor_in [4; 0] state1 pauli_y 3 1 [])
    = Some state'
    ∧ ApplyGateFunctor_in [4; 0] state_ramp pauli_y 3 1 []
      ≫= (λ state2,
            ApplyGateFunctor_in [6; 4; 2; 0] state2 pauli_x 3 2 [0])
      = Some state'.
Proof.
  apply (ApplyGate_commute [6; 4; 2; 0] [4; 0] state_ramp pauli_x pauli_y
           3 2 1 [0] []);
    [reflexivity | call_ok | call_ok | exact windows_target_2
     | exact windows_target_1 | lia | call_ok | call_ok].
Defined.

Lemma ApplyGate_linear_witness :
  ∃ out out',
    ApplyGateFunctor state_ramp pauli_y 3 2 [0] = Some out
    ∧ ApplyGateFunctor state_110 pauli_y 3 2 [0] = Some out'
    ∧ ApplyGateFunctor
        (zip_with (λ x y, gauss_2 * x + gauss_i * y)%A state_ramp state_110)
        pauli_y 3 2 [0]
      = Some (zip_with (λ x y, gauss_2 * x + gauss_i * y)%A out out').
Proof.
  apply (ApplyGate_linear gauss_2 gauss_i state_ramp state_110 pauli_y
           3 2 [0]); [reflexivity | reflexivity | call_ok].
Defined.

Lemma ApplyGate_control_out_of_range_witness :
  ApplyGateFunctor state_ramp pauli_y 3 2 [3] = None.
Proof.
  apply (ApplyGate_control_out_of_range state_ramp pauli_y 3 2 [3] 3);
    [lia | left | lia].
Defined.

Lemma ApplyGate_control_negative_witness :
  ApplyGateFunctor state_ramp pauli_y 3 2 [-1] = None.
Proof.
  apply (ApplyGate_control_negative state_ramp pauli_y 3 2 [-1] (-1));
    [lia | reflexivity | call_ok | left | lia].
Defined.

Lemma ApplyGate_target_among_controls_witness :
  ApplyGateFunctor_in [6; 4; 2; 0] state_ramp pauli_y 3 2 [2] = None.
Proof.
  apply (ApplyGate_target_among_controls [6; 4; 2; 0] state_ramp pauli_y
           3 2 [2]);
    [lia | reflexivity | call_ok | call_ok | left
     | exact windows_target_2].
Defined.

Lemma ApplyGate_target_too_large_witness :
  ApplyGateFunctor state_ramp pauli_y 3 3 [0] = Some state_ramp.
Proof.
  apply (ApplyGate_target_too_large state_ramp pauli_y 3 3 [0]);
    [lia | lia | unfold int_range; lia
     | constructor; [unfold int_range; lia | constructor]
     | vm_compute; split; [discriminate | reflexivity]].
Defined.

Lemma ApplyGate_target_negative_witness :
  ApplyGateFunctor state_ramp pauli_y 3 (-1) [] = None.
Proof.
  apply (ApplyGate_target_negative state_ramp pauli_y 3 (-1) []);
    [lia | lia | reflexivity].
Defined.

Lemma SwapPieces_keeps_amplitudes_witness :
  ∃ piece0' piece1',
    SwapPiecesFunctor [10; 11; 12; 13] [20; 21; 22; 23] 0 2
    = Some (piece0', piece1')
    ∧ length piece0' = length [10; 11; 12; 13]
    ∧ length piece1' = length [20; 21; 22; 23]
    ∧ piece0' ++ piece1' ≡ₚ [10; 11; 12; 13] ++ [20; 21; 22; 23].
Proof.
  apply (SwapPieces_keeps_amplitudes [10; 11; 12; 13] [20; 21; 22; 23] 0 2);
    [lia | reflexivity | reflexivity].
Defined.

Lemma SwapPieces_exchanges_bits_witness :
  ∃ piece0' piece1',
    SwapPiecesFunctor [10; 11; 12; 13] [20; 21; 22; 23] 0 2
    = Some (piece0', piece1')
    ∧ ∀ G, 0 ≤ G < pow2 (2 + 1) →
           read (piece0' ++ piece1') G
           = read ([10; 11; 12; 13] ++ [20; 21; 22; 23])
                  (exchange_bits 2 (2 - 0 - 1) G).
Proof.
  apply (SwapPieces_exchanges_bits [10; 11; 12; 13] [20; 21; 22; 23] 0 2);
    [lia | reflexivity | reflexivity].
Defined.

Lemma SwapPieces_new_global_out_of_range_witness :
  SwapPiecesFunctor [10; 11; 12; 13] [20; 21; 22; 23] 2 2 = None.
Proof.
  apply (SwapPieces_new_global_out_of_range
           [10; 11; 12; 13] [20; 21; 22; 23] 2 2);
    [lia | reflexivity | right; lia].
Defined.

Lemma TransposeState_identity_order_witness :
  TransposeStateFunctor [[10; 11]; [12; 13]] [0; 0; 0; 0] 2 2 (seqZ 0 2)
  = Some (concat [[10; 11]; [12; 13]]).
Proof.
  apply (TransposeState_identity_order [[10; 11]; [12; 13]] [0; 0; 0; 0]
           2 2);
    [lia | lia | by exists 2 | reflexivity | repeat constructor
     | reflexivity].
Defined.

Lemma TransposeState_permutation_witness :
  ∃ out,
    TransposeStateFunctor [[10; 11]; [12; 13]] [0; 0; 0; 0] 2 2 [1; 0]
    = Some out
    ∧ out ≡ₚ concat [[10; 11]; [12; 13]].
Proof.
  apply (TransposeState_permutation [[10; 11]; [12; 13]] [0; 0; 0; 0]
           2 2 [1; 0]);
    [lia | lia | by exists 2 | reflexivity | repeat constructor
     | reflexivity | apply perm_swap].
Defined.

Lemma order_120_permutation : [1; 2; 0] ≡ₚ seqZ 0 3.
Proof.
  change (seqZ 0 3) with [0; 1; 2].
  apply (perm_trans (l' := [1; 0; 2]));
    [apply perm_skip, perm_swap | apply perm_swap].
Defined.

Lemma order_201_permutation : [2; 0; 1] ≡ₚ seqZ 0 3.
Proof.
  change (seqZ 0 3) with [0; 1; 2].
  apply (perm_trans (l' := [0; 2; 1]));
    [apply perm_swap | apply perm_skip, perm_swap].
Defined.

Lemma order_201_inverse j :
  0 ≤ j < 3 →
  [2; 0; 1] !!! Z.to_nat ([1; 2; 0] !!! Z.to_nat j) = j.
Proof.
  intros Hj. assert (j = 0 ∨ j = 1 ∨ j = 2) as [-> | [-> | ->]] by lia;
    reflexivity.
Defined.

Lemma TransposeState_round_trip_witness :
  ∃ out,
    TransposeStateFunctor [[10; 11; 12; 13]; [14; 15; 16; 17]]
      [0; 0; 0; 0; 0; 0; 0; 0] 3 2 [1; 2; 0] = Some out
    ∧ TransposeStateFunctor [out] [0; 0; 0; 0; 0; 0; 0; 0] 3 1 [2; 0; 1]
      = Some (concat [[10; 11; 12; 13]; [14; 15; 16; 17]]).
Proof.
  apply (TransposeState_round_trip [[10; 11; 12; 13]; [14; 15; 16; 17]]
           [0; 0; 0; 0; 0; 0; 0; 0] [0; 0; 0; 0; 0; 0; 0; 0] 3 2
           [1; 2; 0] [2; 0; 1]);
    [lia | lia | by exists 4 | reflexivity | repeat constructor
     | reflexivity | reflexivity | exact order_120_permutation
     | exact order_201_permutation | exact order_201_inverse].
Defined.

Lemma TransposeState_no_devices_witness :
  TransposeStateFunctor [] [0; 0; 0; 0] 2 0 [0; 1] = None.
Proof.
  apply (TransposeState_no_devices [] [0; 0; 0; 0] 2 0 [0; 1]).
  right. reflexivity.
Defined.

Lemma TransposeState_order_too_short_witness :
  TransposeStateFunctor [[10; 11]; [12; 13]] [0; 0; 0; 0] 2 2 [0] = None.
Proof.
  apply (TransposeState_order_too_short [[10; 11]; [12; 13]] [0; 0; 0; 0]
           2 2 [0]).
  simpl. lia.
Defined.

Lemma TransposeState_order_entry_too_large_witness :
  TransposeStateFunctor [[10; 11]; [12; 13]] [0; 0; 0; 0] 2 2 [0; 2]
  = None.
Proof.
  apply (TransposeState_order_entry_too_large [[10; 11]; [12; 13]]
           [0; 0; 0; 0] 2 2 [0; 2] 1 2); [lia | reflexivity | lia].
Defined.

Lemma ApplyGateOp_Compute_CPU_witness :
  ∃ state',
    ApplyGateFunctor state_ramp pauli_y 3 2 [0] = Some state'
    ∧ ApplyGateOp_Compute CPUDevice
        (mkContext (state_ramp, pauli_y, 3, 2, [0]) None OK)
      = Some (mkContext (state', pauli_y, 3, 2, [0]) (Some state') OK)
    ∧ length state' = length state_ramp
    ∧ ∀ j, 0 ≤ j < pow2 3 →
           controls_set 3 [0] j = false →
           read state' j = read state_ramp j.
Proof.
  apply (ApplyGateOp_Compute_CPU state_ramp pauli_y 3 2 [0] None OK);
    [reflexivity | call_ok].
Defined.

Lemma TransposeStateOp_Compute_CPU_witness :
  ∃ transposed,
    TransposeStateOp_Compute CPUDevice 3 2 [1; 2; 0]
      (mkContext ([firstn 4 state_ramp; skipn 4 state_ramp], state_110)
                 None OK)
    = Some (mkContext ([firstn 4 state_ramp; skipn 4 state_ramp],
                       transposed)
                      (Some transposed) OK)
    ∧ length transposed = length state_110
    ∧ ∀ g, 0 ≤ g < pow2 3 →
           read transposed g
           = read (concat [firstn 4 state_ramp; skipn 4 state_ramp])
                  (source_of 3 [1; 2; 0] g).
Proof.
  apply (TransposeStateOp_Compute_CPU
           [firstn 4 state_ramp; skipn 4 state_ramp] state_110 3 2
           [1; 2; 0] None OK);
    [lia | lia | by exists 4 | reflexivity | repeat constructor
     | reflexivity | exact order_120_permutation].
Defined.

Lemma SwapPiecesOp_Compute_CPU_witness :
  ∃ piece0' piece1',
    SwapPiecesOp_Compute CPUDevice 3 1
      (mkContext (state_ramp, state_110) None OK)
    = Some (mkContext (piece0', piece1') (Some (piece0', piece1')) OK)
    ∧ length piece0' = length state_ramp
    ∧ length piece1' = length state_110
    ∧ ∀ j, 0 ≤ j < pow2 3 →
           read piece0' j = swap_spec0 3 1 state_ramp state_110 j
           ∧ read piece1' j = swap_spec1 3 1 state_ramp state_110 j.
Proof.
  apply (SwapPiecesOp_Compute_CPU state_ramp state_110 3 1 None OK);
    [lia | reflexivity | reflexivity].
Defined.
